(** * UEFA Champions League schedule optimisation: a Rocq model

    The repository has two scripts, kept in one source file:

    - the travel analytics script (lines 1-96 of [codi_CLactual.py]):
      [haversine_km], [normalize_name], [match_distance] and the
      [groupby]/[agg] pipeline over an already fixed calendar;
    - the optimiser (lines 100-381): [calcular_distancia_haversine],
      [crear_matriu_distancies], [optimitzar_lliga_champions] (the PuLP
      model) and [convertir_variables_a_matriu].

    Conventions of the embedding.
    - A Python [str] is the list of its code points ([list N]).
    - A Python [float] is a real number of [R]: every statement about
      distances is a statement of exact real arithmetic.
    - A Python [dict] is a [gmap], or an association list where the order
      of its keys is read ([equips_per_pais.items()]); a failed subscript
      ([KeyError], [IndexError]) is an explicit error value.
    - The tables of the interpreter's Unicode database ([str.casefold],
      [unicodedata.normalize], [unicodedata.combining]) are not part of
      the repository: the functions take them as a parameter
      ([unicode_tables]). *)

From Stdlib Require Import Reals Lra Lia ZArith NArith List Bool String Ascii Sorted.
From stdpp Require Import gmap list strings.
Import ListNotations.

(** ** Part I. Definitions *)

(** *** Strings *)

(** A string is its sequence of code points. *)
Abbreviation str := (list N).

(** ASCII literals, for readable examples. *)
Fixpoint cps (s : string) : str :=
  match s with
  | EmptyString => []
  | String a s' => N_of_ascii a :: cps s'
  end.

(** [str.isspace] for one character, as CPython's [_PyUnicode_IsWhitespace]
    lists them; [str.strip()] and [str.split()] without arguments use it. *)
Definition isspace (c : N) : bool :=
  ((9 <=? c) && (c <=? 13) || (28 <=? c) && (c <=? 32) ||
   (c =? 133) || (c =? 160) || (c =? 5760) ||
   (8192 <=? c) && (c <=? 8202) || (c =? 8232) || (c =? 8233) ||
   (c =? 8239) || (c =? 8287) || (c =? 12288))%N.

Definition SPACE : N := 32%N.

(** [s.lstrip()], [s.strip()]. *)
Fixpoint lstrip (s : str) : str :=
  match s with
  | [] => []
  | c :: s' => if isspace c then lstrip s' else s
  end.

Definition strip (s : str) : str := rev (lstrip (rev (lstrip s))).

(** [s.split()]: the maximal runs of characters that are not white space. *)
Fixpoint split (s : str) : list str :=
  match s with
  | [] => []
  | c :: s' =>
      if isspace c then split s'
      else match s' with
           | [] => [[c]]
           | d :: _ =>
               if isspace d then [c] :: split s'
               else match split s' with
                    | w :: ws => (c :: w) :: ws
                    | [] => [[c]]
                    end
           end
  end.

(** [sep.join(ws)] for a one-character separator. *)
Fixpoint join (sep : N) (ws : list str) : str :=
  match ws with
  | [] => []
  | [w] => w
  | w :: ws' => w ++ sep :: join sep ws'
  end.

(** The interpreter's Unicode tables, one character at a time:
    [fold_char c] is the full case folding of [c] ([str.casefold] maps every
    character by it); [decompose c] is the full compatibility decomposition
    of [c]; [combining c] is [unicodedata.combining(c)], the canonical
    combining class. *)
Record unicode_tables := {
  fold_char : N -> str;
  decompose : N -> str;
  combining : N -> N;
}.

Section Normalisation.
Context (T : unicode_tables).

Definition casefold (s : str) : str := flat_map (fold_char T) s.

(** Canonical ordering: a character with a non-zero combining class moves
    to the right past the marks of a strictly smaller non-zero class. *)
Fixpoint place (c : N) (l : str) : str :=
  match l with
  | [] => [c]
  | d :: l' =>
      if ((0 <? combining T d) && (combining T d <? combining T c))%N
      then d :: place c l'
      else c :: l
  end.

Definition canonical_order (s : str) : str := fold_right place [] s.

(** [unicodedata.normalize("NFKD", s)]: decompose every character, then
    order the combining marks. *)
Definition NFKD (s : str) : str := canonical_order (flat_map (decompose T) s).

Definition not_combining (ch : N) : bool := (combining T ch =? 0)%N.
End Normalisation.

(** A spreadsheet cell holding a team name: a string, or missing. pandas
    reads a missing cell as [NaN]; [None] is what [normalize_name] itself
    returns for it. *)
Inductive cell :=
| CNone
| CNaN
| CStr (s : str).

(** [pd.isna]. *)
Definition isna (v : cell) : bool :=
  match v with
  | CStr _ => false
  | _ => true
  end.

(** The result of [normalize_name] is [None] or a string; as a cell again. *)
Definition as_cell (o : option str) : cell :=
  match o with
  | None => CNone
  | Some s => CStr s
  end.

(** [normalize_name] (lines 27-34). *)
Definition normalize_name (T : unicode_tables) (s : cell) : option str :=
  match s with
  | CStr s0 =>
      let s1 := casefold T (strip s0) in
      let s2 := List.filter (not_combining T) (NFKD T s1) in
      let s3 := join SPACE (split s2) in
      Some s3
  | _ => None
  end.

(** The rows of the Unicode Character Database that the examples below use;
    a character outside the excerpt is left as it is. *)
Definition ucd_fold_char (c : N) : str :=
  (if (65 <=? c) && (c <=? 90) then [c + 32]            (* A-Z *)
   else if (192 <=? c) && (c <=? 222) && negb (c =? 215)
        then [c + 32]                                    (* Latin-1 capitals *)
   else if c =? 223 then [115; 115]                      (* sharp s -> ss *)
   else if c =? 181 then [956]                           (* micro -> mu *)
   else [c])%N.

Definition ucd_decompose (c : N) : str :=
  (if c =? 160 then [32]                                 (* NO-BREAK SPACE *)
   else if c =? 168 then [32; 776]                       (* DIAERESIS *)
   else if c =? 224 then [97; 768]                       (* a grave *)
   else if c =? 225 then [97; 769]                       (* a acute *)
   else if c =? 231 then [99; 807]                       (* c cedilla *)
   else if c =? 233 then [101; 769]                      (* e acute *)
   else if c =? 241 then [110; 771]                      (* n tilde *)
   else if c =? 246 then [111; 776]                      (* o diaeresis *)
   else if c =? 252 then [117; 776]                      (* u diaeresis *)
   else if c =? 8482 then [84; 77]                       (* TRADE MARK SIGN *)
   else if c =? 8460 then [72]                           (* BLACK-LETTER H *)
   else [c])%N.

Definition ucd_combining (c : N) : N :=
  (if (768 <=? c) && (c <=? 788) then 230
   else if (c =? 803) then 220
   else if (c =? 807) then 202
   else 0)%N.

Definition ucd : unicode_tables :=
  {| fold_char := ucd_fold_char;
     decompose := ucd_decompose;
     combining := ucd_combining |}.

(** *** Geodesy *)

Local Open Scope R_scope.

(** [math.radians]. *)
Definition radians (x : R) : R := x * (PI / 180).

(** [math.atan2(y, x)]: the angle of the point [(x, y)], in [(-PI, PI]]. *)
Definition atan2 (y x : R) : R :=
  if Rlt_dec 0 x then atan (y / x)
  else if Rlt_dec x 0 then
         if Rle_dec 0 y then atan (y / x) + PI else atan (y / x) - PI
  else if Rlt_dec 0 y then PI / 2
  else if Rlt_dec y 0 then - (PI / 2)
  else 0.

(** The two distance functions in exact arithmetic: a float is read as the
    real number it stands for and every operation as the exact one. This is
    the reading in which the two functions are compared and the matrix is
    symmetric. [math.sqrt] and [math.asin] raise [ValueError] outside
    [0 <= a] and [-1 <= x <= 1]; in exact arithmetic no coordinates reach
    that case (lemma [haversine_a_range] below), so here the real functions
    [sqrt] and [asin] stand for them. With rounding the case is reached: the
    optimiser's function is given again with rounded operations and its
    [ValueError] in module [Float] below, and what is said of the matrix
    as a whole and of the main program is said of that one.

    The haversine of the central angle: the expression [a] of both
    distance functions (lines 17 and 185). *)
Definition haversine_a (rlat1 rlon1 rlat2 rlon2 : R) : R :=
  let dlat := rlat2 - rlat1 in
  let dlon := rlon2 - rlon1 in
  sin (dlat / 2) ^ 2 + cos rlat1 * cos rlat2 * sin (dlon / 2) ^ 2.

(** [haversine_km] (lines 12-20), of the analytics script. *)
Definition haversine_km (lat1 lon1 lat2 lon2 : R) : R :=
  let rlat1 := radians lat1 in
  let rlon1 := radians lon1 in
  let rlat2 := radians lat2 in
  let rlon2 := radians lon2 in
  let dlat := rlat2 - rlat1 in
  let dlon := rlon2 - rlon1 in
  let a := sin (dlat / 2) ^ 2 + cos rlat1 * cos rlat2 * sin (dlon / 2) ^ 2 in
  let c := 2 * asin (sqrt a) in
  let R := 6371.0088 in
  R * c.

(** [calcular_distancia_haversine] (lines 161-188), of the optimiser. *)
Definition calcular_distancia_haversine (lat1 lon1 lat2 lon2 : R) : R :=
  let R := 6371.0 in
  let lat1_rad := radians lat1 in
  let lon1_rad := radians lon1 in
  let lat2_rad := radians lat2 in
  let lon2_rad := radians lon2 in
  let dlon := lon2_rad - lon1_rad in
  let dlat := lat2_rad - lat1_rad in
  let a := sin (dlat / 2) ^ 2
           + cos lat1_rad * cos lat2_rad * sin (dlon / 2) ^ 2 in
  let c := 2 * atan2 (sqrt a) (sqrt (1 - a)) in
  R * c.

Local Close Scope R_scope.

(** *** The travel analytics script (lines 44-96) *)

(** A row of the stadium sheet: team name, latitude and longitude in
    millionths of a degree, each a number (a blank coordinate cell, which
    pandas reads as NaN, is not a row of this type). A row of the calendar:
    home and away team. *)
Record stadium_row := { st_team : cell; st_lat : R; st_lon : R }.
Record match_row := { home : cell; away : cell }.

(** [stadiums_dict] (line 54): normalised name to coordinates in degrees; a
    later row with the same name replaces an earlier one. *)
Definition stadiums_dict (T : unicode_tables) (stadiums : list stadium_row)
  : gmap (option str) (R * R) :=
  fold_left
    (fun d row =>
       <[normalize_name T (st_team row)
         := ((st_lat row / 1000000)%R, (st_lon row / 1000000)%R)]> d)
    stadiums ∅.

(** A row of [matches_clean]: [home_norm], [away_norm]. *)
Definition norm_row (T : unicode_tables) (m : match_row)
  : option str * option str :=
  (normalize_name T (home m), normalize_name T (away m)).

(** [match_distance] (lines 63-79); [None] is [np.nan]. *)
Definition match_distance (dict : gmap (option str) (R * R))
    (row : option str * option str) : option R :=
  let home_team := row.1 in
  let away_team := row.2 in
  match home_team, away_team with
  | Some _, Some _ =>
      match dict !! home_team, dict !! away_team with
      | Some home_coords, Some away_coords =>
          Some (haversine_km away_coords.1 away_coords.2
                             home_coords.1 home_coords.2)
      | _, _ => None
      end
  | _, _ => None
  end.

(** Strings compare by code points, as Python's [<] on [str]. *)
Fixpoint str_ltb (a b : str) : bool :=
  match a, b with
  | [], [] => false
  | [], _ :: _ => true
  | _ :: _, [] => false
  | x :: a', y :: b' => (x <? y)%N || (x =? y)%N && str_ltb a' b'
  end.

(** The group keys of [groupby]: the distinct keys, sorted; rows whose key
    is missing form no group. *)
Fixpoint insert_key (k : str) (ks : list str) : list str :=
  match ks with
  | [] => [k]
  | k' :: ks' =>
      if bool_decide (k = k') then ks
      else if str_ltb k k' then k :: ks
      else k' :: insert_key k ks'
  end.

Definition group_keys (col : list (option str)) : list str :=
  fold_right (fun o ks => match o with
                          | Some k => insert_key k ks
                          | None => ks
                          end) [] col.

(** The aggregations ['sum'] and ['count'] of a column: both skip [NaN], and
    the sum of nothing is 0. *)
Definition nansum (col : list (option R)) : R :=
  fold_left (fun acc o => match o with
                          | Some d => (acc + d)%R
                          | None => acc
                          end) col 0%R.

Definition count (col : list (option R)) : nat :=
  length (List.filter (fun o => match o with Some _ => true | None => false end)
                      col).

(** [Series.round(2)]: to the nearest hundredth, halves to even. *)
Definition round_half_even (x : R) : Z :=
  let n := Int_part x in
  let f := frac_part x in
  if Rlt_dec f (1 / 2) then n
  else if Rlt_dec (1 / 2) f then (n + 1)%Z
  else if Z.even n then n else (n + 1)%Z.

Definition round2 (x : R) : R := (IZR (round_half_even (x * 100)) / 100)%R.

(** A line of the printed table. *)
Record agg_line := {
  away_norm : str;
  total_travel_km : R;
  n_matches : nat;
}.

(** The column [away_travel_km] of the rows of one group. *)
Definition group_column (dict : gmap (option str) (R * R))
    (rows : list (option str * option str)) (k : str) : list (option R) :=
  map (match_distance dict)
      (List.filter (fun row => bool_decide (row.2 = Some k)) rows).

(** [agg] (lines 85-90), totals rounded. *)
Definition agg (dict : gmap (option str) (R * R))
    (rows : list (option str * option str)) : list agg_line :=
  map (fun k =>
         {| away_norm := k;
            total_travel_km := round2 (nansum (group_column dict rows k));
            n_matches := count (group_column dict rows k) |})
      (group_keys (map snd rows)).

(** [sort_values('total_travel_km', ascending=False)]: lines with equal
    totals keep their order here (pandas promises no order among them). *)
Fixpoint insert_desc (r : agg_line) (l : list agg_line) : list agg_line :=
  match l with
  | [] => [r]
  | r' :: l' =>
      if Rlt_dec (total_travel_km r') (total_travel_km r) then r :: l
      else r' :: insert_desc r l'
  end.

Definition sort_values (l : list agg_line) : list agg_line :=
  fold_right insert_desc [] l.

(** What the script prints: the sorted table and the grand total. *)
Record report := {
  agg_sorted : list agg_line;
  total_distancia_total : R;
}.

Definition analytics (T : unicode_tables) (stadiums : list stadium_row)
    (matches : list match_row) : report :=
  let dict := stadiums_dict T stadiums in
  let rows := map (norm_row T) matches in
  let sorted := sort_values (agg dict rows) in
  {| agg_sorted := sorted;
     total_distancia_total :=
       fold_left Rplus (map total_travel_km sorted) 0%R |}.

(** The records left out of the totals: those whose distance is [NaN]. *)
Definition excluded (T : unicode_tables) (stadiums : list stadium_row)
    (matches : list match_row) : nat :=
  length (List.filter
            (fun row => match match_distance (stadiums_dict T stadiums) row with
                        | None => true
                        | Some _ => false
                        end)
            (map (norm_row T) matches)).

(** *** Exceptions *)

(** The exceptions the optimiser's functions can raise, and a computation
    that returns a value or raises one of them. [ValueError] is the "math
    domain error" of [math.sqrt]. *)
Inductive exn := KeyError | IndexError | TypeError | ValueError.

Inductive result (A : Type) :=
| Ok (a : A)
| Raise (e : exn).
Arguments Ok {A} a.
Arguments Raise {A} e.

Global Instance result_ret : MRet result := fun A a => Ok a.
Global Instance result_bind : MBind result :=
  fun A B f r => match r with
                 | Ok a => f a
                 | Raise e => Raise e
                 end.

(** [d[k]] on a dictionary, [l[i]] on a list. *)
Definition getitem `{Countable K} {V} (d : gmap K V) (k : K) : result V :=
  match d !! k with
  | Some v => Ok v
  | None => Raise KeyError
  end.

Definition index {A} (l : list A) (i : nat) : result A :=
  match l !! i with
  | Some v => Ok v
  | None => Raise IndexError
  end.

(** [for a in l: body], the loop's variables threaded as the state [s]. *)
Fixpoint for_each {A S} (l : list A) (body : A -> S -> result S) (s : S)
  : result S :=
  match l with
  | [] => Ok s
  | a :: l' => s' ← body a s; for_each l' body s'
  end.

(** [range(N)]. *)
Definition range (N : nat) : list nat := seq 0 N.

(** *** The optimiser: teams and distances (lines 118-211) *)

(** A value of the dictionary [equips]: the keys ['nom'], ['estadi'], ['lat'],
    ['lon'], ['pais'], ['pot'] of one team. *)
Record team := {
  nom : string;
  estadi : string;
  lat : R;
  lon : R;
  pais : string;
  pot : Z;
}.

(** [crear_matriu_distancies] (lines 191-211), in exact arithmetic.
    [distancies[i][j] = d] replaces element [j] of row [i]. The function
    with rounded distances, which can raise [ValueError], is
    [Float.crear_matriu_distancies] below. *)
Definition crear_matriu_distancies (equips : gmap nat team)
  : result (list (list R)) :=
  let N := size equips in
  let distancies := replicate N (replicate N 0%R) in
  for_each (range N) (fun i distancies =>
    for_each (range N) (fun j distancies =>
      if decide (i ≠ j) then
        ti ← getitem equips i;
        let lat1 := lat ti in
        let lon1 := lon ti in
        tj ← getitem equips j;
        let lat2 := lat tj in
        let lon2 := lon tj in
        let d := calcular_distancia_haversine lat1 lon1 lat2 lon2 in
        Ok (alter (fun row => <[j := d]> row) i distancies)
      else Ok distancies) distancies) distancies.

(** [dist[i][j]] of a matrix. *)
Definition entry {A} (m : list (list A)) (i j : nat) : option A :=
  row ← m !! i; row !! j.

(** *** The optimiser: the PuLP model (lines 218-306) *)

(** The decision variable [x[(i, j)]] ("team i visits team j") is named by
    its key [(i, j)]; every key the function uses has both components below
    [N], so the subscript [x[(i, j)]] never fails and is the key itself. *)
Abbreviation var := (nat * nat)%type.

Inductive sense := LpConstraintLE | LpConstraintEQ | LpConstraintGE.

(** A linear constraint over the variables, every coefficient being 1:
    [lpSum(lhs) sense rhs]. *)
Record LpConstraint := {
  lhs : list var;
  c_sense : sense;
  rhs : Z;
}.

(** An [LpProblem]: the objective, a sum of [coefficient * variable], and
    the constraints in the order they were added. *)
Record LpProblem := {
  objective : list (R * var);
  constraints : list LpConstraint;
}.

(** [model += c]. *)
Definition add_constraint (model : LpProblem) (c : LpConstraint) : LpProblem :=
  {| objective := objective model;
     constraints := constraints model ++ [c] |}.

Definition lp_eq (e : list var) (b : Z) : LpConstraint :=
  {| lhs := e; c_sense := LpConstraintEQ; rhs := b |}.
Definition lp_le (e : list var) (b : Z) : LpConstraint :=
  {| lhs := e; c_sense := LpConstraintLE; rhs := b |}.

Definition TOTAL_PARTITS : Z := 8.
Definition MAX_RIVAL_MATEIX_PAIS : Z := 2.
Definition PARTITS_PER_POT : Z := 1.

(** [equips_per_pais.setdefault(pais, []).append(i)]: the dictionary keeps
    its keys in the order of their first insertion, which is the order
    [.items()] is read in. *)
Fixpoint setdefault_append (d : list (string * list nat)) (k : string)
    (i : nat) : list (string * list nat) :=
  match d with
  | [] => [(k, [i])]
  | (k', l) :: d' =>
      if decide (k = k') then (k', l ++ [i]) :: d'
      else (k', l) :: setdefault_append d' k i
  end.

(** Lines 247-255: the teams of each pot and of each country. A pot that is
    not a key of [equips_per_pot] raises [KeyError]. *)
Definition agrupar (equips : gmap nat team) (N : nat)
  : result (gmap Z (list nat) * list (string * list nat)) :=
  let equips_per_pot : gmap Z (list nat) :=
    <[1%Z := []]> (<[2%Z := []]> (<[3%Z := []]> (<[4%Z := []]> ∅))) in
  let equips_per_pais : list (string * list nat) := [] in
  for_each (range N) (fun i '(equips_per_pot, equips_per_pais) =>
    ti ← getitem equips i;
    let pot := pot ti in
    ti' ← getitem equips i;
    let pais := pais ti' in
    l ← getitem equips_per_pot pot;
    Ok (<[pot := l ++ [i]]> equips_per_pot,
        setdefault_append equips_per_pais pais i))
    (equips_per_pot, equips_per_pais).

(** Line 258-260: the keys of [x], every one a binary variable. *)
Definition LpVariable_dicts (N : nat) : list var :=
  i ← range N; j ← range N; [(i, j)].

(** Line 263: the objective; [dists[i][j]] raises [IndexError] outside the
    matrix. *)
Definition objectiu (dists : list (list R)) (N : nat)
  : result (list (R * var)) :=
  for_each (range N) (fun i acc =>
    for_each (range N) (fun j acc =>
      row ← index dists i;
      d ← index row j;
      Ok (acc ++ [(d, (i, j))])) acc) [].

(** Lines 267-270. *)
Definition restriccio_1 (N : nat) (model : LpProblem) : LpProblem :=
  fold_left (fun model i =>
    let model :=
      add_constraint model
        (lp_eq (map (fun j => (i, j)) (range N)) (TOTAL_PARTITS / 2)) in
    add_constraint model
      (lp_eq (map (fun j => (j, i)) (range N)) (TOTAL_PARTITS / 2)))
    (range N) model.

(** Lines 273-276. *)
Definition restriccio_2 (N : nat) (model : LpProblem) : LpProblem :=
  fold_left (fun model i =>
    fold_left (fun model j =>
      if decide (i ≠ j) then add_constraint model (lp_le [(i, j); (j, i)] 1)
      else model) (range N) model)
    (range N) model.

(** Lines 279-282. *)
Definition restriccio_3 (equips : gmap nat team) (N : nat) (model : LpProblem)
  : result LpProblem :=
  for_each (range N) (fun i model =>
    for_each (range N) (fun j model =>
      if decide (i ≠ j) then
        ti ← getitem equips i;
        tj ← getitem equips j;
        if decide (pais ti = pais tj)
        then Ok (add_constraint model (lp_eq [(i, j)] 0))
        else Ok model
      else Ok model) model) model.

(** Lines 285-291. *)
Definition restriccio_4 (equips : gmap nat team) (N : nat)
    (equips_per_pais : list (string * list nat)) (model : LpProblem)
  : result LpProblem :=
  for_each (range N) (fun i model =>
    ti ← getitem equips i;
    let pais_i := pais ti in
    Ok (fold_left (fun model '(pais_j, equips_pais_j) =>
          if decide (pais_j ≠ pais_i) then
            let equips_del_pais :=
              List.filter (fun j => bool_decide (j ≠ i)) equips_pais_j in
            add_constraint model
              (lp_le (map (fun j => (i, j)) equips_del_pais
                      ++ map (fun j => (j, i)) equips_del_pais)
                     MAX_RIVAL_MATEIX_PAIS)
          else model) equips_per_pais model)) model.

(** Lines 294-298. *)
Definition restriccio_5 (N : nat) (equips_per_pot : gmap Z (list nat))
    (model : LpProblem) : result LpProblem :=
  for_each (range N) (fun i model =>
    for_each [1; 2; 3; 4]%Z (fun pot_objectiu model =>
      l ← getitem equips_per_pot pot_objectiu;
      let equips_del_pot := List.filter (fun j => bool_decide (j ≠ i)) l in
      let model :=
        add_constraint model
          (lp_eq (map (fun j => (i, j)) equips_del_pot) PARTITS_PER_POT) in
      Ok (add_constraint model
            (lp_eq (map (fun j => (j, i)) equips_del_pot) PARTITS_PER_POT)))
      model) model.

(** Lines 236-298 of [optimitzar_lliga_champions]: the model and the
    dictionary of variables, before the solver is called. *)
Definition construir_model (equips : gmap nat team) (dists : list (list R))
  : result (LpProblem * list var) :=
  let N := size equips in
  '(equips_per_pot, equips_per_pais) ← agrupar equips N;
  let x := LpVariable_dicts N in
  obj ← objectiu dists N;
  let model := {| objective := obj; constraints := [] |} in
  let model := restriccio_1 N model in
  let model := restriccio_2 N model in
  model ← restriccio_3 equips N model;
  model ← restriccio_4 equips N equips_per_pais model;
  model ← restriccio_5 N equips_per_pot model;
  Ok (model, x).

(** *** The optimiser: solving and reading the result (lines 300-330) *)

(** What a solve leaves behind: [model.status] and the [varValue] of every
    variable ([None] when the solver assigned none). The solver itself
    ([pulp.PULP_CBC_CMD]) is an external program: a parameter. *)
Record solution := {
  status : Z;
  varValue : var -> option R;
}.

Definition LpStatusOptimal : Z := 1.

(** What the function does to the outside, in order: the call of the solver
    with its time limit, and the line it prints. *)
Inductive event :=
| Solve (model : LpProblem) (timeLimit : Z)
| Print (distancia_total : R).

(** [pulp.value(model.objective)]: [None] as soon as a variable of the
    objective has no value. *)
Definition objective_value (obj : list (R * var)) (val : var -> option R)
  : option R :=
  fold_left (fun acc '(c, v) =>
               s ← acc; xv ← val v; Some (s + xv * c)%R)
            obj (Some 0%R).

(** [optimitzar_lliga_champions] (lines 218-306): the events, and the
    returned pair [(model, x)] (the model with its status, each variable
    with its value) or the exception raised. *)
Definition optimitzar_lliga_champions
    (PULP_CBC_CMD : Z -> LpProblem -> solution)
    (equips : gmap nat team) (dists : list (list R))
  : list event * result (LpProblem * Z * gmap var (option R)) :=
  match construir_model equips dists with
  | Raise e => ([], Raise e)
  | Ok (model, x) =>
      let sol := PULP_CBC_CMD 300%Z model in
      let values : gmap var (option R) :=
        list_to_map (map (fun v => (v, varValue sol v)) x) in
      if decide (status sol = LpStatusOptimal) then
        match objective_value (objective model) (varValue sol) with
        | Some total =>
            ([Solve model 300%Z; Print total],
             Ok (model, status sol, values))
        | None => ([Solve model 300%Z], Raise TypeError)
        end
      else ([Solve model 300%Z], Ok (model, status sol, values))
  end.

(** [int(v)]: [TypeError] on [None], truncation towards zero on a float. *)
Definition py_int (v : option R) : result Z :=
  match v with
  | None => Raise TypeError
  | Some r => Ok (if Rle_dec 0 r then Int_part r else (- Int_part (- r))%Z)
  end.

(** [convertir_variables_a_matriu] (lines 313-330). *)
Definition convertir_variables_a_matriu (x : gmap var (option R)) (N : nat)
  : result (list (list Z)) :=
  let matriu := replicate N (replicate N 0%Z) in
  for_each (range N) (fun i matriu =>
    for_each (range N) (fun j matriu =>
      v ← getitem x (i, j);
      n ← py_int v;
      Ok (alter (fun row => <[j := n]> row) i matriu)) matriu) matriu.

(** *** Assignments and feasibility *)

(** An assignment gives every variable an integer. *)
Definition lpSum (x : var -> Z) (e : list var) : Z :=
  fold_right (fun v acc => (x v + acc)%Z) 0%Z e.

Definition satisfies (x : var -> Z) (c : LpConstraint) : bool :=
  match c_sense c with
  | LpConstraintLE => (lpSum x (lhs c) <=? rhs c)%Z
  | LpConstraintEQ => (lpSum x (lhs c) =? rhs c)%Z
  | LpConstraintGE => (rhs c <=? lpSum x (lhs c))%Z
  end.

Definition binary (x : var -> Z) (v : var) : Prop := x v = 0%Z \/ x v = 1%Z.

(** [x] is feasible for [model] with the binary variables [vars]. *)
Definition feasible (model : LpProblem) (vars : list var) (x : var -> Z)
  : Prop :=
  Forall (binary x) vars /\
  Forall (fun c => satisfies x c = true) (constraints model).

(** *** The invariants of a fixture assignment, as the data model states them *)

Section Invariants.
Context (equips : gmap nat team) (x : var -> Z).

Definition country (i : nat) : option string := pais <$> equips !! i.
Definition pot_of (i : nat) : option Z := pot <$> equips !! i.

(** The sum of [f j] over the [j] of [l]. *)
Definition sum_over (l : list nat) (f : nat -> Z) : Z :=
  fold_right (fun j acc => (f j + acc)%Z) 0%Z l.

(** The teams of country [c]; the teams of pot [p] other than [i]. *)
Definition in_country (c : string) : list nat :=
  List.filter (fun j => bool_decide (country j = Some c)) (range (size equips)).
Definition in_pot_but (p : Z) (i : nat) : list nat :=
  List.filter (fun j => bool_decide (pot_of j = Some p /\ j ≠ i)) (range (size equips)).

Definition is_assignment : Prop :=
  forall i j, i < size equips -> j < size equips -> binary x (i, j).

(** 1. Four away and four home matches. *)
Definition degree : Prop :=
  forall i, i < size equips ->
    sum_over (range (size equips)) (fun j => x (i, j)) = 4%Z /\
    sum_over (range (size equips)) (fun j => x (j, i)) = 4%Z.

(** 2. At most one leg between two teams. *)
Definition pairing : Prop :=
  forall i j, i < size equips -> j < size equips -> i ≠ j -> (x (i, j) + x (j, i) <= 1)%Z.

(** 3. No match inside a country. *)
Definition nationality_exclusion : Prop :=
  forall i j, i < size equips -> j < size equips -> i ≠ j -> country i = country j ->
    x (i, j) = 0%Z.

(** 4. At most two matches against the teams of a foreign country. *)
Definition nationality_cap : Prop :=
  forall i c, i < size equips -> country i ≠ Some c ->
    (sum_over (in_country c) (fun j => (x (i, j) + x (j, i))%Z) <= 2)%Z.

(** 5. One away and one home leg against every pot, the team's own
    included, the team itself left out. *)
Definition pot_balance : Prop :=
  forall i p, i < size equips -> (1 <= p <= 4)%Z ->
    sum_over (in_pot_but p i) (fun j => x (i, j)) = 1%Z /\
    sum_over (in_pot_but p i) (fun j => x (j, i)) = 1%Z.

Definition valid_assignment : Prop :=
  degree /\ pairing /\ nationality_exclusion /\ nationality_cap /\
  pot_balance.
End Invariants.

(** The number of pots the teams are spread over. *)
Definition number_of_pots (equips : gmap nat team) : nat :=
  size (list_to_set (C := gset Z) (map (fun kv => pot kv.2) (map_to_list equips))).

(** ** Part II. Theorems *)

(** *** Name normalisation *)

(** A word: what [split] returns, not empty and free of white space. *)
Definition word (w : str) : Prop :=
  w <> [] /\ Forall (fun c => isspace c = false) w.

(** A character that the three steps of [normalize_name] leave as it is. *)
Definition stable (T : unicode_tables) (c : N) : Prop :=
  fold_char T c = [c] /\ decompose T c = [c] /\ combining T c = 0%N.

Lemma split_cons_nonspace c s :
  isspace c = false ->
  exists w ws, split (c :: s) = (c :: w) :: ws.
Proof.
  intros Hc. simpl. rewrite Hc.
  destruct s as [|d s']; [by eexists [], []|].
  destruct (isspace d); [by eexists [], _|].
  destruct (split (d :: s')) as [|w ws]; by eexists _, _.
Qed.

Lemma split_words s : Forall word (split s).
Proof.
  induction s as [|c s IH]; [constructor|].
  cbn [split]. destruct (isspace c) eqn:Hc; [exact IH|].
  destruct s as [|d s'].
  { repeat constructor; [discriminate|done]. }
  destruct (isspace d) eqn:Hd.
  { constructor; [|exact IH]. split; [discriminate|by repeat constructor]. }
  destruct (split (d :: s')) as [|w ws] eqn:Hs.
  { repeat constructor; [discriminate|done]. }
  inversion IH as [|? ? [Hne Hw] Hws]; subst.
  constructor; [|done]. split; [discriminate|by constructor].
Qed.

Lemma split_word_app w ws :
  word w -> split (w ++ SPACE :: join SPACE ws) = w :: split (join SPACE ws).
Proof.
  intros [Hne Hw]. induction w as [|c w IH]; [done|].
  inversion Hw as [|? ? Hc Hw']; subst.
  destruct w as [|d w'].
  { simpl. rewrite Hc. reflexivity. }
  inversion Hw' as [|? ? Hd _]; subst.
  specialize (IH ltac:(discriminate) Hw').
  change (split (c :: d :: (w' ++ SPACE :: join SPACE ws))
          = (c :: d :: w') :: split (join SPACE ws)).
  change (split (d :: (w' ++ SPACE :: join SPACE ws))
          = (d :: w') :: split (join SPACE ws)) in IH.
  remember (d :: w' ++ SPACE :: join SPACE ws) as t eqn:Ht.
  cbn [split]. rewrite Hc. rewrite Ht at 1. rewrite Hd, IH. reflexivity.
Qed.

Lemma split_word w : word w -> split w = [w].
Proof.
  intros [Hne Hw]. induction w as [|c w IH]; [done|].
  inversion Hw as [|? ? Hc Hw']; subst.
  destruct w as [|d w']; [simpl; by rewrite Hc|].
  inversion Hw' as [|? ? Hd _]; subst.
  specialize (IH ltac:(discriminate) Hw').
  remember (d :: w') as t eqn:Ht.
  cbn [split]. rewrite Hc. rewrite Ht at 1. rewrite Hd, IH. reflexivity.
Qed.

Lemma split_join ws : Forall word ws -> split (join SPACE ws) = ws.
Proof.
  induction 1 as [|w ws Hw Hws IH]; [done|].
  destruct ws as [|w' ws'].
  { simpl. by apply split_word. }
  change (join SPACE (w :: w' :: ws'))
    with (w ++ SPACE :: join SPACE (w' :: ws')).
  rewrite split_word_app by done. by rewrite IH.
Qed.

Lemma lstrip_nonspace c s : isspace c = false -> lstrip (c :: s) = c :: s.
Proof. intros Hc. simpl. by rewrite Hc. Qed.

Lemma join_words_head ws :
  Forall word ws -> ws <> [] ->
  exists c s, join SPACE ws = c :: s /\ isspace c = false.
Proof.
  intros Hws Hne. destruct ws as [|w ws]; [done|].
  inversion Hws as [|? ? [Hw Hc] _]; subst.
  destruct w as [|c w]; [done|]. inversion Hc; subst.
  destruct ws; simpl; eauto.
Qed.

Lemma join_words_last ws :
  Forall word ws -> ws <> [] ->
  exists c s, rev (join SPACE ws) = c :: s /\ isspace c = false.
Proof.
  induction 1 as [|w ws Hw Hws IH]; [done|]. intros _.
  destruct ws as [|w' ws'].
  - simpl. destruct Hw as [Hne Hc].
    destruct (rev w) as [|c s] eqn:Hr.
    { apply (f_equal (@rev N)) in Hr. rewrite rev_involutive in Hr. done. }
    exists c, s. split; [done|].
    assert (Hin : In c (rev w)) by (rewrite Hr; by left).
    apply in_rev in Hin. rewrite Forall_forall in Hc.
    apply Hc. by apply list_elem_of_In.
  - destruct IH as (c & s & Hr & Hc); [done|].
    change (join SPACE (w :: w' :: ws'))
      with (w ++ SPACE :: join SPACE (w' :: ws')).
    rewrite rev_app_distr. cbn [rev]. rewrite Hr.
    exists c. eexists. split; [|done]. simpl. reflexivity.
Qed.

Lemma strip_join ws : Forall word ws -> strip (join SPACE ws) = join SPACE ws.
Proof.
  intros Hws. unfold strip. destruct ws as [|w ws]; [done|].
  destruct (join_words_head (w :: ws)) as (c & s & Hj & Hc); [done..|].
  destruct (join_words_last (w :: ws)) as (c' & s' & Hr & Hc'); [done..|].
  rewrite Hj, (lstrip_nonspace _ _ Hc), <- Hj, Hr.
  rewrite (lstrip_nonspace _ _ Hc'), <- Hr. apply rev_involutive.
Qed.

Lemma flat_map_singleton (f : N -> str) s :
  Forall (fun c => f c = [c]) s -> flat_map f s = s.
Proof.
  induction 1 as [|c s Hc _ IH]; [done|]. simpl. by rewrite Hc, IH.
Qed.

Lemma canonical_order_starters T s :
  Forall (fun c => combining T c = 0%N) s -> canonical_order T s = s.
Proof.
  induction 1 as [|c s Hc Hs IH]; [done|].
  unfold canonical_order in *. simpl. rewrite IH.
  destruct Hs as [|d s' Hd _]; [done|]. simpl. by rewrite Hd.
Qed.

Lemma filter_starters T s :
  Forall (fun c => combining T c = 0%N) s ->
  List.filter (not_combining T) s = s.
Proof.
  induction 1 as [|c s Hc _ IH]; [done|].
  simpl. unfold not_combining at 1. by rewrite Hc, IH.
Qed.

(** The canonical ordering only moves combining marks, which
    [normalize_name] then removes. *)
Lemma filter_place T c l :
  List.filter (not_combining T) (place T c l)
  = List.filter (not_combining T) (c :: l).
Proof.
  induction l as [|d l IH]; [done|].
  cbn [place].
  destruct ((0 <? combining T d)%N && (combining T d <? combining T c)%N)
    eqn:Hmove; [|done].
  apply andb_true_iff in Hmove as [Hd Hdc].
  apply N.ltb_lt in Hd, Hdc.
  assert (Hnd : not_combining T d = false).
  { unfold not_combining. apply N.eqb_neq. lia. }
  assert (Hnc : not_combining T c = false).
  { unfold not_combining. apply N.eqb_neq. lia. }
  cbn [List.filter] in *. rewrite Hnd, Hnc in *. exact IH.
Qed.

Lemma filter_canonical_order T s :
  List.filter (not_combining T) (canonical_order T s)
  = List.filter (not_combining T) s.
Proof.
  induction s as [|c s IH]; [done|].
  unfold canonical_order in *. cbn [fold_right].
  rewrite filter_place. cbn [List.filter]. by rewrite IH.
Qed.

Lemma lstrip_spaces s : forallb isspace s = true -> lstrip s = [].
Proof.
  induction s as [|c s IH]; [done|]. simpl.
  intros [Hc Hs]%andb_true_iff. rewrite Hc. by apply IH.
Qed.

(** A normal form whose characters are stable is a fixed point. *)
Lemma normalize_name_fixed T ws :
  Forall word ws -> Forall (stable T) (join SPACE ws) ->
  normalize_name T (CStr (join SPACE ws)) = Some (join SPACE ws).
Proof.
  intros Hws Hst. unfold normalize_name.
  rewrite strip_join by done.
  assert (Hfold : casefold T (join SPACE ws) = join SPACE ws).
  { apply flat_map_singleton. eapply Forall_impl; [exact Hst|]. by intros c [? _]. }
  assert (Hdec : flat_map (decompose T) (join SPACE ws) = join SPACE ws).
  { apply flat_map_singleton. eapply Forall_impl; [exact Hst|]. by intros c (_ & ? & _). }
  assert (Hcc : Forall (fun c => combining T c = 0%N) (join SPACE ws)).
  { eapply Forall_impl; [exact Hst|]. by intros c (_ & _ & ?). }
  rewrite Hfold. unfold NFKD. rewrite Hdec.
  rewrite canonical_order_starters, filter_starters by done.
  by rewrite split_join.
Qed.

(** C7, as amended. [normalize_name] applied to its own result returns that
    result whenever the characters of the result are stable: left as they
    are by [str.casefold], by the compatibility decomposition and by the
    removal of combining marks. (Without the condition it fails: NFKD runs
    after the case folding and can bring in capital letters.) *)
Theorem normalize_name_idempotent_on_stable T (s : cell) :
  (forall t, normalize_name T s = Some t -> Forall (stable T) t) ->
  normalize_name T (as_cell (normalize_name T s)) = normalize_name T s.
Proof.
  intros Hst. destruct s as [| |s]; [done..|].
  specialize (Hst _ eq_refl). cbn [normalize_name as_cell] in *.
  apply normalize_name_fixed; [apply split_words|exact Hst].
Qed.

(** " FC  Barça " with a trailing no-break space: the result "fc barca" is
    made of stable characters, and normalising it again changes nothing. *)
Lemma normalize_name_idempotent_on_stable_witness :
  normalize_name ucd (CStr [32; 70; 67; 32; 32; 66; 97; 114; 231; 97; 160]%N)
  = Some (cps "fc barca") /\
  normalize_name ucd
    (as_cell (normalize_name ucd
                (CStr [32; 70; 67; 32; 32; 66; 97; 114; 231; 97; 160]%N)))
  = normalize_name ucd (CStr [32; 70; 67; 32; 32; 66; 97; 114; 231; 97; 160]%N).
Proof.
  split; [vm_compute; reflexivity|].
  apply (normalize_name_idempotent_on_stable ucd).
  intros t Ht. vm_compute in Ht. inversion Ht; subst.
  repeat constructor.
Defined.

(** C7, the counterexample. The trade mark sign U+2122 is not changed by
    [casefold]; NFKD then decomposes it into "TM", which is the result; and
    "TM" normalises to "tm". *)
Lemma normalize_name_not_idempotent :
  normalize_name ucd (CStr [8482%N]) = Some (cps "TM") /\
  normalize_name ucd (as_cell (normalize_name ucd (CStr [8482%N])))
  = Some (cps "tm") /\
  cps "tm" <> cps "TM".
Proof. repeat split; vm_compute; [reflexivity..|discriminate]. Qed.

(** C8, as amended. [normalize_name] returns [None] exactly for the missing
    values [None] and [NaN]; every string, the empty one included, yields a
    string, and a string of white space yields the empty string. *)
Theorem normalize_name_absent T :
  (forall v, normalize_name T v = None <-> isna v = true) /\
  (forall s, forallb isspace s = true ->
             normalize_name T (CStr s) = Some []).
Proof.
  split.
  - intros [| |s]; simpl; split; (done || discriminate).
  - intros s Hs. unfold normalize_name, strip.
    rewrite (lstrip_spaces s Hs). reflexivity.
Qed.

(** C8, the counterexample: the empty string is mapped to the empty string,
    and not to [None]. *)
Lemma normalize_name_empty_string :
  normalize_name ucd (CStr []) = Some [].
Proof. reflexivity. Qed.

(** *** The travel analytics *)

(** A record is unmatched when a name is missing or is not a key of the
    stadium dictionary. *)
Definition unmatched (dict : gmap (option str) (R * R))
    (row : option str * option str) : Prop :=
  row.1 = None \/ row.2 = None \/ dict !! row.1 = None \/ dict !! row.2 = None.

Lemma match_distance_nan dict row :
  match_distance dict row = None <-> unmatched dict row.
Proof.
  destruct row as [h a]. unfold match_distance, unmatched. simpl.
  destruct h as [h|], a as [a|]; try tauto.
  destruct (dict !! Some h), (dict !! Some a); try tauto.
  split; [discriminate|]. intros [?|[?|[?|?]]]; discriminate.
Qed.

Lemma str_ltb_irrefl a : str_ltb a a = false.
Proof.
  induction a as [|x a IH]; [done|]. simpl.
  rewrite N.ltb_irrefl, N.eqb_refl, IH. reflexivity.
Qed.

Lemma str_ltb_trans a b c :
  str_ltb a b = true -> str_ltb b c = true -> str_ltb a c = true.
Proof.
  revert b c. induction a as [|x a IH]; intros [|y b] [|z c]; simpl; try done.
  rewrite !orb_true_iff, !andb_true_iff, !N.ltb_lt, !N.eqb_eq.
  intros [Hxy|[-> Hab]] [Hyz|[-> Hbc]]; eauto with lia.
Qed.

Lemma str_ltb_total a b :
  str_ltb a b = false -> str_ltb b a = false -> a = b.
Proof.
  revert b. induction a as [|x a IH]; intros [|y b]; simpl; try done.
  rewrite !orb_false_iff, !andb_false_iff, !N.ltb_ge, !N.eqb_neq.
  intros [Hxy Hab] [Hyx Hba].
  assert (x = y) by lia. subst y.
  f_equal. apply IH; [destruct Hab|destruct Hba]; done.
Qed.

Abbreviation sorted_keys := (StronglySorted (fun a b => str_ltb a b = true)).

Lemma insert_key_In k k' ks : In k' (insert_key k ks) <-> k' = k \/ In k' ks.
Proof.
  induction ks as [|k0 ks IH]; simpl; [intuition congruence|].
  case_bool_decide as Hk; [subst; simpl; intuition congruence|].
  destruct (str_ltb k k0); simpl; [intuition congruence|].
  rewrite IH. intuition congruence.
Qed.

Lemma insert_key_sorted k ks : sorted_keys ks -> sorted_keys (insert_key k ks).
Proof.
  induction 1 as [|k0 ks Hs IH Hk0]; simpl; [by repeat constructor|].
  case_bool_decide as Hk; [by constructor|].
  destruct (str_ltb k k0) eqn:Hlt.
  - constructor; [by constructor|]. constructor; [done|].
    eapply Forall_impl; [exact Hk0|]. intros k1. by apply str_ltb_trans.
  - constructor; [done|]. apply List.Forall_forall. intros k1 Hin.
    apply insert_key_In in Hin as [->|Hin].
    + destruct (str_ltb k0 k) eqn:Hgt; [done|].
      destruct Hk. by apply str_ltb_total.
    + rewrite List.Forall_forall in Hk0. by apply Hk0.
Qed.

Lemma group_keys_sorted col : sorted_keys (group_keys col).
Proof.
  induction col as [|[k|] col IH]; simpl; [constructor| |done].
  by apply insert_key_sorted.
Qed.

Lemma group_keys_In k col : In k (group_keys col) <-> In (Some k) col.
Proof.
  induction col as [|[k0|] col IH]; simpl; [tauto| |].
  - rewrite insert_key_In, IH. split; intros [?|?]; auto; left; congruence.
  - rewrite IH. split; [auto|]. by intros [?|?].
Qed.

(** Two sorted lists of keys with the same elements are equal. *)
Lemma sorted_keys_ext l1 l2 :
  sorted_keys l1 -> sorted_keys l2 ->
  (forall k, In k l1 <-> In k l2) -> l1 = l2.
Proof.
  intros H1. revert l2. induction H1 as [|a l1 Hs1 IH Ha]; intros l2 H2 Hext.
  { destruct l2 as [|b l2]; [done|]. destruct (proj2 (Hext b)). by left. }
  destruct H2 as [|b l2 Hs2 Hb].
  { destruct (proj1 (Hext a)). by left. }
  rewrite List.Forall_forall in Ha, Hb.
  assert (a = b) as <-.
  { destruct (proj1 (Hext a)) as [<-|Hin]; [by left|done|].
    destruct (proj2 (Hext b)) as [->|Hin']; [by left|done|].
    pose proof (str_ltb_trans _ _ _ (Ha _ Hin') (Hb _ Hin)) as Hcyc.
    by rewrite str_ltb_irrefl in Hcyc. }
  f_equal. apply IH; [done|]. intros k. split; intros Hin.
  - destruct (proj1 (Hext k)) as [<-|?]; [by right| |done].
    specialize (Ha _ Hin). by rewrite str_ltb_irrefl in Ha.
  - destruct (proj2 (Hext k)) as [<-|?]; [by right| |done].
    specialize (Hb _ Hin). by rewrite str_ltb_irrefl in Hb.
Qed.

Lemma group_keys_insert c1 o c2 :
  o = None \/ In o (c1 ++ c2) ->
  group_keys (c1 ++ o :: c2) = group_keys (c1 ++ c2).
Proof.
  intros Ho. apply sorted_keys_ext; [apply group_keys_sorted..|].
  intros k. rewrite !group_keys_In, !in_app_iff. simpl.
  rewrite in_app_iff in Ho. split; [|tauto].
  intros [?|[->|?]]; [tauto| |tauto]. destruct Ho as [?|?]; [done|tauto].
Qed.

Lemma nansum_from acc col :
  fold_left (fun acc o => match o with
                          | Some d => (acc + d)%R
                          | None => acc
                          end) col acc
  = (acc + nansum col)%R.
Proof.
  unfold nansum. revert acc. induction col as [|[d|] col IH]; intros acc; simpl.
  - lra.
  - rewrite IH, (IH (0 + d)%R). lra.
  - apply IH.
Qed.

Lemma nansum_app c1 c2 : nansum (c1 ++ c2) = (nansum c1 + nansum c2)%R.
Proof. unfold nansum at 1. rewrite fold_left_app. apply nansum_from. Qed.

Lemma nansum_insert_nan c1 c2 : nansum (c1 ++ None :: c2) = nansum (c1 ++ c2).
Proof. rewrite !nansum_app. reflexivity. Qed.

Lemma count_insert_nan c1 c2 : count (c1 ++ None :: c2) = count (c1 ++ c2).
Proof. unfold count. by rewrite !List.filter_app. Qed.

(** The column of a group, with an unmatched record put among the rows:
    the same column, or that column with one more [NaN]. *)
Lemma group_column_insert dict r1 r r2 k :
  match_distance dict r = None ->
  exists c1 c2,
    group_column dict (r1 ++ r2) k = c1 ++ c2 /\
    (group_column dict (r1 ++ r :: r2) k = c1 ++ c2 \/
     group_column dict (r1 ++ r :: r2) k = c1 ++ None :: c2).
Proof.
  intros Hr. unfold group_column.
  exists (map (match_distance dict)
            (List.filter (fun row => bool_decide (row.2 = Some k)) r1)),
         (map (match_distance dict)
            (List.filter (fun row => bool_decide (row.2 = Some k)) r2)).
  rewrite !List.filter_app, !map_app. split; [done|].
  cbn [List.filter]. case_bool_decide; [right|left]; [|done].
  cbn [map]. by rewrite Hr.
Qed.

Lemma group_column_insert_eq dict r1 r r2 k :
  match_distance dict r = None ->
  nansum (group_column dict (r1 ++ r :: r2) k)
  = nansum (group_column dict (r1 ++ r2) k) /\
  count (group_column dict (r1 ++ r :: r2) k)
  = count (group_column dict (r1 ++ r2) k).
Proof.
  intros Hr.
  destruct (group_column_insert dict r1 r r2 k Hr) as (c1 & c2 & -> & [->| ->]);
    [done|].
  by rewrite nansum_insert_nan, count_insert_nan.
Qed.

Lemma agg_insert dict r1 r r2 :
  match_distance dict r = None ->
  r.2 = None \/ In r.2 (map snd (r1 ++ r2)) ->
  agg dict (r1 ++ r :: r2) = agg dict (r1 ++ r2).
Proof.
  intros Hr Hk. unfold agg.
  rewrite !map_app in *. cbn [map]. rewrite group_keys_insert by done.
  apply map_ext. intros k.
  by destruct (group_column_insert_eq dict r1 r r2 k Hr) as [-> ->].
Qed.

Lemma analytics_insert T stadiums m1 m m2 :
  unmatched (stadiums_dict T stadiums) (norm_row T m) ->
  normalize_name T (away m) = None \/
  In (normalize_name T (away m))
     (map (fun m' => normalize_name T (away m')) (m1 ++ m2)) ->
  analytics T stadiums (m1 ++ m :: m2) = analytics T stadiums (m1 ++ m2).
Proof.
  intros Hm%match_distance_nan Hk. unfold analytics.
  rewrite !map_app. cbn [map]. rewrite agg_insert; [by rewrite <- map_app|done|].
  rewrite <- map_app, map_map. exact Hk.
Qed.

Lemma excluded_insert T stadiums m1 m m2 :
  unmatched (stadiums_dict T stadiums) (norm_row T m) ->
  excluded T stadiums (m1 ++ m :: m2) = S (excluded T stadiums (m1 ++ m2)).
Proof.
  intros Hm%match_distance_nan. unfold excluded.
  rewrite !map_app, !List.filter_app. cbn [map List.filter]. rewrite Hm.
  rewrite !length_app. simpl. lia.
Qed.

(** C9, as amended. A record whose home or away name is missing or is not a
    key of the stadium dictionary is left out of every team's total and
    count. Its being left out is not reported: when the away team has a
    line already (or the away name is missing) the printed report is the
    same with the record as without it, although one more record was
    excluded. *)
Theorem unmatched_record_excluded_silently T stadiums m1 m m2 :
  unmatched (stadiums_dict T stadiums) (norm_row T m) ->
  (forall k,
     nansum (group_column (stadiums_dict T stadiums)
               (map (norm_row T) (m1 ++ m :: m2)) k)
     = nansum (group_column (stadiums_dict T stadiums)
                 (map (norm_row T) (m1 ++ m2)) k) /\
     count (group_column (stadiums_dict T stadiums)
              (map (norm_row T) (m1 ++ m :: m2)) k)
     = count (group_column (stadiums_dict T stadiums)
                (map (norm_row T) (m1 ++ m2)) k)) /\
  excluded T stadiums (m1 ++ m :: m2) = S (excluded T stadiums (m1 ++ m2)) /\
  (normalize_name T (away m) = None \/
   In (normalize_name T (away m))
      (map (fun m' => normalize_name T (away m')) (m1 ++ m2)) ->
   analytics T stadiums (m1 ++ m :: m2) = analytics T stadiums (m1 ++ m2)).
Proof.
  intros Hm. split; [|split].
  - intros k. rewrite !map_app. cbn [map].
    apply group_column_insert_eq. by apply match_distance_nan.
  - by apply excluded_insert.
  - by apply analytics_insert.
Qed.

(** One stadium, and a calendar of one match whose home team has none. *)
Definition ex_stadiums : list stadium_row :=
  [ {| st_team := CStr (cps "Arsenal");
       st_lat := 51554888; st_lon := -108438 |} ].

Definition ex_match : match_row :=
  {| home := CStr (cps "Ghost FC"); away := CStr (cps "ARSENAL ") |}.

Lemma ex_match_unmatched :
  unmatched (stadiums_dict ucd ex_stadiums) (norm_row ucd ex_match).
Proof. right. right. left. reflexivity. Qed.

Lemma unmatched_record_excluded_silently_witness :
  excluded ucd ex_stadiums ([ex_match] ++ ex_match :: [])
  = S (excluded ucd ex_stadiums ([ex_match] ++ [])) /\
  analytics ucd ex_stadiums ([ex_match] ++ ex_match :: [])
  = analytics ucd ex_stadiums ([ex_match] ++ []).
Proof.
  destruct (unmatched_record_excluded_silently ucd ex_stadiums
              [ex_match] ex_match [] ex_match_unmatched) as (_ & He & Ha).
  split; [exact He|]. apply Ha. right. left. reflexivity.
Defined.

(** C9, the counterexample. The same match once and twice in the calendar:
    one record is excluded, then two, and the two reports are equal, so
    the report does not tell how many records were excluded. *)
Lemma excluded_records_not_counted :
  excluded ucd ex_stadiums [ex_match] = 1 /\
  excluded ucd ex_stadiums [ex_match; ex_match] = 2 /\
  analytics ucd ex_stadiums [ex_match; ex_match]
  = analytics ucd ex_stadiums [ex_match].
Proof.
  split; [|split].
  - exact (excluded_insert ucd ex_stadiums [] ex_match [] ex_match_unmatched).
  - etrans; [exact (excluded_insert ucd ex_stadiums [ex_match] ex_match []
                      ex_match_unmatched)|].
    reflexivity.
  - apply (analytics_insert ucd ex_stadiums [ex_match] ex_match []
             ex_match_unmatched).
    right. left. reflexivity.
Qed.

(** *** Geodesy *)

Local Open Scope R_scope.

Lemma sin_half_sqr x : sin (x / 2) ^ 2 = (1 - cos x) / 2.
Proof.
  replace x with (2 * (x / 2)) at 2 by field.
  rewrite cos_2a_sin. field.
Qed.

(** The expression under the square roots lies in [0, 1], for all
    coordinates: [math.sqrt] and [math.asin] never leave their domain. *)
Lemma haversine_a_bounds x1 x2 y1 y2 t :
  x1 * x1 + x2 * x2 = 1 -> y1 * y1 + y2 * y2 = 1 -> -1 <= t <= 1 ->
  0 <= (1 - (y2 * x2 + y1 * x1)) / 2 + x2 * y2 * ((1 - t) / 2) <= 1.
Proof.
  intros H1 H2 [Hl Hu].
  assert (Ht : t * t <= 1) by nra.
  assert (Hy2 : 0 <= y2 * y2) by nra.
  assert (Hy : y1 * y1 + t * t * (y2 * y2) <= 1) by nra.
  pose proof (Rle_0_sqr (x1 - y1)) as Ha.
  pose proof (Rle_0_sqr (x2 - t * y2)) as Hb.
  pose proof (Rle_0_sqr (x1 + y1)) as Hc.
  pose proof (Rle_0_sqr (x2 + t * y2)) as Hd.
  unfold Rsqr in *. split; nra.
Qed.

Lemma haversine_a_range rlat1 rlon1 rlat2 rlon2 :
  0 <= haversine_a rlat1 rlon1 rlat2 rlon2 <= 1.
Proof.
  unfold haversine_a. rewrite !sin_half_sqr, cos_minus.
  apply haversine_a_bounds; [apply sin2_cos2..|apply COS_bound].
Qed.

(** On [0, 1] the two ways of taking the angle agree. *)
Lemma asin_sqrt_atan2 a :
  0 <= a <= 1 -> asin (sqrt a) = atan2 (sqrt a) (sqrt (1 - a)).
Proof.
  intros [H0 H1]. unfold atan2.
  destruct (Req_dec a 1) as [->|Hne].
  - replace (1 - 1) with 0 by ring. rewrite sqrt_0, sqrt_1, asin_1.
    destruct (Rlt_dec 0 0) as [?|_]; [lra|].
    destruct (Rlt_dec 0 1) as [_|?]; [reflexivity|lra].
  - assert (Hlt : 0 < sqrt (1 - a)) by (apply sqrt_lt_R0; lra).
    destruct (Rlt_dec 0 (sqrt (1 - a))) as [_|?]; [|lra].
    assert (Hs : 0 <= sqrt a < 1).
    { split; [apply sqrt_pos|]. rewrite <- sqrt_1. apply sqrt_lt_1_alt. lra. }
    rewrite asin_atan by lra. by rewrite Rsqr_sqrt.
Qed.

Lemma haversine_a_sym rlat1 rlon1 rlat2 rlon2 :
  haversine_a rlat1 rlon1 rlat2 rlon2 = haversine_a rlat2 rlon2 rlat1 rlon1.
Proof.
  unfold haversine_a. rewrite !sin_half_sqr.
  rewrite <- (cos_neg (rlat1 - rlat2)), <- (cos_neg (rlon1 - rlon2)).
  replace (- (rlat1 - rlat2)) with (rlat2 - rlat1) by ring.
  replace (- (rlon1 - rlon2)) with (rlon2 - rlon1) by ring.
  ring.
Qed.

Lemma calcular_distancia_haversine_a lat1 lon1 lat2 lon2 :
  calcular_distancia_haversine lat1 lon1 lat2 lon2
  = 6371.0 * (2 * atan2
      (sqrt (haversine_a (radians lat1) (radians lon1)
                         (radians lat2) (radians lon2)))
      (sqrt (1 - haversine_a (radians lat1) (radians lon1)
                             (radians lat2) (radians lon2)))).
Proof. reflexivity. Qed.

Lemma calcular_distancia_haversine_sym lat1 lon1 lat2 lon2 :
  calcular_distancia_haversine lat1 lon1 lat2 lon2
  = calcular_distancia_haversine lat2 lon2 lat1 lon1.
Proof.
  rewrite !calcular_distancia_haversine_a.
  by rewrite (haversine_a_sym (radians lat1)).
Qed.

(** C6. In exact real arithmetic the two distance functions are the same
    haversine formula up to the radius of the Earth: for all coordinates,
    [haversine_km] is [6371.0088 / 6371.0] times
    [calcular_distancia_haversine]. *)
Theorem haversine_km_calcular_distancia_haversine lat1 lon1 lat2 lon2 :
  haversine_km lat1 lon1 lat2 lon2
  = 6371.0088 / 6371.0 * calcular_distancia_haversine lat1 lon1 lat2 lon2.
Proof.
  rewrite calcular_distancia_haversine_a.
  rewrite <- asin_sqrt_atan2 by apply haversine_a_range.
  unfold haversine_km, haversine_a. field. lra.
Qed.

Local Close Scope R_scope.

(** *** Loops *)

Lemma for_each_app {A S} (l1 l2 : list A) (body : A -> S -> result S) s :
  for_each (l1 ++ l2) body s = s' ← for_each l1 body s; for_each l2 body s'.
Proof.
  revert s. induction l1 as [|a l1 IH]; intros s; simpl; [done|].
  destruct (body a s) as [s1|e]; simpl; [apply IH|done].
Qed.

Lemma for_each_fmap {A B S} (g : A -> B) (l : list A)
    (body : B -> S -> result S) s :
  for_each (g <$> l) body s = for_each l (fun a => body (g a)) s.
Proof.
  revert s. induction l as [|a l IH]; intros s; simpl; [done|].
  destruct (body (g a) s) as [s1|e]; simpl; [apply IH|done].
Qed.

(** Two nested loops run through the pairs in row-major order. *)
Lemma for_each_nested {A B S} (l1 : list A) (l2 : list B)
    (body : A -> B -> S -> result S) s :
  for_each l1 (fun a s => for_each l2 (body a) s) s
  = for_each (a ← l1; b ← l2; [(a, b)]) (fun c s => body c.1 c.2 s) s.
Proof.
  revert s. induction l1 as [|a l1 IH]; intros s; [done|].
  rewrite bind_cons, for_each_app. cbn [for_each].
  assert (Hin : for_each (l2 ≫= (fun b => [(a, b)]))
                  (fun c s => body c.1 c.2 s) s
                = for_each l2 (body a) s).
  { clear. revert s. induction l2 as [|b l2 IH]; intros s; [done|].
    rewrite bind_cons. simpl.
    destruct (body a b s) as [s1|e]; simpl; [apply IH|done]. }
  rewrite Hin. destruct (for_each l2 (body a) s) as [s1|e]; simpl; [apply IH|done].
Qed.

(** An invariant of the loop, indexed by the elements already visited. *)
Lemma for_each_Ok_inv {A S} (P : list A -> S -> Prop) (l : list A)
    (body : A -> S -> result S) s0 s :
  P [] s0 ->
  (forall l1 a s1 s2,
     a ∈ l -> P l1 s1 -> body a s1 = Ok s2 -> P (l1 ++ [a]) s2) ->
  for_each l body s0 = Ok s -> P l s.
Proof.
  intros H0. revert s.
  induction l as [|a l IH] using rev_ind; intros s Hstep; simpl.
  { by intros [= <-]. }
  rewrite for_each_app.
  destruct (for_each l body s0) as [s1|e] eqn:Hl; simpl; [|done].
  destruct (body a s1) as [s2|e] eqn:Hb; simpl; [|done].
  intros [= <-]. eapply Hstep; [| |done].
  - apply elem_of_app. right. by left.
  - apply IH; [|done]. intros l1 a' s1' s2' Hin. apply Hstep.
    apply elem_of_app. by left.
Qed.

(** An exception of the loop is an exception of one of its steps. *)
Lemma for_each_Raise_inv {A S} (l : list A) (body : A -> S -> result S) s e :
  for_each l body s = Raise e ->
  exists a s1, a ∈ l /\ body a s1 = Raise e.
Proof.
  revert s. induction l as [|a l IH]; intros s; simpl; [done|].
  destruct (body a s) as [s1|e1] eqn:Hb; simpl.
  - intros (a' & s' & Hin & Hr)%IH. exists a', s'. split; [by right|done].
  - intros [= ->]. exists a, s. split; [by left|done].
Qed.

(** A loop whose steps never raise is a fold. *)
Lemma for_each_pure {A S} (f : S -> A -> S) (l : list A)
    (body : A -> S -> result S) s :
  (forall a s1, a ∈ l -> body a s1 = Ok (f s1 a)) ->
  for_each l body s = Ok (fold_left f l s).
Proof.
  revert s. induction l as [|a l IH]; intros s Hb; simpl; [done|].
  rewrite Hb by left. simpl. apply IH. intros a' s1 Hin. apply Hb. by right.
Qed.

Lemma elem_of_cells N i j :
  (i, j) ∈ (a ← range N; b ← range N; [(a, b)]) <-> i < N /\ j < N.
Proof.
  unfold range. rewrite list_elem_of_bind. split.
  - intros (a & (b & Hb%list_elem_of_singleton & Hj%elem_of_seq)%list_elem_of_bind
              & Ha%elem_of_seq).
    injection Hb as -> ->. lia.
  - intros [Hi Hj]. exists i. split; [|apply elem_of_seq; lia].
    apply list_elem_of_bind. exists j. split; [by left|apply elem_of_seq; lia].
Qed.

(** *** Matrices *)

(** [m[i][j] = v]. *)
Definition set_entry {A} (i j : nat) (v : A) (m : list (list A))
  : list (list A) :=
  alter (fun row => <[j := v]> row) i m.

Definition square {A} (n : nat) (m : list (list A)) : Prop :=
  length m = n /\ Forall (fun row => length row = n) m.

Lemma square_replicate {A} n (v : A) : square n (replicate n (replicate n v)).
Proof.
  split; [apply length_replicate|].
  apply Forall_replicate, length_replicate.
Qed.

Lemma entry_replicate {A} n (v : A) i j :
  i < n -> j < n -> entry (replicate n (replicate n v)) i j = Some v.
Proof.
  intros Hi Hj. unfold entry.
  rewrite lookup_replicate_2 by done. simpl. by apply lookup_replicate_2.
Qed.

Lemma square_set_entry {A} n i j (v : A) m :
  square n m -> square n (set_entry i j v m).
Proof.
  intros [Hl Hr]. unfold set_entry. split; [by rewrite length_alter|].
  apply Forall_alter; [done|]. intros row _ Hrow. by rewrite length_insert.
Qed.

Lemma entry_set_entry {A} n i j (v : A) m i' j' :
  square n m -> i < n -> j < n ->
  entry (set_entry i j v m) i' j'
  = if decide (i = i' /\ j = j') then Some v else entry m i' j'.
Proof.
  intros [Hl Hr] Hi Hj. unfold entry, set_entry.
  destruct (decide (i = i')) as [<-|Hne].
  - rewrite list_lookup_alter_eq.
    destruct (m !! i) as [row|] eqn:Hrow; simpl.
    + assert (length row = n).
      { rewrite Forall_forall in Hr. apply Hr.
        apply list_elem_of_lookup. eauto. }
      destruct (decide (j = j')) as [<-|Hnj].
      * rewrite decide_True by done. apply list_lookup_insert_eq. lia.
      * rewrite decide_False by tauto. by apply list_lookup_insert_ne.
    + apply lookup_ge_None in Hrow. lia.
  - rewrite list_lookup_alter_ne by done. by rewrite decide_False by tauto.
Qed.

(** *** The distance matrix *)

(** The keys of the team dictionary are [0 .. N-1]. *)
Definition dense (equips : gmap nat team) : Prop :=
  forall i, i < size equips -> is_Some (equips !! i).

(** What [crear_matriu_distancies] has written after the cells [l]. *)
Definition distancies_after (equips : gmap nat team) (l : list var)
    (m : list (list R)) : Prop :=
  square (size equips) m /\
  forall i j, i < size equips -> j < size equips ->
    if decide ((i, j) ∈ l /\ i ≠ j) then
      exists ti tj,
        equips !! i = Some ti /\ equips !! j = Some tj /\
        entry m i j
        = Some (calcular_distancia_haversine (lat ti) (lon ti) (lat tj) (lon tj))
    else entry m i j = Some 0%R.

Lemma crear_matriu_distancies_after equips dist :
  crear_matriu_distancies equips = Ok dist ->
  distancies_after equips (LpVariable_dicts (size equips)) dist.
Proof.
  unfold crear_matriu_distancies. rewrite for_each_nested.
  apply (for_each_Ok_inv (distancies_after equips)).
  - split; [apply square_replicate|]. intros i j Hi Hj.
    rewrite decide_False by (intros [[]%elem_of_nil _]).
    by apply entry_replicate.
  - intros l1 [i0 j0] m1 m2 [Hi0 Hj0]%elem_of_cells [Hsq Hm1] Hbody.
    cbn [fst snd] in Hbody.
    destruct (decide (i0 ≠ j0)) as [Hne|Heq].
    + destruct (equips !! i0) as [ti|] eqn:Hti;
        [|by unfold getitem in Hbody; rewrite Hti in Hbody].
      destruct (equips !! j0) as [tj|] eqn:Htj;
        [|by unfold getitem in Hbody; rewrite Hti, Htj in Hbody].
      unfold getitem in Hbody. rewrite Hti, Htj in Hbody. simpl in Hbody.
      injection Hbody as <-.
      split; [by apply square_set_entry|]. intros i j Hi Hj.
      fold (set_entry i0 j0
              (calcular_distancia_haversine (lat ti) (lon ti) (lat tj) (lon tj))
              m1).
      rewrite (entry_set_entry (size equips)) by done.
      specialize (Hm1 i j Hi Hj).
      destruct (decide (i0 = i /\ j0 = j)) as [[<- <-]|Hother].
      * rewrite decide_True by (split; [apply elem_of_app; right; by left|done]).
        eauto.
      * destruct (decide ((i, j) ∈ l1 /\ i ≠ j)) as [[Hin Hij]|Hout].
        -- rewrite decide_True by (split; [apply elem_of_app; by left|done]).
           done.
        -- rewrite decide_False; [done|].
           intros [[Hin|Hin%list_elem_of_singleton]%elem_of_app Hij];
             [tauto|]. injection Hin as -> ->. tauto.
    + injection Hbody as <-. split; [done|]. intros i j Hi Hj.
      specialize (Hm1 i j Hi Hj).
      destruct (decide ((i, j) ∈ l1 /\ i ≠ j)) as [[Hin Hij]|Hout].
      * rewrite decide_True by (split; [apply elem_of_app; by left|done]).
        done.
      * rewrite decide_False; [done|].
        intros [[Hin|Hin%list_elem_of_singleton]%elem_of_app Hij]; [tauto|].
        injection Hin as -> ->. apply Heq. done.
Qed.

(** With dense keys the function returns a matrix. *)
Lemma crear_matriu_distancies_total equips :
  dense equips -> exists dist, crear_matriu_distancies equips = Ok dist.
Proof.
  intros Hd. destruct (crear_matriu_distancies equips) as [dist|e] eqn:Hc;
    [by eexists|].
  unfold crear_matriu_distancies in Hc. rewrite for_each_nested in Hc.
  apply for_each_Raise_inv in Hc as ([i j] & m & [Hi Hj]%elem_of_cells & Hb).
  cbn [fst snd] in Hb. unfold getitem in Hb.
  destruct (Hd i Hi) as [ti Hti], (Hd j Hj) as [tj Htj].
  rewrite Hti, Htj in Hb. by destruct (decide (i ≠ j)).
Qed.

(** C5. The matrix that [crear_matriu_distancies] returns has a zero
    diagonal and is symmetric, and it is symmetric because
    [calcular_distancia_haversine] is symmetric in its two points (exactly so
    over the reals, hence within any tolerance). *)
Theorem crear_matriu_distancies_symmetric equips dist i j :
  crear_matriu_distancies equips = Ok dist ->
  i < size equips -> j < size equips ->
  entry dist i i = Some 0%R /\
  (exists d, entry dist i j = Some d /\ entry dist j i = Some d) /\
  (forall latA lonA latB lonB,
     calcular_distancia_haversine latA lonA latB lonB
     = calcular_distancia_haversine latB lonB latA lonA).
Proof.
  intros [Hsq Hm]%crear_matriu_distancies_after Hi Hj.
  split; [|split; [|apply calcular_distancia_haversine_sym]].
  - specialize (Hm i i Hi Hi). by rewrite decide_False in Hm by tauto.
  - destruct (decide (i = j)) as [<-|Hne].
    + specialize (Hm i i Hi Hi). rewrite decide_False in Hm by tauto. eauto.
    + pose proof (Hm i j Hi Hj) as Hij. pose proof (Hm j i Hj Hi) as Hji.
      rewrite decide_True in Hij by (split; [by apply elem_of_cells|done]).
      rewrite decide_True in Hji by (split; [by apply elem_of_cells|done]).
      destruct Hij as (ti & tj & Hti & Htj & ->).
      destruct Hji as (tj' & ti' & Htj' & Hti' & ->).
      assert (ti' = ti) as -> by congruence.
      assert (tj' = tj) as -> by congruence.
      eexists. split; [done|]. by rewrite calcular_distancia_haversine_sym.
Qed.

(** Two teams. *)
Definition ex_equips2 : gmap nat team :=
  <[0 := {| nom := "Barcelona"; estadi := "Camp Nou";
            lat := 41.380896; lon := 2.122820;
            pais := "ESP"; pot := 1 |}]>
  (<[1 := {| nom := "Arsenal"; estadi := "Emirates Stadium";
             lat := 51.554888; lon := -0.108438;
             pais := "ENG"; pot := 2 |}]> ∅).

Lemma ex_equips2_size : size ex_equips2 = 2.
Proof. reflexivity. Qed.

Lemma ex_equips2_dense : dense ex_equips2.
Proof.
  intros i. rewrite ex_equips2_size. intros Hi.
  destruct i as [|[|i]]; [by eexists..|lia].
Qed.

Lemma crear_matriu_distancies_symmetric_witness :
  exists dist,
    crear_matriu_distancies ex_equips2 = Ok dist /\
    entry dist 0 0 = Some 0%R /\
    exists d, entry dist 0 1 = Some d /\ entry dist 1 0 = Some d.
Proof.
  destruct (crear_matriu_distancies_total ex_equips2 ex_equips2_dense)
    as [dist Hdist].
  exists dist. split; [exact Hdist|].
  destruct (crear_matriu_distancies_symmetric ex_equips2 dist 0 1 Hdist)
    as (H0 & Hd & _).
  - rewrite ex_equips2_size. lia.
  - rewrite ex_equips2_size. lia.
  - split; [exact H0|exact Hd].
Defined.

(** *** Reading the result *)

Lemma convertir_cell_Ok (x : gmap var (option R)) i j (m m' : list (list Z)) :
  (v ← getitem x (i, j); n ← py_int v;
   Ok (alter (fun row => <[j := n]> row) i m)) = Ok m' ->
  exists r n, x !! (i, j) = Some (Some r) /\ m' = set_entry i j n m.
Proof.
  unfold getitem. destruct (x !! (i, j)) as [[r|]|]; simpl; [|done..].
  intros [= <-]. eauto.
Qed.

Lemma convertir_cell_Raise (x : gmap var (option R)) i j (m : list (list Z)) e :
  (v ← getitem x (i, j); n ← py_int v;
   Ok (alter (fun row => <[j := n]> row) i m)) = Raise e ->
  (x !! (i, j) = None /\ e = KeyError) \/
  (x !! (i, j) = Some None /\ e = TypeError).
Proof.
  unfold getitem. destruct (x !! (i, j)) as [[r|]|]; simpl; [done|..];
    intros [= <-]; auto.
Qed.

Lemma convertir_Ok_values x N m :
  convertir_variables_a_matriu x N = Ok m ->
  square N m /\
  forall i j, i < N -> j < N -> exists r, x !! (i, j) = Some (Some r).
Proof.
  unfold convertir_variables_a_matriu. rewrite for_each_nested. intros Hc.
  apply (for_each_Ok_inv
           (fun l m => square N m /\
                       forall c, c ∈ l -> exists r, x !! c = Some (Some r)))
    in Hc.
  - destruct Hc as [Hsq Hall]. split; [done|]. intros i j Hi Hj.
    apply Hall. by apply elem_of_cells.
  - split; [apply square_replicate|]. by intros c Hnil%elem_of_nil.
  - intros l1 [i j] m1 m2 _ [Hsq Hall] Hb. cbn [fst snd] in Hb.
    apply convertir_cell_Ok in Hb as (r & n & Hr & ->).
    split; [by apply square_set_entry|].
    intros c' [Hin|Hin%list_elem_of_singleton]%elem_of_app; [by apply Hall|].
    subst c'. eauto.
Qed.

(** C10. [convertir_variables_a_matriu] returns a matrix exactly when every
    variable [x[(i, j)]] with [i, j < N] has a numeric value. When one of
    them has the value [None] it raises instead; the exception is the
    [TypeError] of [int(None)] when all the keys are there (a missing key
    met first raises [KeyError]). *)
Theorem convertir_variables_a_matriu_None x N :
  ((exists m, convertir_variables_a_matriu x N = Ok m) <->
   (forall i j, i < N -> j < N -> exists r, x !! (i, j) = Some (Some r))) /\
  (forall i j,
     i < N -> j < N -> x !! (i, j) = Some None ->
     exists e,
       convertir_variables_a_matriu x N = Raise e /\
       ((forall i' j', i' < N -> j' < N -> is_Some (x !! (i', j'))) ->
        e = TypeError)).
Proof.
  split; [split|].
  - intros [m Hm]. by apply convertir_Ok_values in Hm as [_ ?].
  - intros Hall.
    destruct (convertir_variables_a_matriu x N) as [m|e] eqn:Hc; [by eexists|].
    unfold convertir_variables_a_matriu in Hc. rewrite for_each_nested in Hc.
    apply for_each_Raise_inv in Hc as ([i j] & m & [Hi Hj]%elem_of_cells & Hb).
    destruct (Hall i j Hi Hj) as [r Hr]. cbn [fst snd] in Hb.
    apply convertir_cell_Raise in Hb as [[Hb _]|[Hb _]]; congruence.
  - intros i j Hi Hj Hnone.
    destruct (convertir_variables_a_matriu x N) as [m|e] eqn:Hc.
    { apply convertir_Ok_values in Hc as [_ Hall].
      destruct (Hall i j Hi Hj) as [r Hr]. congruence. }
    exists e. split; [done|]. intros Hkeys.
    unfold convertir_variables_a_matriu in Hc. rewrite for_each_nested in Hc.
    apply for_each_Raise_inv in Hc as ([i' j'] & m & [Hi' Hj']%elem_of_cells & Hb).
    cbn [fst snd] in Hb.
    apply convertir_cell_Raise in Hb as [[Hb _]|[_ ->]]; [|done].
    destruct (Hkeys i' j' Hi' Hj') as [v Hv]. congruence.
Qed.

(** One variable, left without a value by the solver. *)
Lemma convertir_variables_a_matriu_None_witness :
  convertir_variables_a_matriu {[ (0, 0) := None ]} 1 = Raise TypeError.
Proof.
  destruct (convertir_variables_a_matriu_None {[ (0, 0) := None ]} 1)
    as [_ Hnone].
  destruct (Hnone 0 0) as (e & -> & He); [lia|lia|reflexivity|].
  f_equal. apply He. intros [|i'] [|j'] Hi Hj; [by eexists|lia..].
Defined.

(** *** The model: the constraints that the loops add *)

(** The loop with an invariant, for both outcomes: on [Ok] the invariant
    holds of the whole list; on [Raise] it held where the step raised. *)
Lemma for_each_spec {A S} (P : list A -> S -> Prop) (l : list A)
    (body : A -> S -> result S) s0 :
  P [] s0 ->
  (forall l1 a s1 s2,
     a ∈ l -> P l1 s1 -> body a s1 = Ok s2 -> P (l1 ++ [a]) s2) ->
  match for_each l body s0 with
  | Ok s => P l s
  | Raise e => exists l1 a s1, a ∈ l /\ P l1 s1 /\ body a s1 = Raise e
  end.
Proof.
  intros H0.
  induction l as [|a l IH] using rev_ind; intros Hstep; simpl; [done|].
  rewrite for_each_app.
  assert (Hl : forall l1 a' s1 s2,
             a' ∈ l -> P l1 s1 -> body a' s1 = Ok s2 -> P (l1 ++ [a']) s2).
  { intros l1 a' s1 s2 Hin. apply Hstep, elem_of_app. by left. }
  specialize (IH Hl).
  destruct (for_each l body s0) as [s1|e]; simpl.
  - destruct (body a s1) as [s2|e] eqn:Hb; simpl.
    + eapply Hstep; [apply elem_of_app; right; by left|done..].
    + exists l, a, s1. split; [apply elem_of_app; right; by left|done].
  - destruct IH as (l1 & a' & s1 & Hin & HP & Hb).
    exists l1, a', s1. split; [apply elem_of_app; by left|done].
Qed.

(** A step [adds] the constraints [cs] to the model. *)
Definition adds (cs : list LpConstraint) (model model' : LpProblem) : Prop :=
  objective model' = objective model /\
  constraints model' = constraints model ++ cs.

Lemma adds_nil model : adds [] model model.
Proof. split; [done|]. by rewrite app_nil_r. Qed.

Lemma adds_add_constraint model c : adds [c] model (add_constraint model c).
Proof. done. Qed.

Lemma adds_trans cs1 cs2 m1 m2 m3 :
  adds cs1 m1 m2 -> adds cs2 m2 m3 -> adds (cs1 ++ cs2) m1 m3.
Proof.
  intros [Ho1 Hc1] [Ho2 Hc2]. split; [congruence|].
  by rewrite Hc2, Hc1, app_assoc.
Qed.

Lemma fold_left_adds {A} (f : LpProblem -> A -> LpProblem)
    (g : A -> list LpConstraint) (l : list A) model :
  (forall a m, a ∈ l -> adds (g a) m (f m a)) ->
  adds (l ≫= g) model (fold_left f l model).
Proof.
  revert model. induction l as [|a l IH]; intros model Hf; [apply adds_nil|].
  rewrite bind_cons. cbn [fold_left]. eapply adds_trans.
  - apply Hf. by left.
  - apply IH. intros a' m Hin. apply Hf. by right.
Qed.

Lemma for_each_adds {A} (body : A -> LpProblem -> result LpProblem)
    (g : A -> list LpConstraint) (l : list A) model :
  (forall a m, a ∈ l -> exists m', body a m = Ok m' /\ adds (g a) m m') ->
  exists model', for_each l body model = Ok model' /\ adds (l ≫= g) model model'.
Proof.
  revert model. induction l as [|a l IH]; intros model Hb.
  { exists model. split; [done|apply adds_nil]. }
  destruct (Hb a model) as (m1 & Hm1 & Ha1); [by left|].
  destruct (IH m1) as (m2 & Hm2 & Ha2).
  { intros a' m Hin. apply Hb. by right. }
  exists m2. split; [cbn [for_each]; by rewrite Hm1|].
  rewrite bind_cons. by eapply adds_trans.
Qed.

(** The five families, as lists. *)
Definition family_1 (N : nat) : list LpConstraint :=
  i ← range N;
  [lp_eq (map (fun j => (i, j)) (range N)) (TOTAL_PARTITS / 2);
   lp_eq (map (fun j => (j, i)) (range N)) (TOTAL_PARTITS / 2)].

Definition family_2 (N : nat) : list LpConstraint :=
  i ← range N; j ← range N;
  if decide (i ≠ j) then [lp_le [(i, j); (j, i)] 1] else [].

Definition family_3 (equips : gmap nat team) (N : nat) : list LpConstraint :=
  i ← range N; j ← range N;
  if decide (i ≠ j /\ country equips i = country equips j)
  then [lp_eq [(i, j)] 0] else [].

Definition rivals (i : nat) (l : list nat) : list nat :=
  List.filter (fun j => bool_decide (j ≠ i)) l.

Definition family_4 (equips : gmap nat team) (N : nat)
    (equips_per_pais : list (string * list nat)) : list LpConstraint :=
  i ← range N; g ← equips_per_pais;
  if decide (Some g.1 ≠ country equips i)
  then [lp_le (map (fun j => (i, j)) (rivals i g.2)
               ++ map (fun j => (j, i)) (rivals i g.2))
              MAX_RIVAL_MATEIX_PAIS]
  else [].

Definition family_5 (N : nat) (equips_per_pot : gmap Z (list nat))
  : list LpConstraint :=
  i ← range N; p ← [1; 2; 3; 4]%Z;
  [lp_eq (map (fun j => (i, j)) (rivals i (default [] (equips_per_pot !! p))))
         PARTITS_PER_POT;
   lp_eq (map (fun j => (j, i)) (rivals i (default [] (equips_per_pot !! p))))
         PARTITS_PER_POT].

Lemma restriccio_1_adds N model :
  adds (family_1 N) model (restriccio_1 N model).
Proof.
  apply fold_left_adds. intros i m _.
  eapply (adds_trans [_] [_]); apply adds_add_constraint.
Qed.

Lemma restriccio_2_adds N model :
  adds (family_2 N) model (restriccio_2 N model).
Proof.
  apply fold_left_adds. intros i m _.
  apply (fold_left_adds _
           (fun j => if decide (i ≠ j) then [lp_le [(i, j); (j, i)] 1] else [])).
  intros j m' _. destruct (decide (i ≠ j)); [apply adds_add_constraint|apply adds_nil].
Qed.

Lemma restriccio_3_adds equips N model :
  (forall i, i < N -> is_Some (equips !! i)) ->
  exists model',
    restriccio_3 equips N model = Ok model' /\
    adds (family_3 equips N) model model'.
Proof.
  intros Hd. apply for_each_adds. intros i m Hi%elem_of_seq.
  apply (for_each_adds _
           (fun j => if decide (i ≠ j /\ country equips i = country equips j)
                     then [lp_eq [(i, j)] 0] else [])).
  intros j m' Hj%elem_of_seq.
  destruct (Hd i) as [ti Hti]; [lia|]. destruct (Hd j) as [tj Htj]; [lia|].
  unfold getitem, country. rewrite Hti, Htj. simpl.
  destruct (decide (i ≠ j)) as [Hne|Heq].
  - destruct (decide (pais ti = pais tj)) as [Hp|Hp].
    + rewrite decide_True by (split; [done|congruence]).
      eexists. split; [done|apply adds_add_constraint].
    + rewrite decide_False by (intros [_ [=]]; done).
      eexists. split; [done|apply adds_nil].
  - rewrite decide_False by tauto. eexists. split; [done|apply adds_nil].
Qed.

Lemma restriccio_4_adds equips N equips_per_pais model :
  (forall i, i < N -> is_Some (equips !! i)) ->
  exists model',
    restriccio_4 equips N equips_per_pais model = Ok model' /\
    adds (family_4 equips N equips_per_pais) model model'.
Proof.
  intros Hd. apply for_each_adds. intros i m Hi%elem_of_seq.
  destruct (Hd i) as [ti Hti]; [lia|].
  unfold getitem, country. rewrite Hti. simpl.
  eexists. split; [done|].
  apply (fold_left_adds _
           (fun g => if decide (Some g.1 ≠ Some (pais ti))
                     then [lp_le (map (fun j => (i, j)) (rivals i g.2)
                                  ++ map (fun j => (j, i)) (rivals i g.2))
                                 MAX_RIVAL_MATEIX_PAIS]
                     else [])).
  intros [c l] m' _. cbn [fst snd].
  destruct (decide (c ≠ pais ti)) as [Hne|Heq].
  - rewrite decide_True by congruence. apply adds_add_constraint.
  - rewrite decide_False by (intros H; apply Heq; congruence). apply adds_nil.
Qed.

Lemma restriccio_5_adds N equips_per_pot model :
  (forall p, (1 <= p <= 4)%Z -> is_Some (equips_per_pot !! p)) ->
  exists model',
    restriccio_5 N equips_per_pot model = Ok model' /\
    adds (family_5 N equips_per_pot) model model'.
Proof.
  intros Hp. apply for_each_adds. intros i m _.
  apply (for_each_adds _
    (fun p =>
       [lp_eq (map (fun j => (i, j)) (rivals i (default [] (equips_per_pot !! p))))
              PARTITS_PER_POT;
        lp_eq (map (fun j => (j, i)) (rivals i (default [] (equips_per_pot !! p))))
              PARTITS_PER_POT])).
  intros p m' Hin.
  destruct (Hp p) as [l Hl].
  { repeat (apply elem_of_cons in Hin as [->|Hin]; [lia|]).
    by apply elem_of_nil in Hin. }
  unfold getitem. rewrite Hl. simpl. eexists. split; [done|].
  eapply (adds_trans [_] [_]); apply adds_add_constraint.
Qed.

(** *** The model: the groups of teams *)

Lemma filter_snoc {A} (f : A -> bool) l a :
  List.filter f (l ++ [a]) = List.filter f l ++ (if f a then [a] else []).
Proof. rewrite List.filter_app. simpl. by destruct (f a). Qed.

Lemma filter_none {A} (f : A -> bool) (l : list A) :
  (forall a, a ∈ l -> f a = false) -> List.filter f l = [].
Proof.
  induction l as [|a l IH]; intros Hf; [done|]. simpl.
  rewrite Hf by left. apply IH. intros a' Hin. apply Hf. by right.
Qed.

Lemma setdefault_append_keys d k i :
  (setdefault_append d k i).*1
  = if decide (k ∈ d.*1) then d.*1 else d.*1 ++ [k].
Proof.
  induction d as [|[k' l'] d IH].
  { destruct (decide (k ∈ ([] : list (string * list nat)).*1))
      as [[]%elem_of_nil|]; done. }
  cbn [setdefault_append].
  destruct (decide (k = k')) as [->|Hne].
  - rewrite decide_True; [done|]. by left.
  - rewrite !fmap_cons, IH. cbn [fst].
    destruct (decide (k ∈ d.*1)) as [Hin|Hout].
    + rewrite decide_True; [done|]. by right.
    + rewrite decide_False; [done|].
      intros [?|?]%elem_of_cons; [congruence|done].
Qed.

Lemma setdefault_append_elem d k i c l :
  NoDup d.*1 ->
  (c, l) ∈ setdefault_append d k i ->
  ((c ≠ k) /\ (c, l) ∈ d) \/
  (c = k /\ exists l0, (k, l0) ∈ d /\ l = l0 ++ [i]) \/
  (c = k /\ (k ∉ d.*1) /\ l = [i]).
Proof.
  induction d as [|[k' l'] d IH]; simpl; intros Hnd Hin.
  { apply list_elem_of_singleton in Hin as [= -> ->].
    right. right. split; [done|]. split; [|done]. by intros ?%elem_of_nil. }
  apply NoDup_cons in Hnd as [Hk' Hnd].
  destruct (decide (k = k')) as [->|Hne].
  - apply elem_of_cons in Hin as [[= -> ->]|Hin].
    + right. left. split; [done|]. exists l'. split; [by left|done].
    + left. split; [|by right]. intros ->. apply Hk'.
      apply list_elem_of_fmap. by exists (k', l).
  - apply elem_of_cons in Hin as [[= -> ->]|Hin].
    + left. split; [done|by left].
    + destruct (IH Hnd Hin) as [[Hck Hd]|[[-> (l0 & Hl0 & ->)]|(-> & Hout & ->)]].
      * left. split; [done|by right].
      * right. left. split; [done|]. exists l0. split; [by right|done].
      * right. right. split; [done|]. split; [|done].
        intros [?|?]%elem_of_cons; [congruence|done].
Qed.

(** The groups after the teams [l1]: every pot from 1 to 4 holds its teams,
    every country met so far holds its teams, in increasing order. *)
Definition agrupat (equips : gmap nat team) (l1 : list nat)
    (s : gmap Z (list nat) * list (string * list nat)) : Prop :=
  (forall i, i ∈ l1 -> exists t, equips !! i = Some t /\ (1 <= pot t <= 4)%Z) /\
  (forall p, s.1 !! p
             = if decide (1 <= p <= 4)%Z
               then Some (List.filter
                            (fun j => bool_decide (pot_of equips j = Some p)) l1)
               else None) /\
  NoDup (s.2).*1 /\
  (forall c l, (c, l) ∈ s.2 ->
     l = List.filter (fun j => bool_decide (country equips j = Some c)) l1) /\
  (forall j c, j ∈ l1 -> country equips j = Some c -> c ∈ (s.2).*1).

Lemma agrupat_nil equips :
  agrupat equips []
    (<[1%Z := []]> (<[2%Z := []]> (<[3%Z := []]> (<[4%Z := []]> ∅))), []).
Proof.
  split; [by intros i ?%elem_of_nil|]. split; [|split; [constructor|split]].
  - intros p. cbn [fst List.filter].
    destruct (decide (1 <= p <= 4)%Z) as [Hp|Hp].
    + assert (p = 1 \/ p = 2 \/ p = 3 \/ p = 4)%Z as [->|[->|[->| ->]]] by lia;
        reflexivity.
    + rewrite !lookup_insert_ne by lia. apply lookup_empty.
  - by intros c l ?%elem_of_nil.
  - by intros j c ?%elem_of_nil.
Qed.

Lemma agrupat_step equips l1 i pp pc ti l :
  agrupat equips l1 (pp, pc) ->
  equips !! i = Some ti -> pp !! pot ti = Some l ->
  agrupat equips (l1 ++ [i])
    (<[pot ti := l ++ [i]]> pp, setdefault_append pc (pais ti) i).
Proof.
  intros (Hteams & Hpots & Hnd & Hpais & Hkeys) Hti Hl. cbn [fst snd] in *.
  assert (Hpot : (1 <= pot ti <= 4)%Z).
  { specialize (Hpots (pot ti)). rewrite Hl in Hpots.
    by destruct (decide (1 <= pot ti <= 4)%Z). }
  assert (Hpi : pot_of equips i = Some (pot ti)) by (unfold pot_of; by rewrite Hti).
  assert (Hci : country equips i = Some (pais ti))
    by (unfold country; by rewrite Hti).
  unfold agrupat. cbn [fst snd].
  split; [|split; [|split; [|split]]].
  - intros j [Hj|Hj%list_elem_of_singleton]%elem_of_app;
      [by apply Hteams|subst j; eauto].
  - intros p. rewrite filter_snoc, Hpi.
    destruct (decide (p = pot ti)) as [->|Hne].
    + rewrite lookup_insert_eq, decide_True by done.
      rewrite bool_decide_eq_true_2 by done.
      specialize (Hpots (pot ti)). rewrite Hl, decide_True in Hpots by done.
      by injection Hpots as ->.
    + rewrite lookup_insert_ne by done.
      rewrite bool_decide_eq_false_2 by congruence.
      rewrite app_nil_r. apply Hpots.
  - rewrite setdefault_append_keys. destruct (decide (pais ti ∈ pc.*1)); [done|].
    apply NoDup_app. split; [done|]. split; [|apply NoDup_singleton].
    intros c Hc Hc'%list_elem_of_singleton. by subst c.
  - intros c l' Hin. rewrite filter_snoc, Hci.
    apply setdefault_append_elem in Hin
        as [[Hne Hin]|[[-> (l0 & Hl0 & ->)]|(-> & Hout & ->)]]; [| | |done].
    + rewrite bool_decide_eq_false_2 by congruence.
      rewrite app_nil_r. by apply Hpais.
    + rewrite bool_decide_eq_true_2 by done. f_equal. by apply Hpais.
    + rewrite bool_decide_eq_true_2 by done.
      rewrite filter_none; [done|]. intros j Hj.
      apply bool_decide_eq_false_2. intros Hcj. apply Hout. eauto.
  - intros j c Hj Hc. rewrite setdefault_append_keys.
    apply elem_of_app in Hj as [Hj|Hj%list_elem_of_singleton].
    + specialize (Hkeys j c Hj Hc).
      destruct (decide (pais ti ∈ pc.*1)); [done|]. apply elem_of_app. by left.
    + subst j. assert (c = pais ti) as -> by congruence.
      destruct (decide (pais ti ∈ pc.*1)); [done|].
      apply elem_of_app. right. by left.
Qed.

Lemma agrupar_body_Ok equips i (pp pp' : gmap Z (list nat)) pc pc' :
  (ti ← getitem equips i;
   let pot := pot ti in
   ti' ← getitem equips i;
   let pais := pais ti' in
   l ← getitem pp pot;
   Ok (<[pot := l ++ [i]]> pp, setdefault_append pc pais i)) = Ok (pp', pc') ->
  exists ti l,
    equips !! i = Some ti /\ pp !! pot ti = Some l /\
    pp' = <[pot ti := l ++ [i]]> pp /\
    pc' = setdefault_append pc (pais ti) i.
Proof.
  unfold getitem. destruct (equips !! i) as [ti|] eqn:Hti; simpl; [|done].
  destruct (pp !! pot ti) as [l|] eqn:Hl; simpl; [|done].
  intros [= <- <-]. by exists ti, l.
Qed.

Lemma agrupar_spec equips N :
  match agrupar equips N with
  | Ok s => agrupat equips (range N) s
  | Raise e =>
      e = KeyError /\
      exists i, i < N /\
        forall t, equips !! i = Some t -> ~ (1 <= pot t <= 4)%Z
  end.
Proof.
  unfold agrupar.
  pose proof (for_each_spec (agrupat equips) (range N)
    (fun i '(equips_per_pot, equips_per_pais) =>
       ti ← getitem equips i;
       let pot := pot ti in
       ti' ← getitem equips i;
       let pais := pais ti' in
       l ← getitem equips_per_pot pot;
       Ok (<[pot := l ++ [i]]> equips_per_pot,
           setdefault_append equips_per_pais pais i))
    (<[1%Z := []]> (<[2%Z := []]> (<[3%Z := []]> (<[4%Z := []]> ∅))), [])
    (agrupat_nil equips)) as Hspec.
  match type of Hspec with ?H -> _ => assert (Hstep : H) end.
  { intros l1 i [pp pc] [pp' pc'] _ Hinv Hb.
    apply agrupar_body_Ok in Hb as (ti & l & Hti & Hl & -> & ->).
    by apply agrupat_step. }
  specialize (Hspec Hstep).
  match goal with |- match ?r with _ => _ end => destruct r as [s|e] end;
    [done|].
  destruct Hspec as (l1 & i & [pp pc] & Hi%elem_of_seq & Hinv & Hb).
  unfold getitem in Hb.
  destruct (equips !! i) as [ti|] eqn:Hti; simpl in Hb.
  - destruct (pp !! pot ti) as [l|] eqn:Hl; simpl in Hb; [done|].
    injection Hb as <-. split; [done|]. exists i. split; [lia|].
    intros t Ht Hp. assert (t = ti) as -> by congruence.
    destruct Hinv as (_ & Hpots & _).
    specialize (Hpots (pot ti)). cbn [fst] in Hpots.
    rewrite Hl, decide_True in Hpots by done. done.
  - injection Hb as <-. split; [done|]. exists i. split; [lia|].
    intros t Ht. congruence.
Qed.

(** *** The model as a whole *)

(** A well-formed team dictionary: keys [0 .. N-1], pots from 1 to 4. *)
Definition wf_equips (equips : gmap nat team) : Prop :=
  forall i, i < size equips ->
    exists t, equips !! i = Some t /\ (1 <= pot t <= 4)%Z.

(** A distance matrix with an entry for every pair of teams. *)
Definition covers (dists : list (list R)) (N : nat) : Prop :=
  forall i j, i < N -> j < N -> is_Some (entry dists i j).

Lemma objectiu_spec dists N :
  match objectiu dists N with
  | Ok _ => covers dists N
  | Raise e =>
      e = IndexError /\ exists i j, i < N /\ j < N /\ entry dists i j = None
  end.
Proof.
  unfold objectiu. rewrite for_each_nested.
  pose proof (for_each_spec
    (fun (l : list var) (_ : list (R * var)) =>
       forall c, c ∈ l -> is_Some (entry dists c.1 c.2))
    (a ← range N; b ← range N; [(a, b)])
    (fun c acc => row ← index dists c.1; d ← index row c.2;
                  Ok (acc ++ [(d, (c.1, c.2))])) []) as Hspec.
  match type of Hspec with ?H0 -> ?H1 -> _ =>
    assert (Hnil : H0); [|assert (Hstep : H1)] end.
  { by intros c ?%elem_of_nil. }
  { intros l1 c acc acc' _ Hall Hb c' [Hin|Hin%list_elem_of_singleton]%elem_of_app;
      [by apply Hall|]. subst c'.
    unfold index, entry in *. destruct (dists !! c.1) as [row|]; simpl in *; [|done].
    destruct (row !! c.2); simpl in *; [by eexists|done]. }
  specialize (Hspec Hnil Hstep).
  match goal with |- match ?r with _ => _ end => destruct r as [obj|e] end.
  - intros i j Hi Hj. apply (Hspec (i, j)). by apply elem_of_cells.
  - destruct Hspec as (l1 & [i j] & acc & [Hi Hj]%elem_of_cells & _ & Hb).
    cbn [fst snd] in Hb. unfold index in Hb.
    assert (e = IndexError /\ entry dists i j = None) as [-> Hnone].
    { unfold entry. destruct (dists !! i) as [row|]; simpl in *;
        [|by injection Hb as <-].
      destruct (row !! j); simpl in *; [done|by injection Hb as <-]. }
    split; [done|]. by exists i, j.
Qed.

Lemma agrupat_dense equips s i :
  agrupat equips (range (size equips)) s -> i < size equips ->
  is_Some (equips !! i).
Proof.
  intros (Hteams & _) Hi. destruct (Hteams i) as (t & -> & _); [|done].
  apply elem_of_seq. lia.
Qed.

Lemma agrupat_pots equips l1 s p :
  agrupat equips l1 s -> (1 <= p <= 4)%Z -> is_Some (s.1 !! p).
Proof.
  intros (_ & Hpots & _) Hp. rewrite Hpots, decide_True by done. by eexists.
Qed.

(** What a returned model consists of. *)
Lemma construir_model_Ok equips dists model x :
  construir_model equips dists = Ok (model, x) ->
  exists pp pc,
    agrupat equips (range (size equips)) (pp, pc) /\
    covers dists (size equips) /\
    x = LpVariable_dicts (size equips) /\
    constraints model
    = family_1 (size equips) ++ family_2 (size equips)
      ++ family_3 equips (size equips)
      ++ family_4 equips (size equips) pc
      ++ family_5 (size equips) pp.
Proof.
  unfold construir_model.
  pose proof (agrupar_spec equips (size equips)) as Hag.
  destruct (agrupar equips (size equips)) as [[pp pc]|e]; simpl; [|done].
  pose proof (objectiu_spec dists (size equips)) as Hobj.
  destruct (objectiu dists (size equips)) as [obj|e]; simpl; [|done].
  set (m0 := {| objective := obj; constraints := [] |}).
  pose proof (restriccio_1_adds (size equips) m0) as [_ H1].
  pose proof (restriccio_2_adds (size equips) (restriccio_1 (size equips) m0))
    as [_ H2].
  destruct (restriccio_3_adds equips (size equips)
              (restriccio_2 (size equips) (restriccio_1 (size equips) m0)))
    as (m3 & -> & [_ H3]); [intros i; by apply (agrupat_dense equips (pp, pc))|]. simpl.
  destruct (restriccio_4_adds equips (size equips) pc m3)
    as (m4 & -> & [_ H4]); [intros i; by apply (agrupat_dense equips (pp, pc))|]. simpl.
  destruct (restriccio_5_adds (size equips) pp m4) as (m5 & -> & [_ H5]).
  { intros p. by apply (agrupat_pots equips (range (size equips)) (pp, pc)). }
  simpl. intros [= <- <-]. exists pp, pc.
  split; [done|]. split; [done|]. split; [done|].
  rewrite H5, H4, H3, H2, H1. simpl. by rewrite <- !app_assoc.
Qed.

(** When a model is returned, and which exception is raised when not. *)
Lemma construir_model_spec equips dists :
  match construir_model equips dists with
  | Ok (model, x) => wf_equips equips /\ covers dists (size equips)
  | Raise e =>
      (e = KeyError /\ ~ wf_equips equips) \/
      (e = IndexError /\ ~ covers dists (size equips))
  end.
Proof.
  unfold construir_model.
  pose proof (agrupar_spec equips (size equips)) as Hag.
  destruct (agrupar equips (size equips)) as [[pp pc]|e]; simpl.
  - pose proof (objectiu_spec dists (size equips)) as Hobj.
    destruct (objectiu dists (size equips)) as [obj|e]; simpl.
    + destruct (restriccio_3_adds equips (size equips)
        (restriccio_2 (size equips)
           (restriccio_1 (size equips) {| objective := obj; constraints := [] |})))
        as (m3 & -> & _); [intros i; by apply (agrupat_dense equips (pp, pc))|]. simpl.
      destruct (restriccio_4_adds equips (size equips) pc m3)
        as (m4 & -> & _); [intros i; by apply (agrupat_dense equips (pp, pc))|]. simpl.
      destruct (restriccio_5_adds (size equips) pp m4) as (m5 & -> & _).
      { intros p. by apply (agrupat_pots equips (range (size equips)) (pp, pc)). }
      simpl. split; [|done]. intros i Hi. destruct Hag as (Hteams & _).
      apply Hteams, elem_of_seq. lia.
    + right. destruct Hobj as (-> & i & j & Hi & Hj & Hnone). split; [done|].
      intros Hcov. destruct (Hcov i j Hi Hj) as [d Hd]. congruence.
  - left. destruct Hag as (-> & i & Hi & Hbad). split; [done|].
    intros Hwf. destruct (Hwf i Hi) as (t & Ht & Hp). by apply (Hbad t).
Qed.

Lemma construir_model_total equips dists :
  wf_equips equips -> covers dists (size equips) ->
  exists model,
    construir_model equips dists = Ok (model, LpVariable_dicts (size equips)).
Proof.
  intros Hwf Hcov. pose proof (construir_model_spec equips dists) as Hspec.
  destruct (construir_model equips dists) as [[model x]|e] eqn:Hc.
  - apply construir_model_Ok in Hc as (_ & _ & _ & _ & -> & _). by eexists.
  - destruct Hspec as [[_ []]|[_ []]]; done.
Qed.

(** *** What the constraints say *)

Lemma lpSum_app x e1 e2 : lpSum x (e1 ++ e2) = (lpSum x e1 + lpSum x e2)%Z.
Proof. induction e1 as [|v e1 IH]; simpl; [done|]. rewrite IH. lia. Qed.

Lemma lpSum_map x (g : nat -> var) l :
  lpSum x (map g l) = sum_over l (fun j => x (g j)).
Proof. induction l as [|j l IH]; simpl; [done|]. by rewrite IH. Qed.

Lemma sum_over_add l f g :
  (sum_over l f + sum_over l g)%Z = sum_over l (fun j => (f j + g j)%Z).
Proof. induction l as [|j l IH]; simpl; [done|]. rewrite <- IH. lia. Qed.

Lemma sum_over_ext l f g :
  (forall j, j ∈ l -> f j = g j) -> sum_over l f = sum_over l g.
Proof.
  induction l as [|j l IH]; intros Hfg; simpl; [done|].
  rewrite Hfg by left. rewrite IH; [done|]. intros j' Hj'. apply Hfg. by right.
Qed.

Lemma satisfies_eq x e b : satisfies x (lp_eq e b) = true <-> lpSum x e = b.
Proof. apply Z.eqb_eq. Qed.

Lemma satisfies_le x e b : satisfies x (lp_le e b) = true <-> (lpSum x e <= b)%Z.
Proof. apply Z.leb_le. Qed.

Lemma Forall_range_bind {B} (P : B -> Prop) (f : nat -> list B) N :
  Forall P (range N ≫= f) <-> forall i, i < N -> Forall P (f i).
Proof.
  rewrite Forall_bind, Forall_forall. unfold range. split.
  - intros H i Hi. apply H, elem_of_seq. lia.
  - intros H i Hi%elem_of_seq. apply H. lia.
Qed.

Lemma filter_all {A} (f : A -> bool) (l : list A) :
  (forall a, a ∈ l -> f a = true) -> List.filter f l = l.
Proof.
  induction l as [|a l IH]; intros Hf; [done|]. simpl.
  rewrite Hf by left. f_equal. apply IH. intros a' Hin. apply Hf. by right.
Qed.

Lemma filter_filter {A} (f g : A -> bool) (l : list A) :
  List.filter f (List.filter g l) = List.filter (fun a => g a && f a) l.
Proof.
  induction l as [|a l IH]; [done|]. simpl.
  destruct (g a); simpl; [destruct (f a)|]; by rewrite IH.
Qed.

Lemma elem_of_filter_bool {A} (f : A -> bool) (l : list A) a :
  a ∈ List.filter f l <-> a ∈ l /\ f a = true.
Proof. rewrite !list_elem_of_In. apply filter_In. Qed.

Lemma family_1_degree equips x :
  Forall (fun c => satisfies x c = true) (family_1 (size equips))
  <-> degree equips x.
Proof.
  unfold family_1. rewrite Forall_range_bind. unfold degree.
  apply forall_proper; intros i. apply forall_proper; intros Hi.
  rewrite Forall_cons, Forall_singleton, !satisfies_eq, !lpSum_map. done.
Qed.

Lemma family_2_pairing equips x :
  Forall (fun c => satisfies x c = true) (family_2 (size equips))
  <-> pairing equips x.
Proof.
  unfold family_2. rewrite Forall_range_bind. unfold pairing. split.
  - intros H i j Hi Hj Hne. specialize (H i Hi).
    rewrite Forall_range_bind in H. specialize (H j Hj).
    rewrite decide_True, Forall_singleton, satisfies_le in H by done.
    simpl in H. lia.
  - intros H i Hi. apply Forall_range_bind. intros j Hj.
    destruct (decide (i ≠ j)) as [Hne|_]; [|constructor].
    apply Forall_singleton, satisfies_le. specialize (H i j Hi Hj Hne).
    simpl. lia.
Qed.

Lemma family_3_exclusion equips x :
  Forall (fun c => satisfies x c = true) (family_3 equips (size equips))
  <-> nationality_exclusion equips x.
Proof.
  unfold family_3. rewrite Forall_range_bind. unfold nationality_exclusion.
  split.
  - intros H i j Hi Hj Hne Hc. specialize (H i Hi).
    rewrite Forall_range_bind in H. specialize (H j Hj).
    rewrite decide_True, Forall_singleton, satisfies_eq in H by done.
    simpl in H. lia.
  - intros H i Hi. apply Forall_range_bind. intros j Hj.
    destruct (decide (i ≠ j /\ country equips i = country equips j))
      as [[Hne Hc]|_]; [|constructor].
    apply Forall_singleton, satisfies_eq. specialize (H i j Hi Hj Hne Hc).
    simpl. lia.
Qed.

Lemma lpSum_rivals x i l :
  lpSum x (map (fun j => (i, j)) l ++ map (fun j => (j, i)) l)
  = sum_over l (fun j => (x (i, j) + x (j, i))%Z).
Proof. by rewrite lpSum_app, !lpSum_map, sum_over_add. Qed.

Lemma family_4_cap equips x pp pc :
  agrupat equips (range (size equips)) (pp, pc) ->
  Forall (fun c => satisfies x c = true) (family_4 equips (size equips) pc)
  <-> nationality_cap equips x.
Proof.
  intros (_ & _ & _ & Hpais & Hkeys). cbn [snd] in *.
  unfold family_4. rewrite Forall_range_bind. unfold nationality_cap.
  assert (Hriv : forall i c, country equips i ≠ Some c ->
                   rivals i (in_country equips c) = in_country equips c).
  { intros i c Hc. apply filter_all. intros j [_ Hj]%elem_of_filter_bool.
    apply bool_decide_eq_true_1 in Hj. apply bool_decide_eq_true_2. congruence. }
  split.
  - intros H i c Hi Hc.
    destruct (decide (c ∈ pc.*1)) as [Hin|Hout].
    + apply list_elem_of_fmap in Hin as ([c' l] & -> & Hin). cbn [fst] in *.
      specialize (H i Hi). rewrite Forall_bind, Forall_forall in H.
      specialize (H _ Hin). unfold compose in H. cbn [fst snd] in H.
      rewrite decide_True, Forall_singleton, satisfies_le in H by congruence.
      rewrite (Hpais _ _ Hin) in H. fold (in_country equips c') in H.
      by rewrite Hriv, lpSum_rivals in H.
    + unfold in_country. rewrite filter_none; [simpl; lia|].
      intros j Hj. apply bool_decide_eq_false_2. intros Hcj.
      apply Hout. by apply (Hkeys j).
  - intros H i Hi. rewrite Forall_bind, Forall_forall. intros [c l] Hin.
    unfold compose. cbn [fst snd].
    destruct (decide (Some c ≠ country equips i)) as [Hne|_]; [|constructor].
    apply Forall_singleton, satisfies_le.
    rewrite (Hpais _ _ Hin). fold (in_country equips c).
    rewrite Hriv, lpSum_rivals by congruence. apply H; [done|congruence].
Qed.

Lemma rivals_pot equips pp pc p i :
  agrupat equips (range (size equips)) (pp, pc) -> (1 <= p <= 4)%Z ->
  rivals i (default [] (pp !! p)) = in_pot_but equips p i.
Proof.
  intros (_ & Hpots & _) Hp. cbn [fst] in Hpots.
  rewrite Hpots, decide_True by done. simpl.
  unfold rivals, in_pot_but. rewrite filter_filter.
  apply filter_ext. intros j. by rewrite bool_decide_and.
Qed.

Lemma family_5_balance equips x pp pc :
  agrupat equips (range (size equips)) (pp, pc) ->
  Forall (fun c => satisfies x c = true) (family_5 (size equips) pp)
  <-> pot_balance equips x.
Proof.
  intros Hag. unfold family_5. rewrite Forall_range_bind. unfold pot_balance.
  split.
  - intros H i p Hi Hp. specialize (H i Hi).
    rewrite Forall_bind, Forall_forall in H.
    assert (Hin : p ∈ [1; 2; 3; 4]%Z).
    { assert (p = 1 \/ p = 2 \/ p = 3 \/ p = 4)%Z as [-> |[-> |[-> | ->]]]
        by lia; repeat constructor. }
    specialize (H p Hin). unfold compose in H.
    rewrite Forall_cons, Forall_singleton, !satisfies_eq, !lpSum_map in H.
    by rewrite (rivals_pot equips pp pc) in H.
  - intros H i Hi. rewrite Forall_bind, Forall_forall. intros p Hin.
    assert (Hp : (1 <= p <= 4)%Z).
    { repeat (apply elem_of_cons in Hin as [-> |Hin]; [lia|]).
      by apply elem_of_nil in Hin. }
    unfold compose.
    rewrite Forall_cons, Forall_singleton, !satisfies_eq, !lpSum_map.
    rewrite (rivals_pot equips pp pc) by done. by apply H.
Qed.

Lemma binary_cells equips x :
  Forall (binary x) (LpVariable_dicts (size equips)) <-> is_assignment equips x.
Proof.
  rewrite Forall_forall. unfold is_assignment, LpVariable_dicts. split.
  - intros H i j Hi Hj. apply H. by apply elem_of_cells.
  - intros H [i j] [Hi Hj]%elem_of_cells. by apply H.
Qed.

(** C1. For every team dictionary and distance matrix for which
    [optimitzar_lliga_champions] builds its model, an assignment is feasible
    for that model if and only if it is a 0/1 assignment of the [N * N]
    variables that satisfies the five families of invariants. *)
Theorem construir_model_feasible_iff_valid equips dists model vars x :
  construir_model equips dists = Ok (model, vars) ->
  feasible model vars x
  <-> is_assignment equips x /\ valid_assignment equips x.
Proof.
  intros (pp & pc & Hag & _ & -> & Hcs)%construir_model_Ok.
  unfold feasible, valid_assignment.
  rewrite Hcs, !Forall_app, binary_cells.
  rewrite family_1_degree, family_2_pairing, family_3_exclusion.
  rewrite (family_4_cap equips x pp pc), (family_5_balance equips x pp pc)
    by done.
  done.
Qed.

(** A feasible solution has the degrees and the pot balance. *)
Lemma feasible_degree_balance equips dists model vars x :
  construir_model equips dists = Ok (model, vars) ->
  feasible model vars x -> degree equips x /\ pot_balance equips x.
Proof.
  intros (pp & pc & Hag & _ & -> & Hcs)%construir_model_Ok [_ Hsat].
  rewrite Hcs, !Forall_app in Hsat. destruct Hsat as (H1 & _ & _ & _ & H5).
  split; [by apply family_1_degree|].
  by apply (family_5_balance equips x pp pc).
Qed.

(** *** The diagonal, and the number of pots *)

Lemma sum_over_filter (P : nat -> bool) l f :
  sum_over (List.filter P l) f = sum_over l (fun j => if P j then f j else 0%Z).
Proof.
  induction l as [|j l IH]; simpl; [done|].
  destruct (P j); simpl; by rewrite IH.
Qed.

Lemma sum_over_single f i s n :
  sum_over (seq s n) (fun j => if bool_decide (j = i) then f j else 0%Z)
  = if decide (s <= i < s + n) then f i else 0%Z.
Proof.
  revert s. induction n as [|n IH]; intros s; simpl.
  { rewrite decide_False by lia. done. }
  rewrite IH. case_bool_decide as Hs.
  - subst i. rewrite decide_False, decide_True by lia. lia.
  - destruct (decide (S s <= i < S s + n)).
    + rewrite decide_True by lia. lia.
    + rewrite decide_False by lia. lia.
Qed.

(** The teams are [i] itself and, pot by pot, the other teams. *)
Lemma sum_over_pots equips f i :
  wf_equips equips -> i < size equips ->
  sum_over (range (size equips)) f
  = (f i + sum_over (in_pot_but equips 1 i) f
         + sum_over (in_pot_but equips 2 i) f
         + sum_over (in_pot_but equips 3 i) f
         + sum_over (in_pot_but equips 4 i) f)%Z.
Proof.
  intros Hwf Hi. unfold in_pot_but. rewrite !sum_over_filter.
  assert (Hsingle :
    sum_over (range (size equips))
      (fun j => if bool_decide (j = i) then f j else 0%Z) = f i).
  { unfold range. by rewrite sum_over_single, decide_True by lia. }
  rewrite <- Hsingle. rewrite !sum_over_add. apply sum_over_ext. intros j Hj%elem_of_seq.
  destruct (Hwf j) as (t & Ht & Hp); [lia|].
  unfold pot_of. rewrite Ht. simpl.
  destruct (decide (j = i)) as [->|Hne].
  - rewrite bool_decide_eq_true_2 by done.
    rewrite !bool_decide_eq_false_2 by tauto. lia.
  - rewrite (bool_decide_eq_false_2 (j = i)) by done.
    assert (pot t = 1 \/ pot t = 2 \/ pot t = 3 \/ pot t = 4)%Z
      as [Hpt|[Hpt|[Hpt|Hpt]]] by lia; rewrite Hpt;
      repeat first
        [ rewrite bool_decide_eq_true_2 by done
        | rewrite bool_decide_eq_false_2 by (intros [[=] _]) ];
      lia.
Qed.

Lemma construir_model_wf equips dists model vars :
  construir_model equips dists = Ok (model, vars) -> wf_equips equips.
Proof.
  intros Hc. pose proof (construir_model_spec equips dists) as Hspec.
  rewrite Hc in Hspec. tauto.
Qed.

(** C2. In the model that [optimitzar_lliga_champions] builds, every
    feasible solution has [x[(i, i)] = 0] for every team [i]: the four away
    matches of the degree constraint are used up by the four pots, which
    leave the team itself out. *)
Theorem construir_model_no_self_fixture equips dists model vars x i :
  construir_model equips dists = Ok (model, vars) ->
  feasible model vars x ->
  i < size equips ->
  x (i, i) = 0%Z.
Proof.
  intros Hc Hfeas Hi.
  pose proof (construir_model_wf _ _ _ _ Hc) as Hwf.
  destruct (feasible_degree_balance _ _ _ _ x Hc Hfeas) as [Hdeg Hpot].
  destruct (Hdeg i Hi) as [Haway _].
  rewrite (sum_over_pots equips _ i Hwf Hi) in Haway.
  destruct (Hpot i 1%Z Hi) as [H1 _]; [lia|].
  destruct (Hpot i 2%Z Hi) as [H2 _]; [lia|].
  destruct (Hpot i 3%Z Hi) as [H3 _]; [lia|].
  destruct (Hpot i 4%Z Hi) as [H4 _]; [lia|].
  lia.
Qed.

(** With every key below [N] present, the [N] keys are exactly those. *)
Lemma dense_keys_below (equips : gmap nat team) i :
  dense equips -> is_Some (equips !! i) -> i < size equips.
Proof.
  intros Hd Hi.
  assert (Hsub : (set_seq 0 (size equips) : gset nat) ⊆ dom equips).
  { intros j [_ Hj]%elem_of_set_seq. apply elem_of_dom, Hd. lia. }
  apply set_subseteq_size_eq in Hsub.
  - assert (Hin : i ∈ (set_seq 0 (size equips) : gset nat)).
    { rewrite Hsub. by apply elem_of_dom. }
    apply elem_of_set_seq in Hin. lia.
  - rewrite size_set_seq, size_dom. done.
Qed.

Lemma wf_equips_dense equips : wf_equips equips -> dense equips.
Proof. intros Hwf i Hi. destruct (Hwf i Hi) as (t & -> & _). by eexists. Qed.

Lemma elem_of_pots (equips : gmap nat team) p :
  p ∈ (list_to_set (map (fun kv => pot kv.2) (map_to_list equips)) : gset Z)
  <-> exists i t, equips !! i = Some t /\ pot t = p.
Proof.
  rewrite elem_of_list_to_set, list_elem_of_In, in_map_iff. split.
  - intros ([i t] & <- & Hin). exists i, t. split; [|done].
    by apply elem_of_map_to_list, list_elem_of_In.
  - intros (i & t & Ht & <-). exists (i, t). split; [done|].
    by apply list_elem_of_In, elem_of_map_to_list.
Qed.

(** With a team to play and one away leg against every pot, the four pots
    are all populated. *)
Lemma pot_balance_four_pots equips x :
  wf_equips equips -> 0 < size equips -> pot_balance equips x ->
  number_of_pots equips = 4.
Proof.
  intros Hwf Hpos Hpot. unfold number_of_pots.
  assert (Hset : (list_to_set (map (fun kv => pot kv.2) (map_to_list equips))
                  : gset Z) = {[ 1; 2; 3; 4 ]}%Z).
  { apply set_eq. intros p. rewrite elem_of_pots. split.
    - intros (i & t & Ht & <-).
      assert (Hi : i < size equips).
      { apply dense_keys_below; [by apply wf_equips_dense|by eexists]. }
      destruct (Hwf i Hi) as (t' & Ht' & Hp).
      assert (t' = t) as -> by congruence.
      assert (pot t = 1 \/ pot t = 2 \/ pot t = 3 \/ pot t = 4)%Z
        as [-> |[-> |[-> | ->]]] by lia; set_solver.
    - intros Hp. assert (1 <= p <= 4)%Z as Hp' by set_solver by lia.
      destruct (Hpot 0 p Hpos Hp') as [Haway _].
      destruct (in_pot_but equips p 0) as [|j l] eqn:Hl; [done|].
      assert (Hj : j ∈ in_pot_but equips p 0) by (rewrite Hl; by left).
      apply elem_of_filter_bool in Hj as [_ [Hj _]%bool_decide_eq_true_1].
      unfold pot_of in Hj. destruct (equips !! j) as [t|] eqn:Ht; [|done].
      injection Hj as Hj. by exists j, t. }
  rewrite Hset. reflexivity.
Qed.

(** C3, as amended. For a team dictionary that is not empty, an assignment
    satisfying the degree and the pot-balance constraints of the model exists
    only if the teams are spread over exactly four pots, that is
    [TOTAL_PARTITS = 2 * number_of_pots]; consequently the model is
    infeasible whenever that identity fails. *)
Theorem pot_balance_forces_pot_count equips dists model vars :
  construir_model equips dists = Ok (model, vars) ->
  0 < size equips ->
  (forall x, degree equips x -> pot_balance equips x ->
     TOTAL_PARTITS = (2 * Z.of_nat (number_of_pots equips))%Z) /\
  (TOTAL_PARTITS ≠ (2 * Z.of_nat (number_of_pots equips))%Z ->
   forall x, ~ feasible model vars x).
Proof.
  intros Hc Hpos. pose proof (construir_model_wf _ _ _ _ Hc) as Hwf.
  assert (Hfour : forall x, pot_balance equips x ->
            TOTAL_PARTITS = (2 * Z.of_nat (number_of_pots equips))%Z).
  { intros x Hpot.
    by rewrite (pot_balance_four_pots equips x Hwf Hpos Hpot). }
  split; [intros x _; apply Hfour|].
  intros Hne x Hfeas. apply Hne, (Hfour x).
  by destruct (feasible_degree_balance _ _ _ _ x Hc Hfeas).
Qed.

(** C3, the counterexample: with no team at all the model has no
    constraint, every assignment is feasible, and no pot is populated. *)
Lemma empty_registry_feasible :
  construir_model ∅ [] = Ok ({| objective := []; constraints := [] |}, []) /\
  feasible {| objective := []; constraints := [] |} [] (fun _ => 0%Z) /\
  degree ∅ (fun _ => 0%Z) /\ pot_balance ∅ (fun _ => 0%Z) /\
  TOTAL_PARTITS ≠ (2 * Z.of_nat (number_of_pots ∅))%Z.
Proof.
  split; [reflexivity|]. split; [by split; constructor|].
  split; [|split].
  - intros i Hi. rewrite map_size_empty in Hi. lia.
  - intros i p Hi. rewrite map_size_empty in Hi. lia.
  - by vm_compute.
Qed.

(** *** A league of twelve teams *)

(** Twelve teams of twelve countries, three in each pot. *)
Definition ex_teams12 : list team :=
  [ {| nom := "Real Madrid"; estadi := "Santiago Bernabeu";
       lat := 40.453054; lon := -3.688344; pais := "ESP"; pot := 1 |};
    {| nom := "Bayern Munich"; estadi := "Allianz Arena";
       lat := 48.218775; lon := 11.624753; pais := "GER"; pot := 1 |};
    {| nom := "Manchester City"; estadi := "Etihad Stadium";
       lat := 53.483135; lon := -2.200941; pais := "ENG"; pot := 1 |};
    {| nom := "Paris Saint-Germain"; estadi := "Parc des Princes";
       lat := 48.841436; lon := 2.253049; pais := "FRA"; pot := 2 |};
    {| nom := "Inter"; estadi := "San Siro";
       lat := 45.478080; lon := 9.124000; pais := "ITA"; pot := 2 |};
    {| nom := "Benfica"; estadi := "Estadio da Luz";
       lat := 38.752678; lon := -9.184697; pais := "POR"; pot := 2 |};
    {| nom := "Club Brugge"; estadi := "Jan Breydel";
       lat := 51.193333; lon := 3.180556; pais := "BEL"; pot := 3 |};
    {| nom := "PSV"; estadi := "Philips Stadion";
       lat := 51.441667; lon := 5.467500; pais := "NED"; pot := 3 |};
    {| nom := "Olympiacos"; estadi := "Karaiskakis";
       lat := 37.946111; lon := 23.664444; pais := "GRE"; pot := 3 |};
    {| nom := "Slavia Praha"; estadi := "Eden Arena";
       lat := 50.067500; lon := 14.471389; pais := "CZE"; pot := 4 |};
    {| nom := "Bodo/Glimt"; estadi := "Aspmyra";
       lat := 67.276667; lon := 14.384722; pais := "NOR"; pot := 4 |};
    {| nom := "Copenhagen"; estadi := "Parken";
       lat := 55.702778; lon := 12.572222; pais := "DEN"; pot := 4 |} ].

Definition ex_equips12 : gmap nat team := map_seq 0 ex_teams12.

(** Some distances, one for every pair. *)
Definition ex_dists12 : list (list R) :=
  map (fun i => map (fun j => IZR (100 * Z.abs (Z.of_nat i - Z.of_nat j)))
                    (range 12))
      (range 12).

(** A schedule: team [3p + k] visits team [3p + (k+1)] of its own pot, team
    [3q + k] of every later pot and team [3q + (k+1)] of every earlier pot
    (the second index modulo 3). *)
Definition ex_x12 (v : var) : Z :=
  let p := v.1 / 3 in
  let k := v.1 mod 3 in
  let q := v.2 / 3 in
  let k' := v.2 mod 3 in
  if (p <? q) && (k' =? k) || (q <=? p) && (k' =? (k + 1) mod 3)
  then 1%Z else 0%Z.

(** The model of the twelve teams is built, and the schedule is feasible. *)
Lemma ex_model12 :
  exists model,
    construir_model ex_equips12 ex_dists12 = Ok (model, LpVariable_dicts 12) /\
    feasible model (LpVariable_dicts 12) ex_x12.
Proof.
  eexists. split; [vm_compute; reflexivity|].
  split; apply (bool_decide_unpack _); by vm_compute.
Qed.

Lemma construir_model_feasible_iff_valid_witness :
  exists model,
    construir_model ex_equips12 ex_dists12 = Ok (model, LpVariable_dicts 12) /\
    feasible model (LpVariable_dicts 12) ex_x12 /\
    is_assignment ex_equips12 ex_x12 /\ valid_assignment ex_equips12 ex_x12.
Proof.
  destruct ex_model12 as (model & Hbuild & Hfeas).
  exists model. split; [exact Hbuild|]. split; [exact Hfeas|].
  apply (construir_model_feasible_iff_valid ex_equips12 ex_dists12 model
           (LpVariable_dicts 12) ex_x12 Hbuild).
  exact Hfeas.
Defined.

Lemma construir_model_no_self_fixture_witness :
  exists model,
    construir_model ex_equips12 ex_dists12 = Ok (model, LpVariable_dicts 12) /\
    feasible model (LpVariable_dicts 12) ex_x12 /\
    ex_x12 (7, 7) = 0%Z.
Proof.
  destruct ex_model12 as (model & Hbuild & Hfeas).
  exists model. split; [exact Hbuild|]. split; [exact Hfeas|].
  apply (construir_model_no_self_fixture ex_equips12 ex_dists12 model
           (LpVariable_dicts 12) ex_x12 7 Hbuild Hfeas).
  vm_compute. lia.
Defined.

(** *** Two teams, two pots *)

Definition ex_dists2 : list (list R) := [[0; 1138]; [1138; 0]]%R.

Lemma ex_equips2_pots : number_of_pots ex_equips2 = 2.
Proof. by vm_compute. Qed.

Lemma ex_model2 :
  exists model,
    construir_model ex_equips2 ex_dists2 = Ok (model, LpVariable_dicts 2).
Proof. eexists. vm_compute. reflexivity. Qed.

(** A model built for a league that is not empty and not spread over four
    pots has no feasible solution. *)
Lemma model_infeasible equips dists model vars :
  construir_model equips dists = Ok (model, vars) ->
  0 < size equips -> number_of_pots equips ≠ 4 ->
  forall x, ~ feasible model vars x.
Proof.
  intros Hc Hpos Hne x Hfeas. apply Hne.
  destruct (feasible_degree_balance _ _ _ _ x Hc Hfeas) as [_ Hpot].
  apply (pot_balance_four_pots equips x); [|done..].
  by apply (construir_model_wf _ _ _ _ Hc).
Qed.

Lemma pot_balance_forces_pot_count_witness :
  exists model,
    construir_model ex_equips2 ex_dists2 = Ok (model, LpVariable_dicts 2) /\
    forall x, ~ feasible model (LpVariable_dicts 2) x.
Proof.
  destruct ex_model2 as [model Hbuild]. exists model. split; [exact Hbuild|].
  destruct (pot_balance_forces_pot_count ex_equips2 ex_dists2 model
              (LpVariable_dicts 2) Hbuild) as [_ Hinf].
  - rewrite ex_equips2_size. lia.
  - apply Hinf. rewrite ex_equips2_pots. by vm_compute.
Defined.

(** *** The objective *)

Lemma objectiu_terms dists N obj :
  objectiu dists N = Ok obj ->
  map snd obj = LpVariable_dicts N /\
  forall d c, (d, c) ∈ obj -> entry dists c.1 c.2 = Some d.
Proof.
  unfold objectiu, LpVariable_dicts. rewrite for_each_nested.
  apply (for_each_Ok_inv
    (fun (l : list var) (obj : list (R * var)) =>
       map snd obj = l /\
       forall d c, (d, c) ∈ obj -> entry dists c.1 c.2 = Some d)).
  - split; [done|]. by intros d c ?%elem_of_nil.
  - intros l1 [i j] acc acc' _ [Hvars Hcoef] Hb. cbn [fst snd] in Hb.
    unfold index in Hb.
    destruct (dists !! i) as [row|] eqn:Hrow; simpl in Hb; [|done].
    destruct (row !! j) as [d|] eqn:Hd; simpl in Hb; [|done].
    injection Hb as <-. split.
    + rewrite map_app, Hvars. done.
    + intros d' c [Hin|Hin%list_elem_of_singleton]%elem_of_app;
        [by apply Hcoef|].
      injection Hin as -> ->. unfold entry. cbn [fst snd].
      rewrite Hrow. simpl. done.
Qed.

(** The model that is built has one term of the objective for every variable,
    with its distance as coefficient. *)
Lemma construir_model_objective equips dists :
  wf_equips equips -> covers dists (size equips) ->
  exists model,
    construir_model equips dists
    = Ok (model, LpVariable_dicts (size equips)) /\
    map snd (objective model) = LpVariable_dicts (size equips) /\
    forall d c, (d, c) ∈ objective model -> entry dists c.1 c.2 = Some d.
Proof.
  pose proof (construir_model_spec equips dists) as Hspec.
  intros Hwf Hcov. unfold construir_model in *.
  pose proof (agrupar_spec equips (size equips)) as Hag.
  destruct (agrupar equips (size equips)) as [[pp pc]|e]; simpl in *;
    [|destruct Hspec as [[_ ?]|[_ ?]]; done].
  destruct (objectiu dists (size equips)) as [obj|e] eqn:Hobj; simpl in *;
    [|destruct Hspec as [[_ ?]|[_ ?]]; done].
  apply objectiu_terms in Hobj.
  set (m0 := {| objective := obj; constraints := [] |}) in *.
  pose proof (restriccio_1_adds (size equips) m0) as [Ho1 _].
  pose proof (restriccio_2_adds (size equips) (restriccio_1 (size equips) m0))
    as [Ho2 _].
  destruct (restriccio_3_adds equips (size equips)
              (restriccio_2 (size equips) (restriccio_1 (size equips) m0)))
    as (m3 & -> & [Ho3 _]); [intros i; by apply (agrupat_dense equips (pp, pc))|].
  simpl.
  destruct (restriccio_4_adds equips (size equips) pc m3)
    as (m4 & -> & [Ho4 _]); [intros i; by apply (agrupat_dense equips (pp, pc))|].
  simpl.
  destruct (restriccio_5_adds (size equips) pp m4) as (m5 & -> & [Ho5 _]).
  { intros p. by apply (agrupat_pots equips (range (size equips)) (pp, pc)). }
  simpl. exists m5. split; [done|].
  rewrite Ho5, Ho4, Ho3, Ho2, Ho1. done.
Qed.

(** [value(model.objective)] is [None] as soon as one variable of the
    objective has no value. *)
Lemma objective_value_from (obj : list (R * var)) (val : var -> option R)
    (acc : option R) :
  fold_left (fun acc '(c, v) => s ← acc; xv ← val v; Some (s + xv * c)%R)
            obj acc = None \/
  (is_Some acc /\ forall d c, (d, c) ∈ obj -> is_Some (val c)).
Proof.
  revert acc. induction obj as [|[d c] obj IH]; intros acc; simpl.
  { destruct acc; [right|by left]. split; [by eexists|].
    by intros d c ?%elem_of_nil. }
  destruct (IH (s ← acc; xv ← val c; Some (s + xv * d)%R))
    as [Hnone|[Hsome Hall]]; [by left|]. right.
  destruct acc as [s|]; [|by destruct Hsome]. simpl in Hsome.
  destruct (val c) as [xv|] eqn:Hc; [|by destruct Hsome].
  split; [by eexists|].
  intros d' c' [[= -> ->]|Hin]%elem_of_cons; [by eexists|by apply (Hall d')].
Qed.

Lemma objective_value_None (obj : list (R * var)) (val : var -> option R)
    (c : var) :
  c ∈ map snd obj -> val c = None -> objective_value obj val = None.
Proof.
  intros Hc Hnone. unfold objective_value.
  destruct (objective_value_from obj val (Some 0%R)) as [?|[_ Hall]]; [done|].
  apply list_elem_of_In, in_map_iff in Hc as ([d c'] & <- & Hin).
  destruct (Hall d c') as [? ?]; [by apply list_elem_of_In|]. simpl in *.
  congruence.
Qed.

Lemma objective_value_Some (obj : list (R * var)) (val : var -> option R) :
  (forall c, c ∈ map snd obj -> is_Some (val c)) ->
  is_Some (objective_value obj val).
Proof.
  unfold objective_value. generalize 0%R as s. 
  induction obj as [|[d c] obj IH]; intros s Hall; simpl; [by eexists|].
  destruct (Hall c) as [xv Hxv]; [by left|]. rewrite Hxv. simpl.
  apply IH. intros c' Hc'. apply Hall. by right.
Qed.

(** *** The call of the solver *)

(** A solver that finds the model infeasible and assigns no value. *)
Definition cbc_no_solution (timeLimit : Z) (model : LpProblem) : solution :=
  {| status := (-1)%Z; varValue := fun _ => None |}.

(** C4, as amended. [optimitzar_lliga_champions] makes no structural check
    of its own. Whenever the team dictionary is well formed (keys
    [0 .. N-1], pots from 1 to 4) and the distance matrix has an entry for
    every pair, the model is built and handed to the solver, once and with
    the time limit 300, whatever the number of pots. What follows depends on
    the solver alone: with a status other than Optimal the function returns
    the model, that status and the variables, raising and printing nothing;
    with the status Optimal it prints the total and returns, unless the
    solver left a variable without a value, in which case the print raises
    [TypeError]. The only exceptions raised before the solver is called are
    the [KeyError] of an ill-formed dictionary and the [IndexError] of a
    matrix that is too small. *)
Theorem optimitzar_lliga_champions_no_check PULP_CBC_CMD equips dists :
  (wf_equips equips -> covers dists (size equips) ->
   exists model values,
     construir_model equips dists
     = Ok (model, LpVariable_dicts (size equips)) /\
     (exists evs r,
        optimitzar_lliga_champions PULP_CBC_CMD equips dists
        = (Solve model 300 :: evs, r)) /\
     (status (PULP_CBC_CMD 300%Z model) <> LpStatusOptimal ->
      optimitzar_lliga_champions PULP_CBC_CMD equips dists
      = ([Solve model 300],
         Ok (model, status (PULP_CBC_CMD 300%Z model), values))) /\
     (status (PULP_CBC_CMD 300%Z model) = LpStatusOptimal ->
      (forall v, v ∈ LpVariable_dicts (size equips) ->
         is_Some (varValue (PULP_CBC_CMD 300%Z model) v)) ->
      exists total,
        objective_value (objective model)
                        (varValue (PULP_CBC_CMD 300%Z model)) = Some total /\
        optimitzar_lliga_champions PULP_CBC_CMD equips dists
        = ([Solve model 300; Print total],
           Ok (model, LpStatusOptimal, values))) /\
     (status (PULP_CBC_CMD 300%Z model) = LpStatusOptimal ->
      (exists v, v ∈ LpVariable_dicts (size equips) /\
         varValue (PULP_CBC_CMD 300%Z model) v = None) ->
      optimitzar_lliga_champions PULP_CBC_CMD equips dists
      = ([Solve model 300], Raise TypeError))) /\
  (forall e,
     optimitzar_lliga_champions PULP_CBC_CMD equips dists = ([], Raise e) ->
     (e = KeyError /\ ~ wf_equips equips) \/
     (e = IndexError /\ ~ covers dists (size equips))).
Proof.
  unfold optimitzar_lliga_champions. split.
  - intros Hwf Hcov.
    destruct (construir_model_objective equips dists Hwf Hcov)
      as (model & Hm & Hvars & _).
    rewrite Hm. exists model. eexists. split; [done|].
    set (sol := PULP_CBC_CMD 300%Z model).
    split; [|split; [|split]].
    + destruct (decide (status sol = LpStatusOptimal)); [|by eexists _, _].
      destruct (objective_value (objective model) (varValue sol));
        by eexists _, _.
    + intros Hst. by rewrite decide_False.
    + intros Hst Hall. rewrite decide_True by done.
      destruct (objective_value_Some (objective model) (varValue sol))
        as [total Htotal].
      { rewrite Hvars. exact Hall. }
      exists total. split; [done|]. by rewrite Htotal, Hst.
    + intros Hst (v & Hv & Hnone). rewrite decide_True by done.
      rewrite (objective_value_None _ _ v); [done| |done].
      by rewrite Hvars.
  - intros e. pose proof (construir_model_spec equips dists) as Hspec.
    destruct (construir_model equips dists) as [[model x]|e'].
    + destruct (decide (status (PULP_CBC_CMD 300%Z model) = LpStatusOptimal));
        [|done].
      by destruct (objective_value (objective model)
                     (varValue (PULP_CBC_CMD 300%Z model))).
    + by intros [= <-].
Qed.

(** C4, the counterexample: two teams in two pots. [TOTAL_PARTITS] is not
    twice the number of pots and the model has no feasible solution, yet no
    error is reported: the model goes to the solver, and the function
    returns. *)
Lemma mismatch_reaches_solver :
  exists model values,
    optimitzar_lliga_champions cbc_no_solution ex_equips2 ex_dists2
    = ([Solve model 300], Ok (model, (-1)%Z, values)) /\
    TOTAL_PARTITS ≠ (2 * Z.of_nat (number_of_pots ex_equips2))%Z /\
    forall x, ~ feasible model (LpVariable_dicts 2) x.
Proof.
  destruct ex_model2 as [model Hbuild]. exists model. eexists.
  split; [|split].
  - unfold optimitzar_lliga_champions. rewrite Hbuild. reflexivity.
  - rewrite ex_equips2_pots. by vm_compute.
  - apply (model_infeasible ex_equips2 ex_dists2 model _ Hbuild).
    + rewrite ex_equips2_size. lia.
    + rewrite ex_equips2_pots. lia.
Qed.

(** ** Part III. The rest of the optimiser: loading, printing, the main program *)

(** *** Definitions *)

(** A row of the team sheet as [pd.read_excel] returns it: the columns
    [Equip], [Estadi], [Latitud (°N)], [Longitud (°E)] (millionths of a
    degree), [País] and [Pot] (whole numbers, so that [int] leaves them as
    they are). *)
Record fila := {
  f_Equip : string;
  f_Estadi : string;
  f_Latitud : R;
  f_Longitud : R;
  f_Pais : Z;
  f_Pot : Z;
}.

(** [paisos_map] (lines 131-135). *)
Definition paisos_map : gmap Z string :=
  list_to_map
    [ (1, "ESP"); (2, "GER"); (3, "ENG"); (4, "FRA"); (5, "ITA"); (6, "POR");
      (7, "BEL"); (8, "NED"); (9, "GRE"); (10, "CZE"); (11, "NOR");
      (12, "DEN"); (13, "TUR"); (14, "AZE"); (15, "CYP"); (16, "KAZ") ]%Z.

(** The value stored for one row, once its country code is mapped. *)
Definition equip_de_fila (r : fila) (codi : string) : team :=
  {| nom := f_Equip r;
     estadi := f_Estadi r;
     lat := (f_Latitud r / 1000000.0)%R;
     lon := (f_Longitud r / 1000000.0)%R;
     pais := codi;
     pot := f_Pot r |}.

(** [df.iterrows()] of a sheet with its default index: the rows with their
    positions. *)
Definition iterrows (df : list fila) : list (nat * fila) :=
  zip (range (length df)) df.

(** [llegir_dades_excel] (lines 118-154), from the rows that [read_excel]
    returned. *)
Definition llegir_dades_excel (df : list fila) : result (gmap nat team) :=
  for_each (iterrows df) (fun '(idx, fila) equips =>
    let pais_num := f_Pais fila in
    codi ← getitem paisos_map pais_num;
    Ok (<[idx := equip_de_fila fila codi]> equips)) ∅.

(** The two list comprehensions of [mostrar_rivals_taula] (lines 348 and
    351): the condition on the matrix is evaluated first, then the name. *)
Definition rivals_visitant (matriu : list (list Z)) (equips : gmap nat team)
    (N i : nat) : result (list string) :=
  for_each (range N) (fun j acc =>
    row ← index matriu i;
    m ← index row j;
    if decide (m = 1%Z) then tj ← getitem equips j; Ok (acc ++ [nom tj])
    else Ok acc) [].

Definition rivals_local (matriu : list (list Z)) (equips : gmap nat team)
    (N i : nat) : result (list string) :=
  for_each (range N) (fun j acc =>
    row ← index matriu j;
    m ← index row i;
    if decide (m = 1%Z) then tj ← getitem equips j; Ok (acc ++ [nom tj])
    else Ok acc) [].

Definition TAB : string := String (ascii_of_nat 9) EmptyString.

Fixpoint repeat_string (s : string) (n : nat) : string :=
  match n with
  | O => EmptyString
  | S n' => (s ++ repeat_string s n')%string
  end.

(** [mostrar_rivals_taula] (lines 333-355): the lines printed, and [Ok] or
    the exception that stopped the printing. *)
Definition mostrar_rivals_taula (matriu : list (list Z))
    (equips : gmap nat team) : list string * result unit :=
  let N := size equips in
  let capcalera :=
    [ ("Equip" ++ TAB ++ "Com a visitant" ++ TAB ++ "Com a local")%string;
      repeat_string "-" 120 ] in
  let fix files (l : list nat) (out : list string)
    : list string * result unit :=
    match l with
    | [] => (out ++ [repeat_string "-" 120], Ok tt)
    | i :: l' =>
        match
          (vis ← rivals_visitant matriu equips N i;
           loc ← rivals_local matriu equips N i;
           ti ← getitem equips i;
           Ok (nom ti ++ TAB ++ String.concat ", " vis
               ++ TAB ++ String.concat ", " loc)%string)
        with
        | Ok line => files l' (out ++ [line])
        | Raise e => (out, Raise e)
        end
    end in
  files (range N) capcalera.

(** *** Floating-point arithmetic *)

(** A float that is a number is a real number, and an operation on floats
    returns a rounded result. The operations that the distance of the
    optimiser uses are the fields of [float_ops]; nothing is assumed of the
    way they round, so that what holds for every [float_ops] holds for the
    binary64 operations of Python. *)
Record float_ops := {
  f_add : R -> R -> R;
  f_sub : R -> R -> R;
  f_mul : R -> R -> R;
  f_div : R -> R -> R;
  f_sqr : R -> R;
  f_radians : R -> R;
  f_sin : R -> R;
  f_cos : R -> R;
  f_sqrt : R -> R;
  f_atan2 : R -> R -> R;
}.

(** The operations without rounding. *)
Definition exact_ops : float_ops :=
  {| f_add := Rplus; f_sub := Rminus; f_mul := Rmult; f_div := Rdiv;
     f_sqr := fun x => (x ^ 2)%R;
     f_radians := radians; f_sin := sin; f_cos := cos;
     f_sqrt := sqrt; f_atan2 := atan2 |}.

(** Operations whose sum is rounded up by one part in [2^52], and which are
    exact otherwise. *)
Definition rounded_up_ops : float_ops :=
  {| f_add := fun x y => ((x + y) * (1 + / 2 ^ 52))%R;
     f_sub := Rminus; f_mul := Rmult; f_div := Rdiv;
     f_sqr := fun x => (x ^ 2)%R;
     f_radians := radians; f_sin := sin; f_cos := cos;
     f_sqrt := sqrt; f_atan2 := atan2 |}.

Module Float.

(** [math.sqrt]: "math domain error" for a negative number. *)
Definition math_sqrt (fl : float_ops) (x : R) : result R :=
  if Rlt_dec x 0 then Raise ValueError else Ok (f_sqrt fl x).

(** The expression [a] of line 185, as computed. *)
Definition haversine_a (fl : float_ops) (lat1_rad lon1_rad lat2_rad lon2_rad : R)
  : R :=
  let dlon := f_sub fl lon2_rad lon1_rad in
  let dlat := f_sub fl lat2_rad lat1_rad in
  f_add fl (f_sqr fl (f_sin fl (f_div fl dlat 2)))
           (f_mul fl (f_mul fl (f_cos fl lat1_rad) (f_cos fl lat2_rad))
                     (f_sqr fl (f_sin fl (f_div fl dlon 2)))).

(** [calcular_distancia_haversine] (lines 161-188). *)
Definition calcular_distancia_haversine (fl : float_ops)
    (lat1 lon1 lat2 lon2 : R) : result R :=
  let R := 6371.0%R in
  let lat1_rad := f_radians fl lat1 in
  let lon1_rad := f_radians fl lon1 in
  let lat2_rad := f_radians fl lat2 in
  let lon2_rad := f_radians fl lon2 in
  let a := haversine_a fl lat1_rad lon1_rad lat2_rad lon2_rad in
  s1 ← math_sqrt fl a;
  s2 ← math_sqrt fl (f_sub fl 1 a);
  let c := f_mul fl 2 (f_atan2 fl s1 s2) in
  Ok (f_mul fl R c).

(** The value stored for one row (lines 141-151), the coordinates divided
    by [1000000.0]. *)
Definition equip_de_fila (fl : float_ops) (r : fila) (codi : string) : team :=
  {| nom := f_Equip r;
     estadi := f_Estadi r;
     lat := f_div fl (f_Latitud r) 1000000.0%R;
     lon := f_div fl (f_Longitud r) 1000000.0%R;
     pais := codi;
     pot := f_Pot r |}.

(** [llegir_dades_excel] (lines 118-154), from the rows that [read_excel]
    returned. *)
Definition llegir_dades_excel (fl : float_ops) (df : list fila)
  : result (gmap nat team) :=
  for_each (iterrows df) (fun '(idx, fila) equips =>
    let pais_num := f_Pais fila in
    codi ← getitem paisos_map pais_num;
    Ok (<[idx := equip_de_fila fl fila codi]> equips)) ∅.

(** [crear_matriu_distancies] (lines 191-211). *)
Definition crear_matriu_distancies (fl : float_ops) (equips : gmap nat team)
  : result (list (list R)) :=
  let N := size equips in
  let distancies := replicate N (replicate N 0%R) in
  for_each (range N) (fun i distancies =>
    for_each (range N) (fun j distancies =>
      if decide (i ≠ j) then
        ti ← getitem equips i;
        let lat1 := lat ti in
        let lon1 := lon ti in
        tj ← getitem equips j;
        let lat2 := lat tj in
        let lon2 := lon tj in
        d ← calcular_distancia_haversine fl lat1 lon1 lat2 lon2;
        Ok (alter (fun row => <[j := d]> row) i distancies)
      else Ok distancies) distancies) distancies.

End Float.

(** [main] (lines 362-377), with the arithmetic of the distances, from the
    rows of the sheet: what the optimiser
    did ([Solve], [Print]), the lines of the table, and the outcome. *)
Definition main (fl : float_ops)
    (PULP_CBC_CMD : Z -> LpProblem -> solution) (df : list fila)
  : list event * list string * result unit :=
  match Float.llegir_dades_excel fl df with
  | Raise e => ([], [], Raise e)
  | Ok equips =>
      match Float.crear_matriu_distancies fl equips with
      | Raise e => ([], [], Raise e)
      | Ok dists =>
          match optimitzar_lliga_champions PULP_CBC_CMD equips dists with
          | (evs, Raise e) => (evs, [], Raise e)
          | (evs, Ok (model, _, variables)) =>
              match convertir_variables_a_matriu variables (size equips) with
              | Raise e => (evs, [], Raise e)
              | Ok matriu =>
                  let '(out, r) := mostrar_rivals_taula matriu equips in
                  (evs, out, r)
              end
          end
      end
  end.

(** * Part IV: further properties of the code *)



(** *** More on the two distance functions *)

Local Open Scope R_scope.

Lemma haversine_km_a lat1 lon1 lat2 lon2 :
  haversine_km lat1 lon1 lat2 lon2
  = 6371.0088 * (2 * asin (sqrt (haversine_a (radians lat1) (radians lon1)
                                             (radians lat2) (radians lon2)))).
Proof. reflexivity. Qed.

Lemma calcular_distancia_haversine_asin lat1 lon1 lat2 lon2 :
  calcular_distancia_haversine lat1 lon1 lat2 lon2
  = 6371.0 * (2 * asin (sqrt (haversine_a (radians lat1) (radians lon1)
                                          (radians lat2) (radians lon2)))).
Proof.
  rewrite calcular_distancia_haversine_a.
  by rewrite <- asin_sqrt_atan2 by apply haversine_a_range.
Qed.

Lemma haversine_a_same rlat rlon : haversine_a rlat rlon rlat rlon = 0.
Proof.
  unfold haversine_a.
  replace ((rlat - rlat) / 2) with 0 by field.
  replace ((rlon - rlon) / 2) with 0 by field.
  rewrite sin_0. ring.
Qed.

(** The angle [asin (sqrt a)] lies between 0 and a quarter turn. *)
Lemma asin_sqrt_bounds a : 0 <= a <= 1 -> 0 <= asin (sqrt a) <= PI / 2.
Proof.
  intros [H0 H1].
  assert (Hs : 0 <= sqrt a <= 1).
  { split; [apply sqrt_pos|]. rewrite <- sqrt_1. apply sqrt_le_1_alt. lra. }
  pose proof (asin_bound (sqrt a)) as [Hl Hu]. split; [|lra].
  destruct (Rle_or_lt 0 (asin (sqrt a))) as [|Hneg]; [done|].
  assert (Hsin : sin (asin (sqrt a)) < 0).
  { apply sin_lt_0_var; [|done]. pose proof PI_RGT_0. lra. }
  rewrite sin_asin in Hsin by lra. lra.
Qed.

(** X1. The distance of the analytics script does not depend on the
    direction of travel. *)
Theorem haversine_km_symmetric lat1 lon1 lat2 lon2 :
  haversine_km lat1 lon1 lat2 lon2 = haversine_km lat2 lon2 lat1 lon1.
Proof.
  rewrite !haversine_km_a. by rewrite (haversine_a_sym (radians lat1)).
Qed.

(** X2. Both distance functions return 0 for a point and itself. *)
Theorem distance_same_point lat lon :
  haversine_km lat lon lat lon = 0 /\
  calcular_distancia_haversine lat lon lat lon = 0.
Proof.
  rewrite haversine_km_a, calcular_distancia_haversine_asin.
  rewrite haversine_a_same, sqrt_0, asin_0. split; ring.
Qed.

(** In exact arithmetic the function with rounded operations is the real
    one, and never raises. *)
Lemma calcular_distancia_haversine_exact lat1 lon1 lat2 lon2 :
  Float.calcular_distancia_haversine exact_ops lat1 lon1 lat2 lon2
  = Ok (calcular_distancia_haversine lat1 lon1 lat2 lon2).
Proof.
  pose proof (haversine_a_range (radians lat1) (radians lon1)
                                (radians lat2) (radians lon2)) as Ha.
  unfold haversine_a in Ha.
  unfold Float.calcular_distancia_haversine, Float.math_sqrt,
    Float.haversine_a. cbn [exact_ops f_add f_sub f_mul f_div f_sqr f_radians
                            f_sin f_cos f_sqrt f_atan2].
  set (a := sin _ ^ 2 + _) in *.
  destruct (Rlt_dec a 0) as [Hneg|_]; [lra|]. cbn.
  destruct (Rlt_dec (1 - a) 0) as [Hneg|_]; [lra|]. reflexivity.
Qed.

Lemma calcular_distancia_haversine_raises fl lat1 lon1 lat2 lon2 :
  match Float.calcular_distancia_haversine fl lat1 lon1 lat2 lon2 with
  | Ok _ =>
      ~ (Float.haversine_a fl (f_radians fl lat1) (f_radians fl lon1)
                           (f_radians fl lat2) (f_radians fl lon2) < 0 \/
         f_sub fl 1 (Float.haversine_a fl (f_radians fl lat1) (f_radians fl lon1)
                                       (f_radians fl lat2) (f_radians fl lon2))
         < 0)
  | Raise e =>
      e = ValueError /\
      (Float.haversine_a fl (f_radians fl lat1) (f_radians fl lon1)
                         (f_radians fl lat2) (f_radians fl lon2) < 0 \/
       f_sub fl 1 (Float.haversine_a fl (f_radians fl lat1) (f_radians fl lon1)
                                     (f_radians fl lat2) (f_radians fl lon2))
       < 0)
  end.
Proof.
  unfold Float.calcular_distancia_haversine, Float.math_sqrt.
  set (a := Float.haversine_a fl _ _ _ _).
  destruct (Rlt_dec a 0) as [Hneg|Hpos]; cbn; [by split; [|left]|].
  destruct (Rlt_dec (f_sub fl 1 a) 0) as [Hneg'|Hpos']; cbn;
    [by split; [|right]|].
  tauto.
Qed.

(** Two opposite points of the globe: the exact [a] is 1, and a sum rounded
    up is above 1. *)
Lemma haversine_a_antipodes lat lon :
  Float.haversine_a rounded_up_ops (radians lat) (radians lon)
                    (radians (- lat)) (radians (lon + 180))
  = (1 + / 2 ^ 52).
Proof.
  unfold Float.haversine_a. cbn [rounded_up_ops f_add f_sub f_mul f_div f_sqr
                                 f_sin f_cos].
  unfold radians.
  replace (((- lat) * (PI / 180) - lat * (PI / 180)) / 2)
    with (- (lat * (PI / 180))) by field.
  replace (((lon + 180) * (PI / 180) - lon * (PI / 180)) / 2)
    with (PI / 2) by field.
  replace ((- lat) * (PI / 180)) with (- (lat * (PI / 180))) by ring.
  rewrite sin_neg, cos_neg, sin_PI2.
  pose proof (sin2_cos2 (lat * (PI / 180))) as Hsc. unfold Rsqr in Hsc.
  replace ((- sin (lat * (PI / 180))) ^ 2
           + cos (lat * (PI / 180)) * cos (lat * (PI / 180)) * 1 ^ 2)
    with (sin (lat * (PI / 180)) * sin (lat * (PI / 180))
          + cos (lat * (PI / 180)) * cos (lat * (PI / 180))) by ring.
  rewrite Hsc. ring.
Qed.

Lemma calcular_distancia_haversine_antipodes lat lon :
  Float.calcular_distancia_haversine rounded_up_ops lat lon
                                     (- lat) (lon + 180)
  = Raise ValueError.
Proof.
  pose proof (calcular_distancia_haversine_raises rounded_up_ops lat lon
                (- lat) (lon + 180)) as Hr.
  destruct (Float.calcular_distancia_haversine rounded_up_ops lat lon
              (- lat) (lon + 180)) as [d|e]; [|by destruct Hr as [-> _]].
  destruct Hr. right. cbn [rounded_up_ops f_radians f_sub].
  rewrite haversine_a_antipodes.
  assert (0 < / 2 ^ 52) by (apply Rinv_0_lt_compat; lra). lra.
Qed.

Lemma ex_antipodes_raise :
  Float.calcular_distancia_haversine rounded_up_ops
    32.022791 (-119.086340) (-32.022791) 60.913660
  = Raise ValueError.
Proof.
  replace (-32.022791) with (Ropp 32.022791) by lra.
  replace 60.913660 with (-119.086340 + 180) by lra.
  apply calcular_distancia_haversine_antipodes.
Qed.

(** X3. With rounded operations, whatever the rounding,
    [calcular_distancia_haversine] raises nothing but the [ValueError] of
    [math.sqrt], and raises it exactly when the computed [a] is negative or
    the computed [1 - a] is, that is, when rounding has put [a] outside
    [[0, 1]]. Rounding is the only cause: in exact arithmetic the function
    returns for all coordinates, a distance between 0 and half the
    circumference of its sphere. *)
Theorem calcular_distancia_haversine_domain fl lat1 lon1 lat2 lon2 :
  (Float.calcular_distancia_haversine fl lat1 lon1 lat2 lon2
   = Raise ValueError
   <-> Float.haversine_a fl (f_radians fl lat1) (f_radians fl lon1)
                         (f_radians fl lat2) (f_radians fl lon2) < 0 \/
       f_sub fl 1 (Float.haversine_a fl (f_radians fl lat1) (f_radians fl lon1)
                                     (f_radians fl lat2) (f_radians fl lon2))
       < 0) /\
  (forall e,
     Float.calcular_distancia_haversine fl lat1 lon1 lat2 lon2 = Raise e ->
     e = ValueError) /\
  (exists d,
     Float.calcular_distancia_haversine exact_ops lat1 lon1 lat2 lon2 = Ok d /\
     0 <= d <= 6371.0 * PI).
Proof.
  pose proof (calcular_distancia_haversine_raises fl lat1 lon1 lat2 lon2)
    as Hr.
  split; [|split].
  - destruct (Float.calcular_distancia_haversine fl lat1 lon1 lat2 lon2)
      as [d|e]; [split; [done|tauto]|].
    destruct Hr as [-> Ha]. tauto.
  - intros e He. rewrite He in Hr. tauto.
  - rewrite calcular_distancia_haversine_exact. eexists. split; [done|].
    rewrite calcular_distancia_haversine_asin.
    pose proof (asin_sqrt_bounds _
      (haversine_a_range (radians lat1) (radians lon1)
                         (radians lat2) (radians lon2))) as [Hl Hu].
    split; nra.
Qed.

(** A point and its opposite, with the sum rounded up. *)
Lemma calcular_distancia_haversine_domain_witness :
  Float.calcular_distancia_haversine rounded_up_ops
    32.022791 (-119.086340) (-32.022791) 60.913660
  = Raise ValueError.
Proof.
  apply (calcular_distancia_haversine_domain rounded_up_ops
           32.022791 (-119.086340) (-32.022791) 60.913660).
  right. cbn [rounded_up_ops f_radians f_sub].
  replace (-32.022791) with (Ropp 32.022791) by lra.
  replace 60.913660 with (-119.086340 + 180) by lra.
  rewrite haversine_a_antipodes.
  assert (0 < / 2 ^ 52) by (apply Rinv_0_lt_compat; lra). lra.
Defined.

Local Close Scope R_scope.

(** *** More on name normalisation *)

Lemma lstrip_app_spaces ws t :
  forallb isspace ws = true -> lstrip (ws ++ t) = lstrip t.
Proof.
  induction ws as [|c ws IH]; [done|]. simpl.
  intros [Hc Hws]%andb_true_iff. rewrite Hc. by apply IH.
Qed.

Lemma lstrip_nil_spaces s : lstrip s = [] -> forallb isspace s = true.
Proof.
  induction s as [|c s IH]; [done|]. simpl.
  destruct (isspace c); [exact IH|done].
Qed.

Lemma lstrip_app_word s t : lstrip s <> [] -> lstrip (s ++ t) = lstrip s ++ t.
Proof.
  induction s as [|c s IH]; [done|]. simpl.
  destruct (isspace c); [exact IH|done].
Qed.

Lemma strip_surrounded ws1 s ws2 :
  forallb isspace ws1 = true -> forallb isspace ws2 = true ->
  strip (ws1 ++ s ++ ws2) = strip s.
Proof.
  intros H1 H2. unfold strip. rewrite lstrip_app_spaces by done.
  destruct (lstrip s) as [|c u] eqn:Hs.
  - apply lstrip_nil_spaces in Hs.
    rewrite lstrip_app_spaces, (lstrip_spaces ws2) by done. done.
  - rewrite lstrip_app_word, Hs by (rewrite Hs; done).
    rewrite rev_app_distr, lstrip_app_spaces; [done|].
    rewrite forallb_forall in *. intros x Hx%in_rev. by apply H2.
Qed.

Lemma join_words_chars ws :
  Forall word ws ->
  Forall (fun c => isspace c = true -> c = SPACE) (join SPACE ws).
Proof.
  induction 1 as [|w ws [_ Hw] Hws IH]; [constructor|].
  assert (Hw' : Forall (fun c => isspace c = true -> c = SPACE) w).
  { eapply Forall_impl; [exact Hw|]. intros c Hc Hs. congruence. }
  destruct ws as [|w' ws']; [done|].
  change (join SPACE (w :: w' :: ws'))
    with (w ++ SPACE :: join SPACE (w' :: ws')).
  apply Forall_app. split; [done|]. by constructor.
Qed.

(** X4. Whatever the Unicode tables, a name that [normalize_name] returns is
    in a normal form for white space: stripping it or splitting and joining
    it again changes nothing, and its only white space characters are single
    spaces between words. It returns [None] only for a missing value. *)
Theorem normalize_name_whitespace_normal T (v : cell) :
  match normalize_name T v with
  | Some r =>
      strip r = r /\ join SPACE (split r) = r /\
      Forall (fun c => isspace c = true -> c = SPACE) r
  | None => isna v = true
  end.
Proof.
  destruct v as [| |s]; [done..|]. cbn [normalize_name].
  set (ws := split _). assert (Hws : Forall word ws) by apply split_words.
  split; [by apply strip_join|]. split; [by rewrite split_join|].
  by apply join_words_chars.
Qed.

(** X5. White space around a name does not change its normal form. *)
Theorem normalize_name_ignores_surrounding_space T ws1 s ws2 :
  forallb isspace ws1 = true -> forallb isspace ws2 = true ->
  normalize_name T (CStr (ws1 ++ s ++ ws2)) = normalize_name T (CStr s).
Proof.
  intros H1 H2. cbn [normalize_name]. by rewrite strip_surrounded.
Qed.

(** A tab and a space before "Arsenal", a no-break space and a line feed
    after it. *)
Lemma normalize_name_ignores_surrounding_space_witness :
  normalize_name ucd (CStr ([9; 32] ++ cps "Arsenal" ++ [160; 10])%N)
  = normalize_name ucd (CStr (cps "Arsenal")).
Proof.
  apply (normalize_name_ignores_surrounding_space ucd); reflexivity.
Defined.

(** *** More on the travel analytics *)

Lemma stadiums_dict_snoc T st row :
  stadiums_dict T (st ++ [row])
  = <[normalize_name T (st_team row)
      := ((st_lat row / 1000000)%R, (st_lon row / 1000000)%R)]>
    (stadiums_dict T st).
Proof. unfold stadiums_dict. by rewrite fold_left_app. Qed.

Lemma stadiums_dict_keys T st k :
  is_Some (stadiums_dict T st !! k)
  <-> exists row, row ∈ st /\ normalize_name T (st_team row) = k.
Proof.
  induction st as [|row st IH] using rev_ind.
  { split; [by intros [? ?]|]. by intros (row & ?%elem_of_nil & _). }
  rewrite stadiums_dict_snoc.
  destruct (decide (normalize_name T (st_team row) = k)) as [<-|Hne].
  - rewrite lookup_insert_eq. split; [|by eexists].
    intros _. exists row. split; [|done]. apply elem_of_app. right. by left.
  - rewrite lookup_insert_ne, IH by done. split.
    + intros (r & Hr & Hk). exists r. split; [|done]. apply elem_of_app. by left.
    + intros (r & [Hr|Hr%list_elem_of_singleton]%elem_of_app & Hk);
        [by exists r|congruence].
Qed.

(** X6. The stadium dictionary has a key for the normalised name of every
    row of the sheet and for nothing else, and under the name of a row
    stands the position of the last row with that normalised name, in
    degrees. *)
Theorem stadiums_dict_lookup T st1 row st2 :
  (forall r, r ∈ st2 ->
     normalize_name T (st_team r) <> normalize_name T (st_team row)) ->
  stadiums_dict T (st1 ++ row :: st2) !! normalize_name T (st_team row)
  = Some ((st_lat row / 1000000)%R, (st_lon row / 1000000)%R) /\
  (forall k,
     stadiums_dict T (st1 ++ row :: st2) !! k = None <->
     forall r, r ∈ st1 ++ row :: st2 -> normalize_name T (st_team r) <> k).
Proof.
  intros Hlast. split.
  - induction st2 as [|r st2 IH] using rev_ind.
    + by rewrite stadiums_dict_snoc, lookup_insert_eq.
    + rewrite app_comm_cons, app_assoc, stadiums_dict_snoc.
      rewrite lookup_insert_ne.
      * apply IH. intros r' Hr'. apply Hlast, elem_of_app. by left.
      * apply Hlast, elem_of_app. right. by left.
  - intros k. rewrite eq_None_not_Some, stadiums_dict_keys. split.
    + intros Hno r Hr Hk. apply Hno. by exists r.
    + intros Hno (r & Hr & Hk). by apply (Hno r).
Qed.

Lemma stadiums_dict_lookup_witness :
  stadiums_dict ucd (ex_stadiums ++ {| st_team := CStr (cps " arsenal");
                                       st_lat := 51555000;
                                       st_lon := -108000 |} :: [])
    !! Some (cps "arsenal")
  = Some ((51555000 / 1000000)%R, (-108000 / 1000000)%R).
Proof.
  apply (stadiums_dict_lookup ucd ex_stadiums
           {| st_team := CStr (cps " arsenal");
              st_lat := 51555000; st_lon := -108000 |} []).
  by intros r Hr%elem_of_nil.
Defined.

(** X7. [match_distance] returns a distance only when both names are present
    and are keys of the stadium dictionary (the converse needs more: the
    coordinates stored under the two keys must be numbers, and a blank
    coordinate cell of the sheet is not one), and swapping home and away does
    not change what it returns. *)
Theorem match_distance_defined_symmetric dict (h a : option str) :
  (is_Some (match_distance dict (h, a)) ->
   exists hn an, h = Some hn /\ a = Some an /\
                 is_Some (dict !! h) /\ is_Some (dict !! a)) /\
  match_distance dict (h, a) = match_distance dict (a, h).
Proof.
  unfold match_distance. cbn [fst snd]. split.
  - intros Hs. destruct h as [hn|], a as [an|];
      try (by destruct Hs).
    exists hn, an.
    destruct (dict !! Some hn) as [hc|], (dict !! Some an) as [ac|];
      first [by destruct Hs | repeat split; by eexists].
  - destruct h as [hn|], a as [an|]; try done.
    destruct (dict !! Some hn) as [hc|], (dict !! Some an) as [ac|]; try done.
    f_equal. rewrite !haversine_km_a.
    by rewrite (haversine_a_sym (radians ac.1)).
Qed.

(** The sum of a column of counts. *)
Definition sum_nat (l : list nat) : nat := fold_right Nat.add 0 l.

Lemma sum_nat_app l1 l2 : sum_nat (l1 ++ l2) = sum_nat l1 + sum_nat l2.
Proof. induction l1 as [|n l1 IH]; simpl; [done|]. rewrite IH. lia. Qed.

Lemma insert_desc_n_matches r l :
  sum_nat (map n_matches (insert_desc r l))
  = n_matches r + sum_nat (map n_matches l).
Proof.
  induction l as [|r' l IH]; simpl; [done|].
  destruct (Rlt_dec (total_travel_km r') (total_travel_km r)); simpl; [done|].
  rewrite IH. lia.
Qed.

Lemma sort_values_n_matches l :
  sum_nat (map n_matches (sort_values l)) = sum_nat (map n_matches l).
Proof.
  induction l as [|r l IH]; simpl; [done|].
  unfold sort_values in *. simpl. by rewrite insert_desc_n_matches, IH.
Qed.

Definition matched (dict : gmap (option str) (R * R))
    (row : option str * option str) : bool :=
  match match_distance dict row with
  | Some _ => true
  | None => false
  end.

Lemma count_group_column_cons dict row rows k :
  count (group_column dict (row :: rows) k)
  = (if bool_decide (row.2 = Some k) && matched dict row then 1 else 0)
    + count (group_column dict rows k).
Proof.
  unfold count, group_column, matched. cbn [List.filter].
  case_bool_decide; simpl; [|done].
  by destruct (match_distance dict row).
Qed.

Lemma sum_indicator (ks : list str) (k0 : str) (b : bool) :
  NoDup ks ->
  sum_nat (map (fun k => if bool_decide (Some k0 = Some k) && b then 1 else 0)
               ks)
  = if bool_decide (k0 ∈ ks) && b then 1 else 0.
Proof.
  induction 1 as [|k ks Hk Hnd IH]; simpl; [done|]. rewrite IH.
  destruct (decide (k0 = k)) as [->|Hne].
  - rewrite (bool_decide_eq_true_2 (Some k = Some k)) by done.
    rewrite (bool_decide_eq_false_2 (k ∈ ks)) by done.
    rewrite (bool_decide_eq_true_2 (k ∈ k :: ks)) by left.
    simpl. by destruct b.
  - rewrite (bool_decide_eq_false_2 (Some k0 = Some k)) by congruence.
    simpl. destruct (decide (k0 ∈ ks)) as [Hin|Hout].
    + rewrite !bool_decide_eq_true_2; [done|by right|done].
    + rewrite !bool_decide_eq_false_2; [done| |done].
      intros [?|?]%elem_of_cons; done.
Qed.

Lemma sum_nat_map_add {A} (f g : A -> nat) l :
  sum_nat (map (fun a => f a + g a) l)
  = sum_nat (map f l) + sum_nat (map g l).
Proof. induction l as [|a l IH]; simpl; [done|]. rewrite IH. lia. Qed.

(** Over distinct keys that cover the rows, the counts of the groups add up
    to the number of matched rows. *)
Lemma sum_counts dict rows (ks : list str) :
  NoDup ks ->
  (forall k, In (Some k) (map snd rows) -> k ∈ ks) ->
  sum_nat (map (fun k => count (group_column dict rows k)) ks)
  = length (List.filter (matched dict) rows).
Proof.
  intros Hnd. induction rows as [|row rows IH]; intros Hks.
  { clear. induction ks as [|k ks IHk]; [done|]. exact IHk. }
  rewrite (map_ext _ _ (count_group_column_cons dict row rows)).
  rewrite sum_nat_map_add, IH by (intros k Hk; apply Hks; by right).
  cbn [List.filter]. destruct row as [h [k0|]]; cbn [snd].
  - rewrite (sum_indicator ks k0 (matched dict (h, Some k0)) Hnd).
    rewrite bool_decide_eq_true_2 by (apply Hks; by left).
    by destruct (matched dict (h, Some k0)).
  - assert (Hm : matched dict (h, None) = false).
    { unfold matched, match_distance. by destruct h. }
    rewrite Hm. clear. induction ks as [|k ks IH]; [done|].
    cbn [map sum_nat fold_right] in *. rewrite andb_false_r. exact IH.
Qed.

Lemma sorted_keys_NoDup ks : sorted_keys ks -> NoDup ks.
Proof.
  induction 1 as [|k ks Hs IH Hk]; constructor; [|done].
  intros Hin%list_elem_of_In. rewrite List.Forall_forall in Hk.
  specialize (Hk _ Hin). by rewrite str_ltb_irrefl in Hk.
Qed.

(** X8. The column [n_matches] of the report adds up to the number of
    records of the calendar less the excluded ones: every record is counted
    once in the line of its away team, or excluded. *)
Theorem n_matches_and_excluded T stadiums matches :
  sum_nat (map n_matches (agg_sorted (analytics T stadiums matches)))
  + excluded T stadiums matches
  = length matches.
Proof.
  unfold analytics, excluded. cbn [agg_sorted].
  rewrite sort_values_n_matches. unfold agg. rewrite map_map. cbn [n_matches].
  set (rows := map (norm_row T) matches).
  rewrite (sum_counts (stadiums_dict T stadiums) rows).
  - replace (length matches) with (length rows) by apply length_map.
    unfold matched. clear. induction rows as [|row rows IH]; simpl; [done|].
    destruct (match_distance (stadiums_dict T stadiums) row); simpl; lia.
  - apply sorted_keys_NoDup, group_keys_sorted.
  - intros k Hk. by apply list_elem_of_In, group_keys_In.
Qed.

Lemma insert_desc_In r r' l : In r' (insert_desc r l) <-> r' = r \/ In r' l.
Proof.
  induction l as [|r0 l IH]; simpl; [intuition congruence|].
  destruct (Rlt_dec (total_travel_km r0) (total_travel_km r)); simpl;
    [intuition congruence|].
  rewrite IH. intuition congruence.
Qed.

Lemma sort_values_In r l : In r (sort_values l) <-> In r l.
Proof.
  induction l as [|r0 l IH]; simpl; [done|].
  unfold sort_values in *. simpl. rewrite insert_desc_In, IH.
  intuition congruence.
Qed.

Lemma round2_0 : round2 0 = 0%R.
Proof.
  unfold round2, round_half_even.
  replace (0 * 100)%R with 0%R by ring.
  assert (Hi : Int_part 0 = 0%Z).
  { symmetry. apply Int_part_spec. simpl. lra. }
  rewrite fp_R0, Hi.
  destruct (Rlt_dec 0 (1 / 2)) as [_|Hn]; [|lra].
  simpl. lra.
Qed.

(** X9. The report has a line for an away team exactly when a record of the
    calendar names it; a team none of whose records is matched still has its
    line, with total 0 and no match counted. *)
Theorem report_lines T stadiums matches k :
  ((exists line, In line (agg_sorted (analytics T stadiums matches)) /\
                 away_norm line = k)
   <-> exists m, In m matches /\ normalize_name T (away m) = Some k) /\
  ((forall m, In m matches -> normalize_name T (away m) = Some k ->
      unmatched (stadiums_dict T stadiums) (norm_row T m)) ->
   forall line, In line (agg_sorted (analytics T stadiums matches)) ->
     away_norm line = k ->
     total_travel_km line = 0%R /\ n_matches line = 0).
Proof.
  unfold analytics. cbn [agg_sorted].
  set (dict := stadiums_dict T stadiums).
  set (rows := map (norm_row T) matches).
  assert (Hkeys : forall k', In k' (group_keys (map snd rows)) <->
            exists m, In m matches /\ normalize_name T (away m) = Some k').
  { intros k'. rewrite group_keys_In. unfold rows. rewrite map_map.
    rewrite in_map_iff. split; intros (m & Hm & Hin); by exists m. }
  split.
  - rewrite <- Hkeys. split.
    + intros (line & Hin & <-).
      apply (proj1 (sort_values_In _ _)) in Hin. unfold agg in Hin.
      apply in_map_iff in Hin as (k' & <- & Hk'). done.
    + intros Hk. eexists. split; [apply sort_values_In, in_map_iff|];
        [by exists k|done].
  - intros Hun line Hin Hline.
    apply (proj1 (sort_values_In _ _)) in Hin. unfold agg in Hin.
    apply in_map_iff in Hin as (k' & <- & Hk'). cbn in Hline. subst k'.
    cbn [total_travel_km n_matches].
    assert (Hcol : Forall (fun o => o = None) (group_column dict rows k)).
    { unfold group_column, rows. apply Forall_forall. intros o Ho.
      apply list_elem_of_In, in_map_iff in Ho as (row & <- & Hrow).
      apply filter_In in Hrow as [Hrow Hk%bool_decide_eq_true_1].
      apply in_map_iff in Hrow as (m & <- & Hm).
      apply match_distance_nan, Hun; done. }
    clear -Hcol. induction Hcol as [|o col -> _ IH].
    + split; [apply round2_0|done].
    + unfold nansum, count in *. simpl. exact IH.
Qed.

(** The calendar of one match whose home team has no stadium. *)
Lemma report_lines_witness :
  Forall (fun line => total_travel_km line = 0%R /\ n_matches line = 0)
         (agg_sorted (analytics ucd ex_stadiums [ex_match])).
Proof.
  apply List.Forall_forall. intros line Hin.
  destruct (report_lines ucd ex_stadiums [ex_match] (away_norm line))
    as [_ Hzero].
  apply Hzero; [|exact Hin|reflexivity].
  intros m [<-|[]] _. exact ex_match_unmatched.
Defined.

(** *** Loading the teams *)

Lemma iterrows_snoc df row :
  iterrows (df ++ [row]) = iterrows df ++ [(length df, row)].
Proof.
  unfold iterrows, range. rewrite length_app, Nat.add_1_r, seq_S. simpl.
  by rewrite zip_with_app by (by rewrite length_seq).
Qed.

Lemma llegir_dades_excel_snoc df row :
  llegir_dades_excel (df ++ [row])
  = equips ← llegir_dades_excel df;
    codi ← getitem paisos_map (f_Pais row);
    Ok (<[length df := equip_de_fila row codi]> equips).
Proof.
  unfold llegir_dades_excel. rewrite iterrows_snoc, for_each_app.
  destruct (for_each (iterrows df) _ ∅) as [equips|e]; simpl; [|done].
  by destruct (getitem paisos_map (f_Pais row)).
Qed.

(** The country codes of the table. *)
Lemma paisos_map_codes c : is_Some (paisos_map !! c) <-> (1 <= c <= 16)%Z.
Proof.
  split.
  - intros [s Hs]. destruct (decide (1 <= c <= 16)%Z) as [|Hout]; [done|].
    assert (Hnone : paisos_map !! c = None); [|congruence].
    apply not_elem_of_list_to_map_1. cbn.
    repeat (apply not_elem_of_cons; split; [lia|]). apply not_elem_of_nil.
  - intros Hc.
    assert (c = 1 \/ c = 2 \/ c = 3 \/ c = 4 \/ c = 5 \/ c = 6 \/ c = 7 \/
            c = 8 \/ c = 9 \/ c = 10 \/ c = 11 \/ c = 12 \/ c = 13 \/
            c = 14 \/ c = 15 \/ c = 16)%Z as Hcases by lia.
    repeat (destruct Hcases as [->|Hcases]; [by eexists|]).
    subst c. by eexists.
Qed.

(** What the loop has stored after the rows [df]. *)
Definition carregat (df : list fila) (equips : gmap nat team) : Prop :=
  size equips = length df /\
  forall i, equips !! i
            = (row ← df !! i; codi ← paisos_map !! f_Pais row;
               Some (equip_de_fila row codi)).

Lemma llegir_dades_excel_spec df :
  match llegir_dades_excel df with
  | Ok equips =>
      carregat df equips /\
      Forall (fun row => is_Some (paisos_map !! f_Pais row)) df
  | Raise e =>
      e = KeyError /\ Exists (fun row => paisos_map !! f_Pais row = None) df
  end.
Proof.
  induction df as [|row df IH] using rev_ind.
  { cbn. split; [|constructor]. split; [apply map_size_empty|].
    intros i. by rewrite lookup_empty. }
  rewrite llegir_dades_excel_snoc.
  destruct (llegir_dades_excel df) as [equips|e]; simpl.
  - destruct IH as [[Hsize Hlook] Hall]. unfold getitem.
    destruct (paisos_map !! f_Pais row) as [codi|] eqn:Hc; simpl.
    + split; [split|].
      * rewrite map_size_insert_None, length_app, Hsize; [simpl; lia|].
        rewrite Hlook, (proj2 (lookup_ge_None df (length df))) by lia. done.
      * intros i. destruct (decide (i = length df)) as [->|Hne].
        -- rewrite lookup_insert_eq, list_lookup_middle by done. simpl.
           by rewrite Hc.
        -- rewrite lookup_insert_ne, Hlook by done.
           destruct (decide (i < length df)) as [Hlt|Hge].
           ++ by rewrite lookup_app_l by done.
           ++ rewrite (proj2 (lookup_ge_None df i)) by lia.
              rewrite (proj2 (lookup_ge_None (df ++ [row]) i)); [done|].
              rewrite length_app. simpl. lia.
      * apply Forall_app. split; [done|]. constructor; [by eexists|constructor].
    + split; [done|]. apply Exists_app. right. by constructor.
  - destruct IH as [-> Hex]. split; [done|]. apply Exists_app. by left.
Qed.

Lemma carregat_dense df equips : carregat df equips -> dense equips.
Proof.
  intros [Hsize Hlook] i Hi. rewrite Hsize in Hi.
  destruct (lookup_lt_is_Some_2 df i Hi) as [row Hrow].
  destruct (decide (is_Some (equips !! i))) as [|Hnone]; [done|].
  apply eq_None_not_Some in Hnone.
  assert (Hin : is_Some (equips !! i)); [|by rewrite Hnone in Hin; destruct Hin].
  clear Hnone. rewrite Hlook, Hrow. simpl.
  destruct (paisos_map !! f_Pais row) eqn:Hc; [by eexists|].
  (* the row was stored, so its code is in the table *)
  exfalso.
  assert (Hcount : size equips <= length df - 1); [|lia].
  assert (Hsub : dom equips ⊆ (set_seq 0 (length df) : gset nat) ∖ {[ i ]}).
  { intros j Hj%elem_of_dom. apply elem_of_difference. split.
    - apply elem_of_set_seq. split; [lia|]. simpl.
      destruct (decide (j < length df)) as [|Hge]; [done|].
      rewrite Hlook, (proj2 (lookup_ge_None df j)) in Hj by lia.
      by destruct Hj.
    - intros ->%elem_of_singleton. rewrite Hlook, Hrow in Hj. simpl in Hj.
      rewrite Hc in Hj. by destruct Hj. }
  apply subseteq_size in Hsub. rewrite size_dom in Hsub.
  rewrite size_difference in Hsub.
  - rewrite size_set_seq, size_singleton in Hsub. lia.
  - intros j ->%elem_of_singleton. apply elem_of_set_seq. lia.
Qed.

(** X10. When every country code of the sheet is between 1 and 16,
    [llegir_dades_excel] returns a dictionary with the keys [0 .. n-1], one
    per row, and row [i] gives team [i] its names, its coordinates divided
    by a million, its country abbreviation and its pot; the pot is not
    checked. *)
Theorem llegir_dades_excel_loads df :
  Forall (fun row => (1 <= f_Pais row <= 16)%Z) df ->
  exists equips,
    llegir_dades_excel df = Ok equips /\
    size equips = length df /\ dense equips /\
    forall i row, df !! i = Some row ->
      exists codi,
        paisos_map !! f_Pais row = Some codi /\
        equips !! i = Some (equip_de_fila row codi).
Proof.
  intros Hcodes. pose proof (llegir_dades_excel_spec df) as Hspec.
  destruct (llegir_dades_excel df) as [equips|e].
  - destruct Hspec as [Hload Hall]. exists equips. split; [done|].
    split; [apply Hload|]. split; [by apply (carregat_dense df)|].
    intros i row Hrow. destruct Hload as [_ Hlook].
    rewrite Forall_forall in Hall.
    destruct (Hall row) as [codi Hc]; [apply list_elem_of_lookup; eauto|].
    exists codi. split; [done|]. rewrite Hlook, Hrow. simpl. by rewrite Hc.
  - destruct Hspec as [_ Hex]. apply Exists_exists in Hex as (row & Hin & Hc).
    rewrite Forall_forall in Hcodes. specialize (Hcodes row Hin).
    apply paisos_map_codes in Hcodes as [? ?]. congruence.
Qed.

(** A sheet of two rows. *)
Definition ex_df2 : list fila :=
  [ {| f_Equip := "Barcelona"; f_Estadi := "Camp Nou";
       f_Latitud := 41380896; f_Longitud := 2122820;
       f_Pais := 1; f_Pot := 1 |};
    {| f_Equip := "Arsenal"; f_Estadi := "Emirates Stadium";
       f_Latitud := 51554888; f_Longitud := -108438;
       f_Pais := 3; f_Pot := 2 |} ].

Lemma llegir_dades_excel_loads_witness :
  exists equips,
    llegir_dades_excel ex_df2 = Ok equips /\ size equips = 2 /\
    (pais <$> equips !! 1) = Some "ENG".
Proof.
  destruct (llegir_dades_excel_loads ex_df2) as (equips & Hl & Hs & _ & Hrows).
  { repeat constructor; cbn; lia. }
  exists equips. split; [exact Hl|]. split; [exact Hs|].
  destruct (Hrows 1 _ eq_refl) as (codi & Hc & ->).
  cbn in Hc. injection Hc as <-. reflexivity.
Defined.

(** X11. A row whose country code is not between 1 and 16 makes
    [llegir_dades_excel] raise [KeyError]: no team of the sheet is
    returned, the rows before it included. *)
Theorem llegir_dades_excel_unknown_country df i row :
  df !! i = Some row -> ~ (1 <= f_Pais row <= 16)%Z ->
  llegir_dades_excel df = Raise KeyError.
Proof.
  intros Hrow Hcode. pose proof (llegir_dades_excel_spec df) as Hspec.
  destruct (llegir_dades_excel df) as [equips|e].
  - destruct Hspec as [_ Hall]. rewrite Forall_forall in Hall.
    destruct Hcode. apply paisos_map_codes, Hall, list_elem_of_lookup. eauto.
  - by destruct Hspec as [-> _].
Qed.

Definition ex_fila_17 : fila :=
  {| f_Equip := "Celtic"; f_Estadi := "Celtic Park";
     f_Latitud := 55849711; f_Longitud := -4205589;
     f_Pais := 17; f_Pot := 4 |}.

Lemma llegir_dades_excel_unknown_country_witness :
  llegir_dades_excel (ex_df2 ++ [ex_fila_17]) = Raise KeyError.
Proof.
  apply (llegir_dades_excel_unknown_country (ex_df2 ++ [ex_fila_17]) 2
           ex_fila_17 eq_refl).
  cbn. lia.
Defined.

(** *** More on the distance matrix and on the model *)

Lemma crear_cell_Raise fl equips i j (m : list (list R)) e :
  (if decide (i ≠ j) then
     ti ← getitem equips i;
     let lat1 := lat ti in
     let lon1 := lon ti in
     tj ← getitem equips j;
     let lat2 := lat tj in
     let lon2 := lon tj in
     d ← Float.calcular_distancia_haversine fl lat1 lon1 lat2 lon2;
     Ok (alter (fun row => <[j := d]> row) i m)
   else Ok m) = Raise e ->
  i ≠ j /\
  ((e = KeyError /\ (equips !! i = None \/ equips !! j = None)) \/
   (e = ValueError /\
    exists ti tj,
      equips !! i = Some ti /\ equips !! j = Some tj /\
      Float.calcular_distancia_haversine fl (lat ti) (lon ti) (lat tj) (lon tj)
      = Raise ValueError)).
Proof.
  destruct (decide (i ≠ j)) as [Hne|]; [|done]. unfold getitem.
  remember (Float.calcular_distancia_haversine fl) as calc eqn:Hcalc.
  destruct (equips !! i) as [ti|]; simpl; [|intros [= <-]; auto].
  destruct (equips !! j) as [tj|]; simpl; [|intros [= <-]; auto].
  pose proof (calcular_distancia_haversine_raises fl (lat ti) (lon ti)
                (lat tj) (lon tj)) as Hr.
  rewrite <- Hcalc in Hr.
  destruct (calc (lat ti) (lon ti) (lat tj) (lon tj)) as [d|e'] eqn:Hd;
    simpl; [done|].
  destruct Hr as [-> _]. intros [= <-]. split; [done|]. right.
  split; [done|]. by exists ti, tj.
Qed.

(** What [crear_matriu_distancies] has written after the cells [l]. *)
Definition distancies_calculades (fl : float_ops) (equips : gmap nat team)
    (l : list var) (m : list (list R)) : Prop :=
  square (size equips) m /\
  forall i j, i < size equips -> j < size equips ->
    if decide ((i, j) ∈ l /\ i ≠ j) then
      exists ti tj d,
        equips !! i = Some ti /\ equips !! j = Some tj /\
        Float.calcular_distancia_haversine fl (lat ti) (lon ti)
                                           (lat tj) (lon tj) = Ok d /\
        entry m i j = Some d
    else entry m i j = Some 0%R.

Lemma crear_matriu_distancies_calculades fl equips dist :
  Float.crear_matriu_distancies fl equips = Ok dist ->
  distancies_calculades fl equips (LpVariable_dicts (size equips)) dist.
Proof.
  unfold Float.crear_matriu_distancies. rewrite for_each_nested.
  apply (for_each_Ok_inv (distancies_calculades fl equips)).
  - split; [apply square_replicate|]. intros i j Hi Hj.
    rewrite decide_False by (intros [[]%elem_of_nil _]).
    by apply entry_replicate.
  - intros l1 [i0 j0] m1 m2 [Hi0 Hj0]%elem_of_cells [Hsq Hm1] Hbody.
    cbn [fst snd] in Hbody.
    destruct (decide (i0 ≠ j0)) as [Hne|Heq].
    + destruct (equips !! i0) as [ti|] eqn:Hti;
        [|by unfold getitem in Hbody; rewrite Hti in Hbody].
      destruct (equips !! j0) as [tj|] eqn:Htj;
        [|by unfold getitem in Hbody; rewrite Hti, Htj in Hbody].
      unfold getitem in Hbody. rewrite Hti, Htj in Hbody. simpl in Hbody.
      destruct (Float.calcular_distancia_haversine fl (lat ti) (lon ti)
                  (lat tj) (lon tj)) as [d|e] eqn:Hd; simpl in Hbody; [|done].
      injection Hbody as <-.
      split; [by apply square_set_entry|]. intros i j Hi Hj.
      fold (set_entry i0 j0 d m1).
      rewrite (entry_set_entry (size equips)) by done.
      specialize (Hm1 i j Hi Hj).
      destruct (decide (i0 = i /\ j0 = j)) as [[<- <-]|Hother].
      * rewrite decide_True by (split; [apply elem_of_app; right; by left|done]).
        exists ti, tj, d. by rewrite Hti, Htj.
      * destruct (decide ((i, j) ∈ l1 /\ i ≠ j)) as [[Hin Hij]|Hout].
        -- rewrite decide_True by (split; [apply elem_of_app; by left|done]).
           done.
        -- rewrite decide_False; [done|].
           intros [[Hin|Hin%list_elem_of_singleton]%elem_of_app Hij];
             [tauto|]. injection Hin as -> ->. tauto.
    + injection Hbody as <-. split; [done|]. intros i j Hi Hj.
      specialize (Hm1 i j Hi Hj).
      destruct (decide ((i, j) ∈ l1 /\ i ≠ j)) as [[Hin Hij]|Hout].
      * rewrite decide_True by (split; [apply elem_of_app; by left|done]).
        done.
      * rewrite decide_False; [done|].
        intros [[Hin|Hin%list_elem_of_singleton]%elem_of_app Hij]; [tauto|].
        injection Hin as -> ->. apply Heq. done.
Qed.

(** The function raises [KeyError] for a missing key and [ValueError] for a
    pair whose distance raises it, and nothing else. *)
Lemma crear_matriu_distancies_Raise fl equips e :
  Float.crear_matriu_distancies fl equips = Raise e ->
  1 < size equips /\
  ((e = KeyError /\ ~ dense equips) \/
   (e = ValueError /\
    exists i j ti tj,
      i < size equips /\ j < size equips /\ i ≠ j /\
      equips !! i = Some ti /\ equips !! j = Some tj /\
      Float.calcular_distancia_haversine fl (lat ti) (lon ti) (lat tj) (lon tj)
      = Raise ValueError)).
Proof.
  unfold Float.crear_matriu_distancies. rewrite for_each_nested.
  intros ([i j] & m & [Hi Hj]%elem_of_cells & Hb)%for_each_Raise_inv.
  cbn [fst snd] in Hb.
  apply crear_cell_Raise in Hb as (Hne & [(-> & Hmiss)|(-> & Hpair)]).
  - split; [lia|]. left. split; [done|]. intros Hd.
    destruct (Hd i Hi) as [? ?], (Hd j Hj) as [? ?].
    destruct Hmiss; congruence.
  - split; [lia|]. right. split; [done|].
    destruct Hpair as (ti & tj & Hti & Htj & Hr). by exists i, j, ti, tj.
Qed.

(** With the keys [0 .. N-1] and distances that are all computed, the
    matrix is returned, and it has an entry for every pair. *)
Lemma crear_matriu_distancies_Ok fl equips :
  dense equips ->
  (forall i j ti tj,
     i < size equips -> j < size equips -> i ≠ j ->
     equips !! i = Some ti -> equips !! j = Some tj ->
     exists d,
       Float.calcular_distancia_haversine fl (lat ti) (lon ti)
                                          (lat tj) (lon tj) = Ok d) ->
  exists dists, Float.crear_matriu_distancies fl equips = Ok dists.
Proof.
  intros Hd Hpairs.
  destruct (Float.crear_matriu_distancies fl equips) as [dists|e] eqn:Hc;
    [by eexists|].
  apply crear_matriu_distancies_Raise in Hc
    as (_ & [(_ & Hnd)|(_ & i & j & ti & tj & Hi & Hj & Hne & Hti & Htj & Hr)]);
    [done|].
  destruct (Hpairs i j ti tj Hi Hj Hne Hti Htj) as [d Hok]. congruence.
Qed.

Lemma crear_matriu_distancies_covers fl equips dists :
  Float.crear_matriu_distancies fl equips = Ok dists ->
  square (size equips) dists /\ covers dists (size equips).
Proof.
  intros [Hsq _]%crear_matriu_distancies_calculades. split; [done|].
  intros i j Hi Hj. unfold entry. destruct Hsq as [Hl Hr].
  destruct (lookup_lt_is_Some_2 dists i) as [row Hrow]; [lia|].
  rewrite Hrow. simpl. apply lookup_lt_is_Some_2.
  rewrite Forall_forall in Hr. rewrite (Hr row); [done|].
  apply list_elem_of_lookup. eauto.
Qed.

(** In exact arithmetic it is the function of the first part. *)
Lemma for_each_ext {A S} (l : list A) (f g : A -> S -> result S) s :
  (forall a s, f a s = g a s) -> for_each l f s = for_each l g s.
Proof.
  intros Hfg. revert s. induction l as [|a l IH]; intros s; [done|].
  simpl. rewrite Hfg. destruct (g a s); simpl; [apply IH|done].
Qed.

Lemma crear_matriu_distancies_exact equips :
  Float.crear_matriu_distancies exact_ops equips
  = crear_matriu_distancies equips.
Proof.
  unfold Float.crear_matriu_distancies, crear_matriu_distancies.
  apply for_each_ext. intros i m. apply for_each_ext. intros j m'.
  destruct (decide (i ≠ j)); [|done].
  destruct (getitem equips i) as [ti|]; simpl; [|done].
  destruct (getitem equips j) as [tj|]; simpl; [|done].
  by rewrite calcular_distancia_haversine_exact.
Qed.

(** X12. With rounded operations, whatever the rounding,
    [crear_matriu_distancies] returns an [N * N] matrix with a zero
    diagonal that holds, off the diagonal, the distance computed for the two
    teams. It raises [KeyError] when a key below [N] is missing and
    [ValueError] when the distance of some pair raises it, always with two
    teams or more, and nothing else; a dictionary of one team is never
    looked up, whatever its key. *)
Theorem crear_matriu_distancies_returns fl equips :
  match Float.crear_matriu_distancies fl equips with
  | Ok dists =>
      (size equips <= 1 \/ dense equips) /\
      square (size equips) dists /\
      (forall i, i < size equips -> entry dists i i = Some 0%R) /\
      forall i j ti tj,
        i < size equips -> j < size equips -> i ≠ j ->
        equips !! i = Some ti -> equips !! j = Some tj ->
        exists d,
          Float.calcular_distancia_haversine fl (lat ti) (lon ti)
                                             (lat tj) (lon tj) = Ok d /\
          entry dists i j = Some d
  | Raise e =>
      1 < size equips /\
      ((e = KeyError /\ ~ dense equips) \/
       (e = ValueError /\
        exists i j ti tj,
          i < size equips /\ j < size equips /\ i ≠ j /\
          equips !! i = Some ti /\ equips !! j = Some tj /\
          Float.calcular_distancia_haversine fl (lat ti) (lon ti)
                                             (lat tj) (lon tj)
          = Raise ValueError))
  end.
Proof.
  destruct (Float.crear_matriu_distancies fl equips) as [dists|e] eqn:Hc.
  - apply crear_matriu_distancies_calculades in Hc as [Hsq Hm].
    split; [|split; [done|split]].
    + destruct (decide (size equips <= 1)) as [|Hbig]; [by left|]. right.
      intros i Hi.
      assert (Hj : exists j, j < size equips /\ i ≠ j).
      { destruct i; [exists 1|exists 0]; lia. }
      destruct Hj as (j & Hj & Hne). specialize (Hm i j Hi Hj).
      rewrite decide_True in Hm by (split; [by apply elem_of_cells|done]).
      destruct Hm as (ti & _ & _ & -> & _). by eexists.
    + intros i Hi. specialize (Hm i i Hi Hi).
      by rewrite decide_False in Hm by tauto.
    + intros i j ti tj Hi Hj Hne Hti Htj. specialize (Hm i j Hi Hj).
      rewrite decide_True in Hm by (split; [by apply elem_of_cells|done]).
      destruct Hm as (ti' & tj' & d & Hti' & Htj' & Hd & He).
      exists d. split; [congruence|done].
  - by apply crear_matriu_distancies_Raise.
Qed.

(** Two teams at opposite points of the globe, and a sum rounded up: the
    [a] of the pair is [1 + 2^-52], as it is in binary64. *)
Definition ex_antipodes : gmap nat team :=
  <[0 := {| nom := "Nord"; estadi := "Camp del Nord";
            lat := 32.022791; lon := -119.086340;
            pais := "ESP"; pot := 1 |}]>
  (<[1 := {| nom := "Sud"; estadi := "Camp del Sud";
             lat := -32.022791; lon := 60.913660;
             pais := "ENG"; pot := 2 |}]> ∅).

Lemma crear_matriu_distancies_returns_witness :
  Float.crear_matriu_distancies rounded_up_ops ex_antipodes
  = Raise ValueError.
Proof.
  pose proof (crear_matriu_distancies_returns rounded_up_ops ex_antipodes)
    as Hr.
  destruct (Float.crear_matriu_distancies rounded_up_ops ex_antipodes)
    as [dists|e].
  - destruct Hr as (_ & _ & _ & Hpairs).
    destruct (Hpairs 0 1 _ _ ltac:(vm_compute; lia) ltac:(vm_compute; lia)
                ltac:(lia) eq_refl eq_refl) as (d & Hd & _).
    cbn [lat lon] in Hd.
    rewrite ex_antipodes_raise in Hd. discriminate.
  - destruct Hr as (_ & [(_ & Hnd)|(-> & _)]); [|done].
    destruct Hnd. intros i Hi.
    assert (size ex_antipodes = 2) as Hs by reflexivity. rewrite Hs in Hi.
    destruct i as [|[|i]]; [by eexists..|lia].
Defined.

(** X13. [optimitzar_lliga_champions] builds its model exactly for a
    well-formed dictionary (keys [0 .. N-1], pots from 1 to 4) and a matrix
    with an entry for every pair. An ill-formed dictionary raises [KeyError]
    whatever the matrix; otherwise a matrix that is too small raises
    [IndexError]. In the model every variable stands once in the objective,
    with its distance as coefficient. *)
Theorem construir_model_returns equips dists :
  (~ wf_equips equips -> construir_model equips dists = Raise KeyError) /\
  (wf_equips equips -> ~ covers dists (size equips) ->
   construir_model equips dists = Raise IndexError) /\
  (wf_equips equips -> covers dists (size equips) ->
   exists model,
     construir_model equips dists
     = Ok (model, LpVariable_dicts (size equips)) /\
     map snd (objective model) = LpVariable_dicts (size equips) /\
     forall d c, (d, c) ∈ objective model -> entry dists c.1 c.2 = Some d).
Proof.
  pose proof (construir_model_spec equips dists) as Hspec.
  split; [|split].
  - intros Hwf. unfold construir_model.
    pose proof (agrupar_spec equips (size equips)) as Hag.
    destruct (agrupar equips (size equips)) as [[pp pc]|e]; simpl.
    + destruct Hwf. intros i Hi. destruct Hag as (Hteams & _).
      apply Hteams, elem_of_seq. lia.
    + by destruct Hag as [-> _].
  - intros Hwf Hcov.
    destruct (construir_model equips dists) as [[model x]|e]; [tauto|].
    destruct Hspec as [[_ ?]|[-> _]]; done.
  - apply construir_model_objective.
Qed.

Lemma ex_equips2_wf : wf_equips ex_equips2.
Proof.
  intros i. rewrite ex_equips2_size. intros Hi.
  destruct i as [|[|i]]; [eexists; split; [reflexivity|cbn; lia]..|lia].
Qed.

(** The two teams with a matrix of one row. *)
Lemma construir_model_returns_witness :
  construir_model ex_equips2 [[0%R; 1138%R]] = Raise IndexError.
Proof.
  destruct (construir_model_returns ex_equips2 [[0%R; 1138%R]])
    as (_ & Hindex & _).
  apply Hindex; [exact ex_equips2_wf|].
  intros Hcov. rewrite ex_equips2_size in Hcov.
  destruct (Hcov 1 0) as [d Hd]; [lia..|discriminate].
Defined.

(** *** What a feasible schedule looks like *)

(** A feasible solution is a 0/1 assignment with the five invariants. *)
Lemma feasible_invariants equips dists model vars x :
  construir_model equips dists = Ok (model, vars) ->
  feasible model vars x ->
  is_assignment equips x /\ valid_assignment equips x.
Proof.
  intros (pp & pc & Hag & _ & -> & Hcs)%construir_model_Ok [Hbin Hsat].
  rewrite Hcs, !Forall_app in Hsat.
  destruct Hsat as (H1 & H2 & H3 & H4 & H5).
  split; [by apply binary_cells|]. unfold valid_assignment.
  split; [by apply family_1_degree|]. split; [by apply family_2_pairing|].
  split; [by apply family_3_exclusion|].
  split; [by apply (family_4_cap equips x pp pc)|].
  by apply (family_5_balance equips x pp pc).
Qed.

Lemma feasible_diagonal equips x i :
  wf_equips equips -> degree equips x -> pot_balance equips x ->
  i < size equips -> x (i, i) = 0%Z.
Proof.
  intros Hwf Hdeg Hpot Hi. destruct (Hdeg i Hi) as [Haway _].
  rewrite (sum_over_pots equips _ i Hwf Hi) in Haway.
  destruct (Hpot i 1%Z Hi) as [H1 _]; [lia|].
  destruct (Hpot i 2%Z Hi) as [H2 _]; [lia|].
  destruct (Hpot i 3%Z Hi) as [H3 _]; [lia|].
  destruct (Hpot i 4%Z Hi) as [H4 _]; [lia|].
  lia.
Qed.

(** The teams of pot [p]. *)
Definition pot_teams (equips : gmap nat team) (p : Z) : list nat :=
  List.filter (fun j => bool_decide (pot_of equips j = Some p))
              (range (size equips)).

Lemma sum_over_nonzero l f :
  sum_over l f ≠ 0%Z -> exists j, j ∈ l /\ f j ≠ 0%Z.
Proof.
  induction l as [|j l IH]; simpl; [done|]. intros Hs.
  destruct (decide (f j = 0%Z)) as [Hz|Hnz].
  - destruct IH as (j' & Hj' & Hf); [lia|]. exists j'. split; [by right|done].
  - exists j. split; [by left|done].
Qed.

Lemma in_pot_but_elem equips p i j :
  j ∈ in_pot_but equips p i <-> j ∈ pot_teams equips p /\ j ≠ i.
Proof.
  unfold in_pot_but, pot_teams. rewrite !elem_of_filter_bool.
  rewrite bool_decide_eq_true, bool_decide_eq_true. tauto.
Qed.

Lemma pot_teams_below equips p j : j ∈ pot_teams equips p -> j < size equips.
Proof. intros [Hj%elem_of_seq _]%elem_of_filter_bool. lia. Qed.

Lemma three_in_pot equips x p :
  is_assignment equips x -> pairing equips x -> pot_balance equips x ->
  0 < size equips -> (1 <= p <= 4)%Z ->
  3 <= length (pot_teams equips p).
Proof.
  intros Hbin Hpair Hpot Hpos Hp.
  (* a team of the pot *)
  destruct (Hpot 0 p Hpos Hp) as [H0 _].
  destruct (sum_over_nonzero _ _ ltac:(rewrite H0; lia)) as (i & Hi & _).
  apply in_pot_but_elem in Hi as [Hi _].
  pose proof (pot_teams_below _ _ _ Hi) as Hilt.
  (* the team it visits and the team it hosts *)
  destruct (Hpot i p Hilt Hp) as [Ha Hb].
  destruct (sum_over_nonzero _ _ ltac:(rewrite Ha; lia)) as (a & Hain & Hxa).
  destruct (sum_over_nonzero _ _ ltac:(rewrite Hb; lia)) as (b & Hbin' & Hxb).
  apply in_pot_but_elem in Hain as [Hain Hai], Hbin' as [Hbin' Hbi].
  pose proof (pot_teams_below _ _ _ Hain) as Halt.
  pose proof (pot_teams_below _ _ _ Hbin') as Hblt.
  assert (Hab : a ≠ b).
  { intros <-. specialize (Hpair i a Hilt Halt ltac:(done)).
    destruct (Hbin i a Hilt Halt), (Hbin a i Halt Hilt); lia. }
  assert (Hsub : [i; a; b] ⊆+ pot_teams equips p).
  { apply NoDup_submseteq.
    - repeat constructor; set_solver.
    - intros j Hj. set_solver. }
  apply submseteq_length in Hsub. simpl in Hsub. lia.
Qed.

Lemma sum_over_ones l : sum_over l (fun _ => 1%Z) = Z.of_nat (length l).
Proof. induction l as [|j l IH]; simpl; [done|]. rewrite IH. lia. Qed.

Lemma teams_by_pot equips :
  wf_equips equips ->
  size equips
  = length (pot_teams equips 1) + length (pot_teams equips 2)
    + length (pot_teams equips 3) + length (pot_teams equips 4).
Proof.
  intros Hwf. apply Nat2Z.inj. rewrite !Nat2Z.inj_add.
  rewrite <- !sum_over_ones. unfold pot_teams. rewrite !sum_over_filter.
  rewrite !sum_over_add.
  replace (Z.of_nat (size equips))
    with (sum_over (range (size equips)) (fun _ => 1%Z))
    by (rewrite sum_over_ones; unfold range; by rewrite length_seq).
  apply sum_over_ext. intros j Hj%elem_of_seq.
  destruct (Hwf j) as (t & Ht & Hp); [lia|].
  unfold pot_of. rewrite Ht. simpl.
  assert (pot t = 1 \/ pot t = 2 \/ pot t = 3 \/ pot t = 4)%Z
    as [Hpt|[Hpt|[Hpt|Hpt]]] by lia; rewrite Hpt;
    repeat first
      [ rewrite bool_decide_eq_true_2 by done
      | rewrite bool_decide_eq_false_2 by (intros [=]) ];
    lia.
Qed.

(** X14. The model of a league that is not empty has a feasible solution
    only if every pot holds at least three teams, twelve teams in all: a
    team visits one team of its own pot and hosts another one. *)
Theorem feasible_three_per_pot equips dists model vars x :
  construir_model equips dists = Ok (model, vars) ->
  feasible model vars x ->
  0 < size equips ->
  (forall p, (1 <= p <= 4)%Z -> 3 <= length (pot_teams equips p)) /\
  12 <= size equips.
Proof.
  intros Hc Hfeas Hpos.
  destruct (feasible_invariants _ _ _ _ x Hc Hfeas)
    as (Hbin & _ & Hpair & _ & _ & Hpot).
  assert (Hthree : forall p, (1 <= p <= 4)%Z ->
            3 <= length (pot_teams equips p)).
  { intros p Hp. by apply (three_in_pot equips x). }
  split; [done|].
  rewrite (teams_by_pot equips (construir_model_wf _ _ _ _ Hc)).
  pose proof (Hthree 1%Z ltac:(lia)). pose proof (Hthree 2%Z ltac:(lia)).
  pose proof (Hthree 3%Z ltac:(lia)). pose proof (Hthree 4%Z ltac:(lia)).
  lia.
Qed.

Lemma feasible_three_per_pot_witness :
  exists model,
    construir_model ex_equips12 ex_dists12 = Ok (model, LpVariable_dicts 12) /\
    feasible model (LpVariable_dicts 12) ex_x12 /\
    3 <= length (pot_teams ex_equips12 2) /\ 12 <= size ex_equips12.
Proof.
  destruct ex_model12 as (model & Hbuild & Hfeas).
  exists model. split; [exact Hbuild|]. split; [exact Hfeas|].
  destruct (feasible_three_per_pot ex_equips12 ex_dists12 model
              (LpVariable_dicts 12) ex_x12 Hbuild Hfeas) as [Hthree Htwelve].
  - vm_compute. lia.
  - split; [apply Hthree; lia|exact Htwelve].
Defined.

Lemma sum_over_count l (f : nat -> Z) :
  (forall j, j ∈ l -> f j = 0%Z \/ f j = 1%Z) ->
  sum_over l f
  = Z.of_nat (length (List.filter (fun j => bool_decide (f j = 1%Z)) l)).
Proof.
  induction l as [|j l IH]; intros Hf; simpl; [done|].
  rewrite IH by (intros j' Hj'; apply Hf; by right).
  destruct (Hf j) as [Hj|Hj]; [by left| |]; rewrite Hj.
  - rewrite bool_decide_eq_false_2 by done. lia.
  - rewrite bool_decide_eq_true_2 by done. simpl. lia.
Qed.

(** X15. In a feasible schedule every team plays eight matches against
    eight different teams, never itself: eight teams [j] have one leg with
    [i], and no team has two. *)
Theorem feasible_eight_opponents equips dists model vars x i :
  construir_model equips dists = Ok (model, vars) ->
  feasible model vars x ->
  i < size equips ->
  length (List.filter (fun j => bool_decide ((x (i, j) + x (j, i))%Z = 1%Z))
                      (range (size equips))) = 8 /\
  (forall j, j < size equips -> (x (i, j) + x (j, i) <= 1)%Z) /\
  x (i, i) = 0%Z.
Proof.
  intros Hc Hfeas Hi.
  destruct (feasible_invariants _ _ _ _ x Hc Hfeas)
    as (Hbin & Hdeg & Hpair & _ & _ & Hpot).
  pose proof (feasible_diagonal equips x i (construir_model_wf _ _ _ _ Hc)
                Hdeg Hpot Hi) as Hdiag.
  assert (Hone : forall j, j < size equips ->
            ((x (i, j) + x (j, i))%Z = 0%Z \/ (x (i, j) + x (j, i))%Z = 1%Z)).
  { intros j Hj. destruct (decide (i = j)) as [<-|Hne]; [lia|].
    specialize (Hpair i j Hi Hj Hne).
    destruct (Hbin i j Hi Hj), (Hbin j i Hj Hi); lia. }
  split; [|split; [|done]].
  - apply Nat2Z.inj. rewrite <- sum_over_count.
    + rewrite <- sum_over_add. destruct (Hdeg i Hi) as [-> ->]. done.
    + intros j Hj%elem_of_seq. apply Hone. lia.
  - intros j Hj. destruct (Hone j Hj); lia.
Qed.

Lemma feasible_eight_opponents_witness :
  exists model,
    construir_model ex_equips12 ex_dists12 = Ok (model, LpVariable_dicts 12) /\
    feasible model (LpVariable_dicts 12) ex_x12 /\
    length (List.filter
              (fun j => bool_decide ((ex_x12 (5%nat, j) + ex_x12 (j, 5%nat))%Z = 1%Z))
              (range (size ex_equips12))) = 8.
Proof.
  destruct ex_model12 as (model & Hbuild & Hfeas).
  exists model. split; [exact Hbuild|]. split; [exact Hfeas|].
  apply (feasible_eight_opponents ex_equips12 ex_dists12 model
           (LpVariable_dicts 12) ex_x12 5 Hbuild Hfeas).
  vm_compute. lia.
Defined.

(** *** From the solver to the matrix *)

(** [int(r)] of a float. *)
Definition int_of_float (r : R) : Z :=
  if Rle_dec 0 r then Int_part r else (- Int_part (- r))%Z.

Lemma py_int_Some r : py_int (Some r) = Ok (int_of_float r).
Proof. reflexivity. Qed.

Lemma convertir_cell_value (x : gmap var (option R)) i j
    (m m' : list (list Z)) :
  (v ← getitem x (i, j); n ← py_int v;
   Ok (alter (fun row => <[j := n]> row) i m)) = Ok m' ->
  exists r, x !! (i, j) = Some (Some r) /\
            m' = set_entry i j (int_of_float r) m.
Proof.
  unfold getitem. destruct (x !! (i, j)) as [[r|]|]; simpl; [|done..].
  intros [= <-]. by exists r.
Qed.

Lemma convertir_entries x N m :
  convertir_variables_a_matriu x N = Ok m ->
  square N m /\
  forall i j, i < N -> j < N ->
    exists r, x !! (i, j) = Some (Some r) /\
              entry m i j = Some (int_of_float r).
Proof.
  unfold convertir_variables_a_matriu. rewrite for_each_nested. intros Hc.
  apply (for_each_Ok_inv
    (fun (l : list var) (m : list (list Z)) =>
       square N m /\
       forall i j, i < N -> j < N -> (i, j) ∈ l ->
         exists r, x !! (i, j) = Some (Some r) /\
                   entry m i j = Some (int_of_float r))) in Hc.
  - destruct Hc as [Hsq Hall]. split; [done|]. intros i j Hi Hj.
    apply Hall; [done..|]. by apply elem_of_cells.
  - split; [apply square_replicate|]. by intros i j _ _ ?%elem_of_nil.
  - intros l1 [i0 j0] m1 m2 [Hi0 Hj0]%elem_of_cells [Hsq Hall] Hb.
    cbn [fst snd] in Hb.
    apply convertir_cell_value in Hb as (r0 & Hr0 & ->).
    split; [by apply square_set_entry|]. intros i j Hi Hj Hin.
    rewrite (entry_set_entry N) by done.
    destruct (decide (i0 = i /\ j0 = j)) as [[<- <-]|Hother].
    + by exists r0.
    + apply elem_of_app in Hin as [Hin|Hin%list_elem_of_singleton].
      * by apply Hall.
      * injection Hin as -> ->. tauto.
Qed.

Lemma list_to_map_values {V} (f : var -> V) (l : list var) k :
  (list_to_map (map (fun v => (v, f v)) l) : gmap var V) !! k
  = if decide (k ∈ l) then Some (f k) else None.
Proof.
  induction l as [|v l IH].
  { destruct (decide (k ∈ [])) as [Hin|_]; [by apply elem_of_nil in Hin|].
    apply lookup_empty. }
  cbn [map]. rewrite list_to_map_cons.
  destruct (decide (v = k)) as [->|Hne].
  - rewrite lookup_insert_eq. by rewrite decide_True by left.
  - rewrite lookup_insert_ne, IH by done.
    destruct (decide (k ∈ l)) as [Hin|Hout].
    + by rewrite decide_True by (by right).
    + rewrite decide_False; [done|]. intros [?|?]%elem_of_cons; congruence.
Qed.

Lemma optimitzar_lliga_champions_Ok PULP_CBC_CMD equips dists evs model st values :
  optimitzar_lliga_champions PULP_CBC_CMD equips dists
  = (evs, Ok (model, st, values)) ->
  construir_model equips dists = Ok (model, LpVariable_dicts (size equips)) /\
  st = status (PULP_CBC_CMD 300%Z model) /\
  values = list_to_map
             (map (fun v => (v, varValue (PULP_CBC_CMD 300%Z model) v))
                  (LpVariable_dicts (size equips))).
Proof.
  unfold optimitzar_lliga_champions.
  destruct (construir_model equips dists) as [[model' x]|e] eqn:Hc; [|done].
  pose proof Hc as (_ & _ & _ & _ & -> & _)%construir_model_Ok.
  destruct (decide (status (PULP_CBC_CMD 300%Z model') = LpStatusOptimal)).
  - destruct (objective_value (objective model')
                (varValue (PULP_CBC_CMD 300%Z model'))); [|done].
    by intros [= _ <- <- <-].
  - by intros [= _ <- <- <-].
Qed.

(** X16. The dictionary of variables that [optimitzar_lliga_champions]
    returns has a key for every pair of teams, so that
    [convertir_variables_a_matriu] applied to it with [N = len(equips)]
    never raises [KeyError]: it returns the matrix of the values the solver
    gave, each cut to an integer, or raises [TypeError] because the solver
    left a variable without a value. *)
Theorem optimitzar_then_convertir PULP_CBC_CMD equips dists evs model st values :
  optimitzar_lliga_champions PULP_CBC_CMD equips dists
  = (evs, Ok (model, st, values)) ->
  match convertir_variables_a_matriu values (size equips) with
  | Ok matriu =>
      square (size equips) matriu /\
      forall i j, i < size equips -> j < size equips ->
        exists r, varValue (PULP_CBC_CMD 300%Z model) (i, j) = Some r /\
                  entry matriu i j = Some (int_of_float r)
  | Raise e =>
      e = TypeError /\
      exists i j, i < size equips /\ j < size equips /\
                  varValue (PULP_CBC_CMD 300%Z model) (i, j) = None
  end.
Proof.
  intros (_ & _ & ->)%optimitzar_lliga_champions_Ok.
  set (sol := PULP_CBC_CMD 300%Z model).
  set (values := list_to_map _).
  assert (Hval : forall i j, i < size equips -> j < size equips ->
            values !! (i, j) = Some (varValue sol (i, j))).
  { intros i j Hi Hj. unfold values. rewrite list_to_map_values.
    by rewrite decide_True by (by apply elem_of_cells). }
  destruct (convertir_variables_a_matriu values (size equips))
    as [matriu|e] eqn:Hc.
  - apply convertir_entries in Hc as [Hsq Hent]. split; [done|].
    intros i j Hi Hj. destruct (Hent i j Hi Hj) as (r & Hr & Hm).
    exists r. split; [|done]. rewrite Hval in Hr by done. congruence.
  - unfold convertir_variables_a_matriu in Hc. rewrite for_each_nested in Hc.
    apply for_each_Raise_inv in Hc as ([i j] & m & [Hi Hj]%elem_of_cells & Hb).
    cbn [fst snd] in Hb.
    apply convertir_cell_Raise in Hb as [[Hb _]|[Hb ->]];
      rewrite Hval in Hb by done; [done|].
    split; [done|]. exists i, j. split; [done|]. split; [done|]. congruence.
Qed.

(** The two teams and the solver that assigns nothing. *)
Lemma optimitzar_then_convertir_witness :
  exists model values,
    optimitzar_lliga_champions cbc_no_solution ex_equips2 ex_dists2
    = ([Solve model 300], Ok (model, (-1)%Z, values)) /\
    convertir_variables_a_matriu values (size ex_equips2) = Raise TypeError.
Proof.
  destruct ex_model2 as [model Hbuild].
  assert (Hopt : exists values,
            optimitzar_lliga_champions cbc_no_solution ex_equips2 ex_dists2
            = ([Solve model 300], Ok (model, (-1)%Z, values))).
  { unfold optimitzar_lliga_champions. rewrite Hbuild. by eexists. }
  destruct Hopt as [values Hopt]. exists model, values. split; [exact Hopt|].
  pose proof (optimitzar_then_convertir cbc_no_solution ex_equips2 ex_dists2
                _ _ _ _ Hopt) as Hconv.
  destruct (convertir_variables_a_matriu values (size ex_equips2))
    as [matriu|e].
  - destruct Hconv as [_ Hent]. rewrite ex_equips2_size in Hent.
    destruct (Hent 0 0) as (r & Hr & _); [lia..|discriminate].
  - by destruct Hconv as [-> _].
Defined.

Lemma int_of_float_floor r n :
  (0 <= r)%R -> (IZR n <= r < IZR n + 1)%R -> int_of_float r = n.
Proof.
  intros Hr Hn. unfold int_of_float.
  destruct (Rle_dec 0 r) as [_|?]; [|done].
  symmetry. apply Int_part_spec. lra.
Qed.

(** X17. The matrix is read with [int], which cuts and does not round: a
    variable whose value lies in [[0, 1)], however close to 1, becomes 0 in
    the matrix, and a value in [[1, 2)] becomes 1. *)
Theorem convertir_variables_a_matriu_truncates x N matriu i j r :
  convertir_variables_a_matriu x N = Ok matriu ->
  i < N -> j < N -> x !! (i, j) = Some (Some r) ->
  ((0 <= r < 1)%R -> entry matriu i j = Some 0%Z) /\
  ((1 <= r < 2)%R -> entry matriu i j = Some 1%Z).
Proof.
  intros [_ Hent]%convertir_entries Hi Hj Hr.
  destruct (Hent i j Hi Hj) as (r' & Hr' & ->).
  assert (r' = r) as -> by congruence.
  split; intros Hrange; f_equal; apply int_of_float_floor; simpl; lra.
Qed.

(** One variable with the value 0.9999999. *)
Lemma convertir_variables_a_matriu_truncates_witness :
  exists matriu,
    convertir_variables_a_matriu {[ (0, 0) := Some 0.9999999%R ]} 1
    = Ok matriu /\
    entry matriu 0 0 = Some 0%Z.
Proof.
  eexists. split; [reflexivity|].
  eapply (convertir_variables_a_matriu_truncates
            {[ (0, 0) := Some 0.9999999%R ]} 1 _ 0 0 0.9999999%R);
    [reflexivity|lia|lia|reflexivity|lra].
Defined.

(** *** The table *)

(** The teams that [i] visits and the teams that [i] hosts, by the matrix. *)
Definition visitats (matriu : list (list Z)) (N i : nat) : list nat :=
  List.filter (fun j => bool_decide (entry matriu i j = Some 1%Z)) (range N).
Definition rebuts (matriu : list (list Z)) (N i : nat) : list nat :=
  List.filter (fun j => bool_decide (entry matriu j i = Some 1%Z)) (range N).

(** One of the two comprehensions, [cell j] being the entry tested. *)
Lemma rivals_spec (matriu : list (list Z)) (equips : gmap nat team)
    (cell : nat -> option Z) (body : nat -> list string -> result (list string))
    (l : list nat) :
  (forall j acc, j ∈ l ->
     body j acc
     = match cell j with
       | Some m => if decide (m = 1%Z)
                   then tj ← getitem equips j; Ok (acc ++ [nom tj])
                   else Ok acc
       | None => Raise IndexError
       end) ->
  (forall j, j ∈ l -> is_Some (cell j) /\ is_Some (equips !! j)) ->
  exists noms,
    for_each l body [] = Ok noms /\
    Some <$> noms
    = (fun j => nom <$> equips !! j)
        <$> List.filter (fun j => bool_decide (cell j = Some 1%Z)) l.
Proof.
  intros Hbody Hok.
  pose proof (for_each_spec
    (fun l1 (acc : list string) =>
       Some <$> acc
       = (fun j => nom <$> equips !! j)
           <$> List.filter (fun j => bool_decide (cell j = Some 1%Z)) l1)
    l body [] eq_refl) as Hspec.
  match type of Hspec with ?H -> _ => assert (Hstep : H) end.
  { intros l1 j acc acc' Hj Hinv Hb. rewrite Hbody in Hb by done.
    destruct (Hok j Hj) as [[m Hm] [tj Htj]]. rewrite Hm in Hb.
    rewrite filter_snoc, Hm.
    destruct (decide (m = 1%Z)) as [->|Hne].
    - unfold getitem in Hb. rewrite Htj in Hb. simpl in Hb.
      injection Hb as <-. rewrite bool_decide_eq_true_2 by done.
      rewrite !fmap_app, Hinv. simpl. by rewrite Htj.
    - injection Hb as <-.
      rewrite bool_decide_eq_false_2 by congruence. by rewrite app_nil_r. }
  specialize (Hspec Hstep).
  destruct (for_each l body []) as [noms|e]; [by exists noms|].
  destruct Hspec as (l1 & j & acc & Hj & _ & Hb).
  rewrite Hbody in Hb by done.
  destruct (Hok j Hj) as [[m Hm] [tj Htj]]. rewrite Hm in Hb.
  unfold getitem in Hb. rewrite Htj in Hb. by destruct (decide (m = 1%Z)).
Qed.

Lemma square_entry {A} n (m : list (list A)) i j :
  square n m -> i < n -> j < n -> is_Some (entry m i j).
Proof.
  intros [Hl Hr] Hi Hj. unfold entry.
  destruct (lookup_lt_is_Some_2 m i) as [row Hrow]; [lia|].
  rewrite Hrow. simpl. apply lookup_lt_is_Some_2.
  rewrite Forall_forall in Hr. rewrite (Hr row); [done|].
  apply list_elem_of_lookup. eauto.
Qed.

Lemma rivals_visitant_spec matriu equips i :
  dense equips -> square (size equips) matriu -> i < size equips ->
  exists noms,
    rivals_visitant matriu equips (size equips) i = Ok noms /\
    Some <$> noms
    = (fun j => nom <$> equips !! j) <$> visitats matriu (size equips) i.
Proof.
  intros Hd Hsq Hi. unfold rivals_visitant, visitats.
  apply (rivals_spec matriu equips (fun j => entry matriu i j)).
  - intros j acc _. unfold index, entry.
    destruct (matriu !! i) as [row|]; simpl; [|done].
    by destruct (row !! j).
  - intros j Hj%elem_of_seq. split; [apply (square_entry (size equips))|apply Hd];
      (done || lia).
Qed.

Lemma rivals_local_spec matriu equips i :
  dense equips -> square (size equips) matriu -> i < size equips ->
  exists noms,
    rivals_local matriu equips (size equips) i = Ok noms /\
    Some <$> noms
    = (fun j => nom <$> equips !! j) <$> rebuts matriu (size equips) i.
Proof.
  intros Hd Hsq Hi. unfold rivals_local, rebuts.
  apply (rivals_spec matriu equips (fun j => entry matriu j i)).
  - intros j acc _. unfold index, entry.
    destruct (matriu !! j) as [row|]; simpl; [|done].
    by destruct (row !! i).
  - intros j Hj%elem_of_seq. split; [apply (square_entry (size equips))|apply Hd];
      (done || lia).
Qed.

(** The line of team [i]. *)
Definition fila_taula (matriu : list (list Z)) (equips : gmap nat team)
    (i : nat) : result string :=
  vis ← rivals_visitant matriu equips (size equips) i;
  loc ← rivals_local matriu equips (size equips) i;
  ti ← getitem equips i;
  Ok (nom ti ++ TAB ++ String.concat ", " vis
      ++ TAB ++ String.concat ", " loc)%string.

Lemma mostrar_rivals_taula_lines matriu equips :
  (forall i, i < size equips -> exists line, fila_taula matriu equips i = Ok line) ->
  exists lines,
    mostrar_rivals_taula matriu equips
    = ([ ("Equip" ++ TAB ++ "Com a visitant" ++ TAB ++ "Com a local")%string;
         repeat_string "-" 120 ] ++ lines ++ [repeat_string "-" 120], Ok tt) /\
    Forall2 (fun i line => fila_taula matriu equips i = Ok line)
            (range (size equips)) lines.
Proof.
  intros Hrows. unfold mostrar_rivals_taula.
  assert (Hl : Forall (fun i => i < size equips) (range (size equips))).
  { apply Forall_forall. intros i Hi%elem_of_seq. lia. }
  revert Hl. generalize (range (size equips)) as l.
  generalize [("Equip" ++ TAB ++ "Com a visitant" ++ TAB ++ "Com a local")%string;
              repeat_string "-" 120] as out.
  intros out l. revert out.
  induction l as [|i l IH]; intros out Hl.
  { exists []. split; [done|constructor]. }
  apply Forall_cons in Hl as [Hi Hl].
  destruct (Hrows i Hi) as [line Hline]. unfold fila_taula in Hline.
  rewrite Hline. destruct (IH (out ++ [line]) Hl) as (lines & -> & Hlines).
  exists (line :: lines). split; [by rewrite <- !app_assoc|].
  by constructor.
Qed.

Lemma fila_taula_spec matriu equips i :
  dense equips -> square (size equips) matriu -> i < size equips ->
  exists ti vis loc,
    equips !! i = Some ti /\
    Some <$> vis
    = (fun j => nom <$> equips !! j) <$> visitats matriu (size equips) i /\
    Some <$> loc
    = (fun j => nom <$> equips !! j) <$> rebuts matriu (size equips) i /\
    fila_taula matriu equips i
    = Ok (nom ti ++ TAB ++ String.concat ", " vis
          ++ TAB ++ String.concat ", " loc)%string.
Proof.
  intros Hd Hsq Hi. destruct (Hd i Hi) as [ti Hti].
  destruct (rivals_visitant_spec matriu equips i Hd Hsq Hi) as (vis & Hv & Hvis).
  destruct (rivals_local_spec matriu equips i Hd Hsq Hi) as (loc & Hl & Hloc).
  exists ti, vis, loc. repeat split; [done..|].
  unfold fila_taula, getitem. by rewrite Hv, Hl, Hti.
Qed.

Lemma mostrar_rivals_taula_Ok matriu equips :
  dense equips -> square (size equips) matriu ->
  exists lines,
    mostrar_rivals_taula matriu equips
    = ([ ("Equip" ++ TAB ++ "Com a visitant" ++ TAB ++ "Com a local")%string;
         repeat_string "-" 120 ] ++ lines ++ [repeat_string "-" 120], Ok tt) /\
    length lines = size equips /\
    Forall2 (fun i line => fila_taula matriu equips i = Ok line)
            (range (size equips)) lines.
Proof.
  intros Hd Hsq.
  destruct (mostrar_rivals_taula_lines matriu equips) as (lines & Hm & Hlines).
  { intros i Hi.
    destruct (fila_taula_spec matriu equips i Hd Hsq Hi)
      as (ti & vis & loc & _ & _ & _ & Hf).
    by eexists. }
  exists lines. split; [done|].
  pose proof (Forall2_length _ _ _ Hlines) as Hlen.
  unfold range in Hlen. rewrite length_seq in Hlen. done.
Qed.

(** X18. For a dictionary with the keys [0 .. N-1] and an [N * N] matrix,
    [mostrar_rivals_taula] prints the heading, a rule, one line per team and
    a closing rule, and raises nothing; the line of a team lists the names
    of the teams [j] with [matriu[i][j] == 1], then those with
    [matriu[j][i] == 1], in the order of their keys. *)
Theorem mostrar_rivals_taula_prints matriu equips :
  dense equips -> square (size equips) matriu ->
  exists lines,
    mostrar_rivals_taula matriu equips
    = ([ ("Equip" ++ TAB ++ "Com a visitant" ++ TAB ++ "Com a local")%string;
         repeat_string "-" 120 ] ++ lines ++ [repeat_string "-" 120], Ok tt) /\
    length lines = size equips /\
    forall i, i < size equips ->
      exists ti vis loc,
        equips !! i = Some ti /\
        Some <$> vis
        = (fun j => nom <$> equips !! j) <$> visitats matriu (size equips) i /\
        Some <$> loc
        = (fun j => nom <$> equips !! j) <$> rebuts matriu (size equips) i /\
        lines !! i
        = Some (nom ti ++ TAB ++ String.concat ", " vis
                ++ TAB ++ String.concat ", " loc)%string.
Proof.
  intros Hd Hsq.
  destruct (mostrar_rivals_taula_Ok matriu equips Hd Hsq)
    as (lines & Hm & Hlen & Hlines).
  exists lines. split; [done|]. split; [done|].
  intros i Hi.
  destruct (fila_taula_spec matriu equips i Hd Hsq Hi)
    as (ti & vis & loc & Hti & Hvis & Hloc & Hf).
  exists ti, vis, loc. repeat split; [done..|].
  destruct (lookup_lt_is_Some_2 lines i) as [line Hline]; [lia|].
  rewrite Hline. f_equal.
  assert (Hi' : range (size equips) !! i = Some i).
  { unfold range. by rewrite lookup_seq_lt. }
  pose proof (Forall2_lookup_lr _ _ _ _ _ _ Hlines Hi' Hline) as Hfl.
  simpl in Hfl. congruence.
Qed.

(** The two teams, Barcelona visiting Arsenal. *)
Lemma mostrar_rivals_taula_prints_witness :
  exists lines,
    mostrar_rivals_taula [[0; 1]; [0; 0]]%Z ex_equips2
    = ([ ("Equip" ++ TAB ++ "Com a visitant" ++ TAB ++ "Com a local")%string;
         repeat_string "-" 120 ] ++ lines ++ [repeat_string "-" 120], Ok tt) /\
    length lines = 2.
Proof.
  destruct (mostrar_rivals_taula_prints [[0; 1]; [0; 0]]%Z ex_equips2)
    as (lines & Hm & Hlen & _).
  - exact ex_equips2_dense.
  - split; [reflexivity|]. by repeat constructor.
  - exists lines. split; [exact Hm|exact Hlen].
Defined.

(** X19. For the matrix of a feasible schedule, the two comprehensions of
    [mostrar_rivals_taula] return four names each, for every team: the
    teams it visits and the teams it hosts. A team is never its own rival,
    and [i] visits [j] exactly when [j] hosts [i]. *)
Theorem rivals_of_feasible_schedule equips dists model vars x matriu i :
  construir_model equips dists = Ok (model, vars) ->
  feasible model vars x ->
  square (size equips) matriu ->
  (forall a b, a < size equips -> b < size equips ->
     entry matriu a b = Some (x (a, b))) ->
  i < size equips ->
  (exists vis loc,
     rivals_visitant matriu equips (size equips) i = Ok vis /\
     rivals_local matriu equips (size equips) i = Ok loc /\
     length vis = 4 /\ length loc = 4) /\
  (i ∉ visitats matriu (size equips) i) /\
  (forall j, j < size equips ->
     j ∈ visitats matriu (size equips) i <-> i ∈ rebuts matriu (size equips) j).
Proof.
  intros Hc Hfeas Hsq Hm Hi.
  pose proof (construir_model_wf _ _ _ _ Hc) as Hwf.
  pose proof (wf_equips_dense _ Hwf) as Hd.
  destruct (feasible_invariants _ _ _ _ x Hc Hfeas)
    as (Hbin & Hdeg & _ & _ & _ & Hpot).
  assert (Hvis : length (visitats matriu (size equips) i) = 4).
  { destruct (Hdeg i Hi) as [Haway _].
    rewrite (sum_over_count _ (fun j => x (i, j))) in Haway
      by (intros j Hj%elem_of_seq; apply Hbin; lia).
    replace (visitats matriu (size equips) i)
      with (List.filter (fun j => bool_decide (x (i, j) = 1%Z))
                        (range (size equips))); [lia|].
    unfold visitats. apply filter_ext_in.
    intros j Hj%in_seq. rewrite Hm by lia.
    apply bool_decide_ext. split; congruence. }
  assert (Hloc : length (rebuts matriu (size equips) i) = 4).
  { destruct (Hdeg i Hi) as [_ Hhome].
    rewrite (sum_over_count _ (fun j => x (j, i))) in Hhome
      by (intros j Hj%elem_of_seq; apply Hbin; lia).
    replace (rebuts matriu (size equips) i)
      with (List.filter (fun j => bool_decide (x (j, i) = 1%Z))
                        (range (size equips))); [lia|].
    unfold rebuts. apply filter_ext_in.
    intros j Hj%in_seq. rewrite Hm by lia.
    apply bool_decide_ext. split; congruence. }
  split; [|split].
  - destruct (rivals_visitant_spec matriu equips i Hd Hsq Hi) as (vis & Hv & Hvn).
    destruct (rivals_local_spec matriu equips i Hd Hsq Hi) as (loc & Hl & Hln).
    exists vis, loc. split; [done|]. split; [done|].
    apply (f_equal length) in Hvn, Hln. rewrite !length_fmap in Hvn, Hln.
    split; congruence.
  - intros [_ Hii%bool_decide_eq_true_1]%elem_of_filter_bool.
    rewrite Hm in Hii by done.
    pose proof (feasible_diagonal equips x i Hwf Hdeg Hpot Hi). congruence.
  - intros j Hj. unfold visitats, rebuts. rewrite !elem_of_filter_bool.
    rewrite !bool_decide_eq_true. unfold range. rewrite !elem_of_seq. split.
    + intros [_ ?]. split; [lia|done].
    + intros [_ ?]. split; [lia|done].
Qed.

(** The matrix of the schedule of the twelve teams. *)
Definition ex_matriu12 : list (list Z) :=
  map (fun i => map (fun j => ex_x12 (i, j)) (range 12)) (range 12).

Lemma rivals_of_feasible_schedule_witness :
  exists vis,
    rivals_visitant ex_matriu12 ex_equips12 (size ex_equips12) 4 = Ok vis /\
    length vis = 4.
Proof.
  destruct ex_model12 as (model & Hbuild & Hfeas).
  destruct (rivals_of_feasible_schedule ex_equips12 ex_dists12 model
              (LpVariable_dicts 12) ex_x12 ex_matriu12 4 Hbuild Hfeas)
    as [(vis & loc & Hv & _ & Hlen & _) _].
  - split; [reflexivity|]. apply Forall_forall. intros row Hrow.
    apply list_elem_of_fmap in Hrow as (i & -> & _). by rewrite length_map.
  - intros a b Ha Hb.
    assert (size ex_equips12 = 12) as Hs by reflexivity. rewrite Hs in Ha, Hb.
    do 12 (destruct a as [|a]; [do 12 (destruct b as [|b]; [reflexivity|]); lia|]).
    lia.
  - vm_compute. lia.
  - by exists vis.
Defined.

(** *** The main program *)

Lemma carregat_lookup df equips i row :
  carregat df equips ->
  Forall (fun row => is_Some (paisos_map !! f_Pais row)) df ->
  df !! i = Some row ->
  exists codi, equips !! i = Some (equip_de_fila row codi).
Proof.
  intros [_ Hlook] Hall Hrow. rewrite Forall_forall in Hall.
  destruct (Hall row) as [codi Hc]; [apply list_elem_of_lookup; eauto|].
  exists codi. rewrite Hlook, Hrow. simpl. by rewrite Hc.
Qed.

Lemma llegir_dades_excel_wf df equips :
  llegir_dades_excel df = Ok equips ->
  wf_equips equips <-> Forall (fun row => (1 <= f_Pot row <= 4)%Z) df.
Proof.
  intros Hl. pose proof (llegir_dades_excel_spec df) as Hspec.
  rewrite Hl in Hspec. destruct Hspec as [Hload Hall].
  pose proof Hload as [Hsize _]. split.
  - intros Hwf. apply Forall_forall. intros row Hrow.
    apply list_elem_of_lookup in Hrow as [i Hi].
    destruct (carregat_lookup df equips i row Hload Hall Hi) as [codi Hc].
    destruct (Hwf i) as (t & Ht & Hp).
    { rewrite Hsize. by apply lookup_lt_Some in Hi. }
    assert (t = equip_de_fila row codi) as -> by congruence. done.
  - intros Hpots i Hi. rewrite Hsize in Hi.
    destruct (lookup_lt_is_Some_2 df i Hi) as [row Hrow].
    destruct (carregat_lookup df equips i row Hload Hall Hrow) as [codi Hc].
    eexists. split; [done|]. cbn [pot equip_de_fila].
    rewrite Forall_forall in Hpots. apply Hpots, list_elem_of_lookup. eauto.
Qed.

(** The sheet whose exact quotients are the rounded ones: loading it in
    exact arithmetic gives what loading the sheet itself gives with rounded
    division. *)
Definition fila_arrodonida (fl : float_ops) (r : fila) : fila :=
  {| f_Equip := f_Equip r;
     f_Estadi := f_Estadi r;
     f_Latitud := (f_div fl (f_Latitud r) 1000000.0 * 1000000.0)%R;
     f_Longitud := (f_div fl (f_Longitud r) 1000000.0 * 1000000.0)%R;
     f_Pais := f_Pais r;
     f_Pot := f_Pot r |}.

Lemma equip_de_fila_arrodonida fl r codi :
  equip_de_fila (fila_arrodonida fl r) codi = Float.equip_de_fila fl r codi.
Proof.
  unfold equip_de_fila, Float.equip_de_fila. cbn. f_equal; field; lra.
Qed.

Lemma llegir_dades_excel_rounded_snoc fl df row :
  Float.llegir_dades_excel fl (df ++ [row])
  = equips ← Float.llegir_dades_excel fl df;
    codi ← getitem paisos_map (f_Pais row);
    Ok (<[length df := Float.equip_de_fila fl row codi]> equips).
Proof.
  unfold Float.llegir_dades_excel. rewrite iterrows_snoc, for_each_app.
  destruct (for_each (iterrows df) _ ∅) as [equips|e]; simpl; [|done].
  by destruct (getitem paisos_map (f_Pais row)).
Qed.

Lemma llegir_dades_excel_arrodonida fl df :
  Float.llegir_dades_excel fl df
  = llegir_dades_excel (fila_arrodonida fl <$> df).
Proof.
  induction df as [|row df IH] using rev_ind; [done|].
  rewrite fmap_app, llegir_dades_excel_rounded_snoc. cbn [fmap list_fmap].
  rewrite llegir_dades_excel_snoc, <- IH, length_fmap.
  destruct (Float.llegir_dades_excel fl df) as [equips|e]; simpl; [|done].
  destruct (getitem paisos_map (f_Pais row)) as [codi|e]; simpl; [|done].
  by rewrite equip_de_fila_arrodonida.
Qed.

(** What loading gives, whatever the rounding of the division. *)
Lemma llegir_dades_excel_rounded fl df :
  match Float.llegir_dades_excel fl df with
  | Ok equips =>
      size equips = length df /\ dense equips /\
      Forall (fun row => (1 <= f_Pais row <= 16)%Z) df /\
      (wf_equips equips <-> Forall (fun row => (1 <= f_Pot row <= 4)%Z) df)
  | Raise e =>
      e = KeyError /\ Exists (fun row => ~ (1 <= f_Pais row <= 16)%Z) df
  end.
Proof.
  rewrite llegir_dades_excel_arrodonida.
  pose proof (llegir_dades_excel_spec (fila_arrodonida fl <$> df)) as Hspec.
  destruct (llegir_dades_excel (fila_arrodonida fl <$> df))
    as [equips|e] eqn:Hl.
  - destruct Hspec as [Hload Hall]. split; [|split; [|split]].
    + destruct Hload as [-> _]. apply length_fmap.
    + by apply (carregat_dense (fila_arrodonida fl <$> df)).
    + apply Forall_forall. intros row Hrow. rewrite Forall_forall in Hall.
      apply paisos_map_codes, (Hall (fila_arrodonida fl row)).
      apply list_elem_of_fmap. by exists row.
    + rewrite (llegir_dades_excel_wf _ _ Hl), Forall_fmap.
      apply Forall_iff. by intros row.
  - destruct Hspec as [-> Hex]. split; [done|].
    apply Exists_exists in Hex as (row' & Hin & Hnone).
    apply list_elem_of_fmap in Hin as (row & -> & Hin).
    apply Exists_exists. exists row. split; [done|]. intros Hcode.
    apply paisos_map_codes in Hcode as [codi Hcodi].
    change (paisos_map !! f_Pais row = None) in Hnone. congruence.
Qed.

(** In exact arithmetic a sheet with known country codes is loaded and its
    distances are computed. *)
Lemma main_loaded_exact df :
  Forall (fun row => (1 <= f_Pais row <= 16)%Z) df ->
  exists equips dists,
    Float.llegir_dades_excel exact_ops df = Ok equips /\
    Float.crear_matriu_distancies exact_ops equips = Ok dists.
Proof.
  intros Hcodes.
  pose proof (llegir_dades_excel_rounded exact_ops df) as Hspec.
  destruct (Float.llegir_dades_excel exact_ops df) as [equips|e].
  - destruct Hspec as (_ & Hd & _).
    destruct (crear_matriu_distancies_Ok exact_ops equips Hd)
      as [dists Hdists].
    { intros i j ti tj _ _ _ _ _.
      rewrite calcular_distancia_haversine_exact. by eexists. }
    by exists equips, dists.
  - destruct Hspec as [_ Hex]. apply Exists_exists in Hex as (row & Hin & Hc).
    rewrite Forall_forall in Hcodes. destruct Hc. by apply Hcodes.
Qed.

(** X20. [main] can stop before the solver is called, having printed
    nothing, in three ways: with [KeyError] while loading, when a row of the
    sheet has a country code outside 1..16; with [ValueError] while the
    distances are computed, when rounding makes the distance of some pair
    raise it, and with no other exception there; and, the distances being
    computed, with [KeyError] while the teams are grouped for the model,
    when a row has a pot outside 1..4. *)
Theorem main_rejects_before_solving fl PULP_CBC_CMD df :
  (Exists (fun row => ~ (1 <= f_Pais row <= 16)%Z) df ->
   main fl PULP_CBC_CMD df = ([], [], Raise KeyError)) /\
  (forall equips e,
     Float.llegir_dades_excel fl df = Ok equips ->
     Float.crear_matriu_distancies fl equips = Raise e ->
     e = ValueError /\
     main fl PULP_CBC_CMD df = ([], [], Raise ValueError)) /\
  (forall equips dists,
     Float.llegir_dades_excel fl df = Ok equips ->
     Float.crear_matriu_distancies fl equips = Ok dists ->
     Exists (fun row => ~ (1 <= f_Pot row <= 4)%Z) df ->
     main fl PULP_CBC_CMD df = ([], [], Raise KeyError)).
Proof.
  pose proof (llegir_dades_excel_rounded fl df) as Hspec.
  split; [|split].
  - intros (row & Hin & Hcode)%Exists_exists. unfold main.
    destruct (Float.llegir_dades_excel fl df) as [equips|e].
    + destruct Hspec as (_ & _ & Hall & _). rewrite Forall_forall in Hall.
      destruct Hcode. by apply Hall.
    + by destruct Hspec as [-> _].
  - intros equips e Hl Hc. unfold main. rewrite Hl in Hspec |- *.
    rewrite Hc. destruct Hspec as (_ & Hd & _).
    apply crear_matriu_distancies_Raise in Hc as (_ & [(_ & Hnd)|(-> & _)]);
      done.
  - intros equips dists Hl Hc (row & Hin & Hpot)%Exists_exists. unfold main.
    rewrite Hl in Hspec |- *. rewrite Hc.
    destruct Hspec as (_ & _ & _ & Hwfiff).
    unfold optimitzar_lliga_champions.
    pose proof (construir_model_spec equips dists) as Hm.
    destruct (construir_model equips dists) as [[model x]|e].
    + destruct Hm as [Hwf _]. apply Hwfiff in Hwf.
      rewrite Forall_forall in Hwf. destruct Hpot. by apply Hwf.
    + destruct Hm as [[-> _]|[_ Hcov]]; [done|].
      destruct Hcov. by apply (crear_matriu_distancies_covers fl).
Qed.

Definition ex_fila_pot5 : fila :=
  {| f_Equip := "Celtic"; f_Estadi := "Celtic Park";
     f_Latitud := 55849711; f_Longitud := -4205589;
     f_Pais := 3; f_Pot := 5 |}.

(** Three rows, the third in a fifth pot, in exact arithmetic. *)
Lemma main_rejects_before_solving_witness :
  main exact_ops cbc_no_solution (ex_df2 ++ [ex_fila_pot5])
  = ([], [], Raise KeyError).
Proof.
  destruct (main_loaded_exact (ex_df2 ++ [ex_fila_pot5]))
    as (equips & dists & Hl & Hc).
  { repeat constructor; cbn; lia. }
  destruct (main_rejects_before_solving exact_ops cbc_no_solution
              (ex_df2 ++ [ex_fila_pot5])) as (_ & _ & Hpot).
  apply (Hpot equips dists Hl Hc).
  apply Exists_app. right. constructor. cbn. lia.
Defined.

Lemma convertir_values_None (x : gmap var (option R)) N i j :
  (forall a b, a < N -> b < N -> is_Some (x !! (a, b))) ->
  i < N -> j < N -> x !! (i, j) = Some None ->
  convertir_variables_a_matriu x N = Raise TypeError.
Proof.
  intros Hkeys Hi Hj Hnone.
  destruct (convertir_variables_a_matriu x N) as [m|e] eqn:Hc.
  - apply convertir_Ok_values in Hc as [_ Hall].
    destruct (Hall i j Hi Hj) as [r Hr]. congruence.
  - f_equal. unfold convertir_variables_a_matriu in Hc.
    rewrite for_each_nested in Hc.
    apply for_each_Raise_inv in Hc as ([a b] & m & [Ha Hb]%elem_of_cells & Hbody).
    cbn [fst snd] in Hbody.
    apply convertir_cell_Raise in Hbody as [[Hbody _]|[_ ->]]; [|done].
    destruct (Hkeys a b Ha Hb) as [? ?]. congruence.
Qed.

(** X21. Once the sheet is loaded and its distances are computed, and the
    pots are in 1..4, [main] hands the model to the solver, once, with a
    time limit of 300 seconds; when the solver leaves a variable without a
    value, [main] then stops with [TypeError] and prints no table and no
    total. *)
Theorem main_without_solution fl PULP_CBC_CMD df equips dists i j :
  Float.llegir_dades_excel fl df = Ok equips ->
  Float.crear_matriu_distancies fl equips = Ok dists ->
  Forall (fun row => (1 <= f_Pot row <= 4)%Z) df ->
  i < length df -> j < length df ->
  (forall model, varValue (PULP_CBC_CMD 300%Z model) (i, j) = None) ->
  exists model,
    main fl PULP_CBC_CMD df = ([Solve model 300], [], Raise TypeError).
Proof.
  intros Hl Hc Hpots Hi Hj Hnone. unfold main.
  pose proof (llegir_dades_excel_rounded fl df) as Hspec.
  rewrite Hl in Hspec |- *. rewrite Hc.
  destruct Hspec as (Hsize & _ & _ & Hwfiff).
  assert (Hwf : wf_equips equips) by by apply Hwfiff.
  pose proof (crear_matriu_distancies_covers fl equips dists Hc) as [_ Hcov].
  destruct (construir_model_objective equips dists Hwf Hcov)
    as (model & Hm & Hvars & _).
  exists model. unfold optimitzar_lliga_champions. rewrite Hm.
  assert (Hcell : (i, j) ∈ LpVariable_dicts (size equips)).
  { apply elem_of_cells. lia. }
  destruct (decide (status (PULP_CBC_CMD 300%Z model) = LpStatusOptimal)).
  - rewrite (objective_value_None _ _ (i, j)); [done| |apply Hnone].
    by rewrite Hvars.
  - rewrite (convertir_values_None _ (size equips) i j); [done| |lia|lia|].
    + intros a b Ha Hb. rewrite list_to_map_values.
      rewrite decide_True by (by apply elem_of_cells). by eexists.
    + rewrite list_to_map_values, decide_True by done. by rewrite Hnone.
Qed.

(** The two teams in exact arithmetic, and the solver that assigns nothing. *)
Lemma main_without_solution_witness :
  exists model,
    main exact_ops cbc_no_solution ex_df2
    = ([Solve model 300], [], Raise TypeError).
Proof.
  destruct (main_loaded_exact ex_df2) as (equips & dists & Hl & Hc).
  { repeat constructor; cbn; lia. }
  apply (main_without_solution exact_ops cbc_no_solution ex_df2
           equips dists 0 0 Hl Hc).
  - repeat constructor; cbn; lia.
  - cbn. lia.
  - cbn. lia.
  - reflexivity.
Defined.

Lemma convertir_variables_a_matriu_total (x : gmap var (option R)) N :
  (forall i j, i < N -> j < N -> exists r, x !! (i, j) = Some (Some r)) ->
  exists matriu,
    convertir_variables_a_matriu x N = Ok matriu /\ square N matriu.
Proof.
  intros Hval.
  destruct (convertir_variables_a_matriu x N) as [matriu|e] eqn:Hc.
  - exists matriu. split; [done|]. by apply convertir_entries in Hc as [? _].
  - unfold convertir_variables_a_matriu in Hc. rewrite for_each_nested in Hc.
    apply for_each_Raise_inv in Hc as ([i j] & m & [Hi Hj]%elem_of_cells & Hb).
    cbn [fst snd] in Hb. destruct (Hval i j Hi Hj) as [r Hr].
    apply convertir_cell_Raise in Hb as [[Hb _]|[Hb _]]; congruence.
Qed.

(** X22. Once the sheet is loaded and its distances are computed, with the
    pots in 1..4 and a solver that gives every variable a value, [main] runs
    to the end: it calls the solver once with the time limit 300, prints the
    total distance (the objective at the solver's values) exactly when the
    status is optimal, and prints the table: the heading, a rule, one line
    per row of the sheet, a closing rule. This is so whatever the status:
    the table is also printed from the values of a run that was not
    optimal. *)
Theorem main_prints_table fl PULP_CBC_CMD df equips dists :
  Float.llegir_dades_excel fl df = Ok equips ->
  Float.crear_matriu_distancies fl equips = Ok dists ->
  Forall (fun row => (1 <= f_Pot row <= 4)%Z) df ->
  (forall model i j, i < length df -> j < length df ->
     is_Some (varValue (PULP_CBC_CMD 300%Z model) (i, j))) ->
  exists model total lines,
    construir_model equips dists
    = Ok (model, LpVariable_dicts (size equips)) /\
    objective_value (objective model) (varValue (PULP_CBC_CMD 300%Z model))
    = Some total /\
    length lines = length df /\
    main fl PULP_CBC_CMD df
    = ((if decide (status (PULP_CBC_CMD 300%Z model) = LpStatusOptimal)
        then [Solve model 300; Print total] else [Solve model 300]),
       [ ("Equip" ++ TAB ++ "Com a visitant" ++ TAB ++ "Com a local")%string;
         repeat_string "-" 120 ] ++ lines ++ [repeat_string "-" 120],
       Ok tt).
Proof.
  intros Hl Hc Hpots Hval. unfold main.
  pose proof (llegir_dades_excel_rounded fl df) as Hspec.
  rewrite Hl in Hspec |- *. rewrite Hc.
  destruct Hspec as (Hsize & Hd & _ & Hwfiff).
  assert (Hwf : wf_equips equips) by by apply Hwfiff.
  pose proof (crear_matriu_distancies_covers fl equips dists Hc) as [_ Hcov].
  destruct (construir_model_objective equips dists Hwf Hcov)
    as (model & Hm & Hvars & _).
  set (sol := PULP_CBC_CMD 300%Z model).
  destruct (objective_value_Some (objective model) (varValue sol))
    as [total Htotal].
  { rewrite Hvars. intros [i j] [Hi Hj]%elem_of_cells. apply Hval; lia. }
  set (values := list_to_map (map (fun v => (v, varValue sol v))
                                  (LpVariable_dicts (size equips)))
                 : gmap var (option R)).
  destruct (convertir_variables_a_matriu_total values (size equips))
    as (matriu & Hconv & Hsq).
  { intros i j Hi Hj. unfold values. rewrite list_to_map_values.
    rewrite decide_True by (by apply elem_of_cells).
    destruct (Hval model i j) as [r Hr]; [lia..|].
    exists r. by rewrite <- Hr. }
  destruct (mostrar_rivals_taula_Ok matriu equips Hd Hsq)
    as (lines & Hshow & Hlen & _).
  exists model, total, lines. split; [done|]. split; [done|]. split; [lia|].
  unfold optimitzar_lliga_champions. rewrite Hm.
  fold sol. fold values.
  destruct (decide (status sol = LpStatusOptimal)).
  - rewrite Htotal. by rewrite Hconv, Hshow.
  - by rewrite Hconv, Hshow.
Qed.

(** A solver that stops without an optimum and leaves every variable at 0. *)
Definition cbc_zeros (timeLimit : Z) (model : LpProblem) : solution :=
  {| status := 0%Z; varValue := fun _ => Some 0%R |}.

Lemma main_prints_table_witness :
  exists model lines,
    length lines = 2 /\
    main exact_ops cbc_zeros ex_df2
    = ([Solve model 300],
       [ ("Equip" ++ TAB ++ "Com a visitant" ++ TAB ++ "Com a local")%string;
         repeat_string "-" 120 ] ++ lines ++ [repeat_string "-" 120],
       Ok tt).
Proof.
  destruct (main_loaded_exact ex_df2) as (equips & dists & Hl & Hc).
  { repeat constructor; cbn; lia. }
  destruct (main_prints_table exact_ops cbc_zeros ex_df2 equips dists Hl Hc)
    as (model & total & lines & _ & _ & Hlen & Hmain).
  - repeat constructor; cbn; lia.
  - intros model i j _ _. by eexists.
  - exists model, lines. split; [exact Hlen|exact Hmain].
Defined.
